(** * restify-warden: the parameter validation engine

    A shallow embedding of [lib/validate.js], [lib/validators.js],
    [lib/errors.js], [lib/constants.js] and [lib/common.js], and the
    properties of the engine proved over it.

    Modelling conventions.
    - A value is what [JSON.parse] or a literal can yield: [undefined],
      [null], a boolean, a number, a string, an array or a plain object.
      An object is the association list of its own enumerable properties in
      enumeration order, and its prototype is [Object.prototype].
    - [o.hasOwnProperty(k)], which the engine writes as a method call, is
      [Js.own]: an own property named [hasOwnProperty] takes the place of
      the inherited method, and the call throws.  [Js.hasOwnProperty] is the
      membership test that the inherited method performs.
    - A JavaScript number is a rational or one of NaN, +Infinity, -Infinity.
    - A string is the sequence of its UTF-16 code units; the strings of the
      model are those whose code units are below 256, one character each.
      On them [\s] and [trim] know the code units 9 to 13, 32 and 160.
    - A validator handed to the engine is a function to what it gives its
      callback, or to nothing when it throws.  An after function calls back
      exactly once and does not throw.
    - [vasync.forEachParallel] calls the validators in the order of the
      tasks, and runs the callbacks they were handed in whatever order the
      validators finish: that order is a parameter of the engine, a
      [schedule].
    - An exception that leaves the engine is the event [Throws], the last
      of its call.
    - Builtins and libraries whose code is outside the repository
      ([net.isIP], the string-to-number and number-to-string conversions,
      [ip6addr]) are parameters of the validators that use them.  The
      constructor [restify.InternalError] is modelled as far as
      [tests/run.js] pins it down. *)

From Stdlib Require Import List String Ascii Bool ZArith QArith Qround.
From Stdlib Require Import Lia Permutation Sorted DecimalString.
Import ListNotations.

Local Open Scope string_scope.
Local Open Scope list_scope.

(** ** The host language *)

Module Js.

Set Warnings "-register-all".

(** Numbers. *)
Inductive number : Type :=
| NaN
| PosInf
| NegInf
| Fin (q : Q).

Inductive value : Type :=
| VUndefined
| VNull
| VBool (b : bool)
| VNum (n : number)
| VStr (s : string)
| VArr (items : list value)
| VObj (props : list (string * value)).

(** An object as a map: own enumerable properties, in enumeration order. *)
Definition object : Type := list (string * value).

Definition typeof (v : value) : string :=
  match v with
  | VUndefined => "undefined"
  | VNull => "object"
  | VBool _ => "boolean"
  | VNum _ => "number"
  | VStr _ => "string"
  | VArr _ => "object"
  | VObj _ => "object"
  end.

Definition isArray (v : value) : bool :=
  match v with VArr _ => true | _ => false end.

(** ToBoolean. *)
Definition truthy (v : value) : bool :=
  match v with
  | VUndefined | VNull => false
  | VBool b => b
  | VNum NaN => false
  | VNum (Fin q) => negb (Qeq_bool q 0)
  | VNum _ => true
  | VStr s => negb (s =? "")
  | VArr _ | VObj _ => true
  end.

(** [o[k]] on an own property, and the test of
    [Object.prototype.hasOwnProperty], whatever the properties hold. *)
Fixpoint get {A : Type} (o : list (string * A)) (k : string) : option A :=
  match o with
  | [] => None
  | (k', v) :: o' => if k' =? k then Some v else get o' k
  end.

Definition hasOwnProperty {A : Type} (o : list (string * A)) (k : string) : bool :=
  match get o k with Some _ => true | None => false end.

(** [o.hasOwnProperty(k)], the method call: the method is looked up on [o],
    where an own property of that name comes before the one that
    [Object.prototype] holds.  What such a property holds is called in the
    method's place, and the call throws ([None]): a value of the model is no
    function, and a validator called with a field name alone has no
    callback to call. *)
Definition own {A : Type} (o : list (string * A)) (k : string) : option bool :=
  if hasOwnProperty o "hasOwnProperty" then None
  else Some (hasOwnProperty o k).

(** [o[k] = v]: an existing key keeps its place, a new one goes last. *)
Fixpoint set (o : object) (k : string) (v : value) : object :=
  match o with
  | [] => [(k, v)]
  | (k', v') :: o' =>
      if k' =? k then (k', v) :: o' else (k', v') :: set o' k v
  end.

Definition keys (o : object) : list string := map fst o.

(** The own properties of a value that passed the object test. *)
Definition props_of (v : value) : object :=
  match v with VObj props => props | _ => [] end.

Definition index_name (i : nat) : string :=
  NilEmpty.string_of_uint (Nat.to_uint i).

Fixpoint indexed (i : nat) (items : list value) : object :=
  match items with
  | [] => []
  | x :: items' => (index_name i, x) :: indexed (S i) items'
  end.

(** [for (k in v)] paired with [v[k]]: keys of an object, indices of an
    array, nothing for null. *)
Definition for_in (v : value) : object :=
  match v with
  | VObj props => props
  | VArr items => indexed 0 items
  | _ => []
  end.

(** *** Numbers *)

Definition isNaN (n : number) : bool :=
  match n with NaN => true | _ => false end.

Definition floor (n : number) : number :=
  match n with
  | Fin q => Fin (inject_Z (Qfloor q))
  | _ => n
  end.

(** [a === b] on numbers. *)
Definition num_eq (a b : number) : bool :=
  match a, b with
  | Fin p, Fin q => Qeq_bool p q
  | PosInf, PosInf => true
  | NegInf, NegInf => true
  | _, _ => false
  end.

(** [a < b] on numbers. *)
Definition num_lt (a b : number) : bool :=
  match a, b with
  | NaN, _ | _, NaN => false
  | Fin p, Fin q => negb (Qle_bool q p)
  | NegInf, NegInf => false
  | NegInf, _ => true
  | _, PosInf => match a with PosInf => false | _ => true end
  | _, _ => false
  end.

Definition of_Z (z : Z) : number := Fin (inject_Z z).

(** *** Strings *)

(** [\s] on a code unit below 256: tab, line feed, vertical tab, form
    feed, carriage return, space and no-break space.  [trim] strips the same
    code units. *)
Definition is_space (c : ascii) : bool :=
  let n := nat_of_ascii c in
  ((9 <=? n) && (n <=? 13) || (n =? 32) || (n =? 160))%nat.

Fixpoint drop_spaces (s : string) : string :=
  match s with
  | String c s' => if is_space c then drop_spaces s' else s
  | EmptyString => EmptyString
  end.

Fixpoint all_spaces (s : string) : bool :=
  match s with
  | String c s' => is_space c && all_spaces s'
  | EmptyString => true
  end.

(** Drops the white space a string ends with. *)
Fixpoint drop_trailing (s : string) : string :=
  match s with
  | String c s' => if all_spaces s then EmptyString else String c (drop_trailing s')
  | EmptyString => EmptyString
  end.

(** [s.trim()] *)
Definition trim (s : string) : string := drop_trailing (drop_spaces s).

(** [s.replace(/\s+/, '')]: the first run of white space is removed. *)
Fixpoint replace_first_spaces (s : string) : string :=
  match s with
  | String c s' => if is_space c then drop_spaces s' else String c (replace_first_spaces s')
  | EmptyString => EmptyString
  end.

(** [s.replace(/\s/g, '')]: all white space is removed. *)
Fixpoint remove_spaces (s : string) : string :=
  match s with
  | String c s' => if is_space c then remove_spaces s' else String c (remove_spaces s')
  | EmptyString => EmptyString
  end.

(** [s.split(sep)] for a one-character separator: the pieces, the current
    one being [cur] reversed. *)
Fixpoint split_from (sep : ascii) (cur : string) (s : string) : list string :=
  match s with
  | EmptyString => [cur]
  | String c s' =>
      if Ascii.eqb c sep then cur :: split_from sep EmptyString s'
      else split_from sep (cur ++ String c EmptyString) s'
  end.

Definition split (sep : ascii) (s : string) : list string :=
  split_from sep EmptyString s.

(** [l.join(sep)] on strings. *)
Fixpoint join (sep : string) (l : list string) : string :=
  match l with
  | [] => ""
  | [x] => x
  | x :: l' => x ++ sep ++ join sep l'
  end.

(** [a > b] on strings: code units compared lexicographically. *)
Definition str_gt (a b : string) : bool := String.ltb b a.

(** *** Array.prototype.sort

    The host's sort, as the [InsertionSort] of V8's [array.js], which sorts
    the arrays of up to ten elements: each element in turn is moved left
    past every element [tmp] of the sorted prefix with
    [comparefn(tmp, element) > 0].  The prefix is kept reversed.  Any other
    comparison sort yields the same array when no two elements compare
    equal. *)
Fixpoint insert_back {A : Type} (comparefn : A -> A -> Z) (element : A)
    (prefix : list A) : list A :=
  match prefix with
  | [] => [element]
  | tmp :: rest =>
      if (comparefn tmp element >? 0)%Z
      then tmp :: insert_back comparefn element rest
      else element :: prefix
  end.

Definition sort {A : Type} (comparefn : A -> A -> Z) (a : list A) : list A :=
  rev (fold_left (fun prefix element => insert_back comparefn element prefix) a []).

(** The default comparison of [sort()], on strings. *)
Definition default_compare (x y : string) : Z :=
  if x =? y then 0%Z else if String.ltb x y then (-1)%Z else 1%Z.

End Js.

(** ** lib/constants.js *)

Module Constants.

Module msg.
Definition INVALID_PARAMS := "Invalid parameters".
Definition ARRAY_OF_STR := "must be an array of strings".
Definition ARRAY_EMPTY := "must not be an empty array".
Definition STR := "must be a string".
Definition INVALID_UUID := "invalid UUID".
Definition UNKNOWN_PARAMS := "Unknown parameters".
Definition PARAMETERS_ARE_OBJECTS := "Parameters must be objects".
Definition CIDR_SUBNET := "Subnet must be in CIDR form".
Definition OFFSET :=
  "invalid value, offset must be an integer greater than or equal to 0".
Definition LIMIT :=
  "invalid limit, must be an integer greater than 0 or less than or equal to 1000".
End msg.

Definition MAX_LIMIT : Z := 1000.
Definition MAX_STR_LEN : Z := 64.
Definition SUBNET_MIN_IPV4 : Z := 8.
Definition SUBNET_MIN_IPV6 : Z := 8.
Definition MIN_LIMIT : Z := 1.
Definition MIN_OFFSET : Z := 0.

End Constants.

(** ** lib/errors.js *)

Module Errors.

Module MSG.
Definition duplicate := "Already exists".
Definition internal := "Internal error".
Definition missingParam := "Missing parameter".
Definition missingParams := "Missing parameters".
End MSG.

(** The [field] of an element of a response's errors array: a field name,
    or the array of names of an unknown-parameters element. *)
Inductive fieldval : Type :=
| FStr (s : string)
| FArr (names : list string).

(** An error object as the engine reads it: [field] and [code] may be
    absent; [extra] holds any other property.  No error object holds a
    property named [hasOwnProperty]: the calls [e.hasOwnProperty(...)] of
    [errResult] find the inherited method. *)
Record error : Type := mkError {
  field : option fieldval;
  code : option string;
  message : option string;
  invalid : option (list string);
  extra : Js.object
}.

(** [message || dflt] *)
Definition or_default (message : option string) (dflt : string) : string :=
  match message with
  | Some m => if m =? "" then dflt else m
  | None => dflt
  end.

Definition invalidParam (field : string) (message : option string) : error :=
  {| field := Some (FStr field);
     code := Some "InvalidParameter";
     message := Some (or_default message Constants.msg.INVALID_PARAMS);
     invalid := None;
     extra := [] |}.

Definition unknownParams (params : list string) (message : option string) : error :=
  let msg := or_default message Constants.msg.UNKNOWN_PARAMS in
  let msg := (msg ++ ": " ++ Js.join ", " params)%string in
  {| field := Some (FArr params);
     code := Some "UnknownParameters";
     message := Some msg;
     invalid := None;
     extra := [] |}.

Definition missingParam (field : string) (message : option string) : error :=
  {| field := Some (FStr field);
     code := Some "MissingParameter";
     message := Some (or_default message MSG.missingParam);
     invalid := None;
     extra := [] |}.

(** What the engine gives [new restify.InternalError(...)] first: one error
    object, or a [verror.MultiError] made of several. *)
Inductive cause : Type :=
| Cause (e : error)
| MultiError (errors : list error).

(** The errors the engine hands to its callback.  Of an [InternalError],
    its cause, the errors of the [MultiError] it was built on ([we_cause]),
    and its message; of an [InvalidParamsError], its message and the
    elements of its body. *)
Inductive failure : Type :=
| InternalError (we_cause : option (list error)) (message : string)
| InvalidParamsError (message : string) (errors : list error).

(** [new restify.InternalError(cause, message)].  The constructor keeps as
    its cause a first argument that is an [Error], as a [MultiError] is.  A
    plain object it reads as its options: the new error has no cause, and
    its message is the [message] of the object, or [text] when the object
    has none.  [tests/run.js] expects [expErrInternal] for the one
    and [expVErrInternal] for the other. *)
Definition restify_InternalError (c : cause) (text : string) : failure :=
  match c with
  | Cause e => InternalError None (or_default (message e) text)
  | MultiError errors => InternalError (Some errors) text
  end.

End Errors.

(** ** lib/common.js *)

Module Common.
Import Js.

(** [None]: [obj.split] is not a function. *)
Definition arrayify (obj : value) : option value :=
  if typeof obj =? "object" then Some obj
  else match obj with
       | VStr s =>
           if s =? "" then Some (VArr [])
           else Some (VArr (map VStr (split "," s)))
       | _ => None
       end.

Definition hashEmpty (hash : object) : bool :=
  match hash with [] => true | _ :: _ => false end.

End Common.

(** ** The validator contract *)

Module Contract.
Import Js Errors.

(** The arguments a validator gives its callback: [(e, validated, multi)],
    absent ones being [undefined]. *)
Record reply : Type := mkReply {
  err : option error;
  validated : value;
  multi : value
}.

(** [callback(e)] *)
Definition fail (e : error) : reply :=
  {| err := Some e; validated := VUndefined; multi := VUndefined |}.

(** [callback(null, v)] *)
Definition ok (v : value) : reply :=
  {| err := None; validated := v; multi := VUndefined |}.

(** A field validator [(arg, name, val, callback)]: what it gives its
    callback, or [None] when it throws. *)
Definition validator : Type := value -> string -> value -> option reply.

(** The validator of a function that always calls back. *)
Definition calls_back (fn : value -> string -> value -> reply) : validator :=
  fun arg name val => Some (fn arg name val).

(** What an after function gives its callback: nothing, one error, or an
    array of errors. *)
Inductive after_reply : Type :=
| NoError
| OneError (e : error)
| ErrorArray (es : list error).

(** An after function [(arg, raw, validated, callback)]. *)
Definition after_fn : Type := value -> value -> object -> after_reply.

End Contract.

(** ** lib/validators.js *)

Module Validators.
Import Js Errors Contract.

Section Host.

(** [net.isIP]: 0, 4 or 6. *)
Variable net_isIP : value -> Z.
(** [Number(s)] on a string and [String(n)] on a number. *)
Variable StringToNumber : string -> number.
Variable NumberToString : number -> string.

Fixpoint ToString (v : value) : string :=
  match v with
  | VUndefined => "undefined"
  | VNull => "null"
  | VBool true => "true"
  | VBool false => "false"
  | VNum n => NumberToString n
  | VStr s => s
  | VArr items =>
      join "," (map (fun x => match x with
                              | VUndefined | VNull => ""
                              | _ => ToString x
                              end) items)
  | VObj _ => "[object Object]"
  end.

(** [Number(v)] *)
Definition Number (v : value) : number :=
  match v with
  | VUndefined => NaN
  | VNull => of_Z 0
  | VBool true => of_Z 1
  | VBool false => of_Z 0
  | VNum n => n
  | VStr s => StringToNumber s
  | VArr _ | VObj _ => StringToNumber (ToString v)
  end.

(** One round of the [forEach] of [validateIParray]; [None] when [i] has no
    [replace] method. *)
Definition scan_ip (acc : option (list string * list value)) (i : value)
  : option (list string * list value) :=
  match acc, i with
  | Some (errs, ips), VStr s =>
      let ip := replace_first_spaces s in
      let ipAddr := net_isIP (VStr ip) in
      if (ipAddr =? 0)%Z then Some (errs ++ [ip], ips)
      else Some (errs, ips ++ [VNum (of_Z ipAddr)])
  | _, _ => None
  end.

(** Validates an array of (one or more) IP addresses. *)
Definition validateIParray (_ : value) (name : string) (arr : value)
  : option reply :=
  if negb (isArray arr) && negb (typeof arr =? "string") then
    Some (fail (invalidParam name (Some Constants.msg.STR)))
  else
    match Common.arrayify arr with
    | Some (VArr ip_array) =>
        let scanned :=
          if (List.length ip_array =? 0)%nat then Some (["Empty string"], [])
          else fold_left scan_ip ip_array (Some ([], [])) in
        match scanned with
        | Some (errs, ips) =>
            if negb (List.length errs =? 0)%nat then
              let ipErr :=
                invalidParam name
                  (Some ("invalid IP" ++
                         (if (List.length errs =? 1)%nat then "" else "s"))%string) in
              Some (fail {| field := field ipErr;
                            code := code ipErr;
                            message := message ipErr;
                            invalid := Some (sort default_compare errs);
                            extra := extra ipErr |})
            else Some (ok (VArr ips))
        | None => None
        end
    | _ => None
    end.

Definition _validateIP (addr : value) : bool :=
  if negb (net_isIP addr =? 0)%Z then false else true.

(** Validates only 1 IP address. *)
Definition validateIP (_ : value) (name : string) (addr : value) : reply :=
  let invalid := _validateIP addr in
  if invalid then fail (invalidParam name (Some "invalid IP address"))
  else ok addr.

(** [None]: [assert.string(val)] fails. *)
Definition isNotInteger (val : value) (id : number) : option bool :=
  match val with
  | VStr s =>
      Some ((s =? "") || negb (trim s =? s) || isNaN id
            || negb (num_eq (floor id) id))
  | _ => None
  end.

(** Checks for valid offsets. *)
Definition validateOffset (_ : value) (name : string) (val : value)
  : option reply :=
  let id := Number val in
  let bad := fail (invalidParam name (Some Constants.msg.OFFSET)) in
  let range :=
    if isNaN id || num_lt id (of_Z Constants.MIN_OFFSET) then bad
    else ok (VNum id) in
  if negb (typeof val =? "number") then
    match isNotInteger val id with
    | None => None
    | Some true => Some bad
    | Some false => Some range
    end
  else Some range.

(** Checks for valid limits. *)
Definition validateLimit (_ : value) (name : string) (val : value)
  : option reply :=
  let id := Number val in
  let bad := fail (invalidParam name (Some Constants.msg.LIMIT)) in
  let range :=
    if isNaN id || num_lt id (of_Z Constants.MIN_LIMIT)
       || num_lt (of_Z Constants.MAX_LIMIT) id then bad
    else ok (VNum id) in
  if negb (typeof val =? "number") then
    match isNotInteger val id with
    | None => None
    | Some true => Some bad
    | Some false => Some range
    end
  else Some range.

End Host.

End Validators.

(** ** lib/validate.js *)

Module Validate.
Import Js Errors Contract.

(** [opts.after]: one function or an array of them. *)
Inductive after_decl : Type :=
| AfterFn (f : after_fn)
| AfterArray (fs : list after_fn).

(** The [opts] of [validateParams]; an absent property is [None]. *)
Record schema : Type := mkSchema {
  strict : option bool;
  required : option (list (string * validator));
  optional : option (list (string * validator));
  after : option after_decl
}.

(** An element of [toValidate]. *)
Module Task.
Record t : Type := mk { field : string; fn : validator; val : value }.
End Task.

(** What a call does that its caller can see, in order.  [Throws]: an
    exception leaves the engine; the call is over and its callback will not
    be invoked. *)
Inductive event : Type :=
| Validate (field : string)
| Unknowns
| After (i : nat)
| Callback (err : option failure) (validated : option object)
| Throws.

(** The state of the [filter] callback of [errResult]. *)
Record scan : Type := mkScan {
  invalid : bool;
  realErrs : list error;
  kept : list error
}.

(** [e.hasOwnProperty('code') && e.code !== 'MissingParameter'] *)
Definition other_code (e : error) : bool :=
  match code e with
  | Some c => negb (c =? "MissingParameter")
  | None => false
  end.

Definition filter_step (sc : scan) (e : error) : scan :=
  match field e with
  | None =>
      {| invalid := invalid sc; realErrs := realErrs sc ++ [e]; kept := kept sc |}
  | Some _ =>
      let invalid' :=
        if negb (invalid sc) && other_code e then true else invalid sc in
      {| invalid := invalid'; realErrs := realErrs sc; kept := kept sc ++ [e] |}
  end.

(** The primitive a [field] is compared as: an array is joined by commas. *)
Definition ToPrimitive (f : fieldval) : string :=
  match f with
  | FStr s => s
  | FArr names => join "," names
  end.

(** [a.field > b.field] *)
Definition field_gt (a b : error) : bool :=
  match field a, field b with
  | Some x, Some y => str_gt (ToPrimitive x) (ToPrimitive y)
  | _, _ => false
  end.

(** [function (a, b) { return (a.field > b.field) ? 1 : -1; }] *)
Definition by_field (a b : error) : Z :=
  if field_gt a b then 1%Z else (-1)%Z.

(** Calls callback with the appropriate error depending on the contents of
    errs. *)
Definition errResult (errs : list error) (validated : object) : list event :=
  if negb (List.length errs =? 0)%nat then
    let sc := fold_left filter_step errs
                {| invalid := false; realErrs := []; kept := [] |} in
    let sortedErrs := sort by_field (kept sc) in
    if negb (List.length (realErrs sc) =? 0)%nat then
      [Callback
         (Some (restify_InternalError
                  match realErrs sc with
                  | [e] => Cause e
                  | es => MultiError es
                  end
                  "Internal error"))
         None]
    else
      [Callback
         (Some (InvalidParamsError
                  (if invalid sc then Constants.msg.INVALID_PARAMS
                   else "Missing parameters")
                  sortedErrs))
         None]
  else [Callback None (Some validated)].

(** [m && m.hasOwnProperty(field)], where [m] is [opts.required] or
    [opts.optional]: [None] when the call throws. *)
Definition declares (m : option (list (string * validator))) (field : string)
  : option bool :=
  match m with
  | Some fields => own fields field
  | None => Some false
  end.

(** One round of the loop of [validateUnknowns] over the keys of [params];
    [None] once a call of [hasOwnProperty] has thrown. *)
Definition scan_unknown (params : object)
    (req opt : option (list (string * validator)))
    (unknowns : option (list string)) (field : string) : option (list string) :=
  match unknowns with
  | None => None
  | Some unknowns =>
      match own params field with
      | None => None
      | Some false => Some unknowns
      | Some true =>
          match declares req field with
          | None => None
          | Some true => Some unknowns
          | Some false =>
              match declares opt field with
              | None => None
              | Some true => Some unknowns
              | Some false => Some (unknowns ++ [field])
              end
          end
      end
  end.

(** Check for any unknown parameters if strict mode is engaged.  [None]:
    the check throws; [Some None]: it returns [null]. *)
Definition validateUnknowns (params : object)
    (req opt : option (list (string * validator))) : option (option error) :=
  match fold_left (scan_unknown params req opt) (keys params) (Some []) with
  | None => None
  | Some unknowns =>
      if (List.length unknowns =? 0)%nat then Some None
      else Some (Some (unknownParams unknowns None))
  end.

(** The lists a pass accumulates. *)
Record pass : Type := mkPass {
  errs : list error;
  validatedParams : object
}.

(** [params[field]] *)
Definition prop (params : object) (field : string) : value :=
  match get params field with Some v => v | None => VUndefined end.

(** One round of the loop over [opts.required]; [None] once
    [params.hasOwnProperty(field)] has thrown. *)
Definition scan_required (params : object)
    (acc : option (list Task.t * list error)) (entry : string * validator)
  : option (list Task.t * list error) :=
  match acc with
  | None => None
  | Some (toValidate, errs) =>
      let '(field, fn) := entry in
      match own params field with
      | None => None
      | Some true =>
          Some (toValidate ++ [Task.mk field fn (prop params field)], errs)
      | Some false => Some (toValidate, errs ++ [missingParam field None])
      end
  end.

(** One round of the loop over [opts.optional]. *)
Definition scan_optional (params : object)
    (acc : option (list Task.t * list error)) (entry : string * validator)
  : option (list Task.t * list error) :=
  match acc with
  | None => None
  | Some (toValidate, errs) =>
      let '(field, fn) := entry in
      match own params field with
      | None => None
      | Some true =>
          Some (toValidate ++ [Task.mk field fn (prop params field)], errs)
      | Some false => Some (toValidate, errs)
      end
  end.

(** The two loops that fill [toValidate] and [errs] from the declared
    fields; [None] when they throw. *)
Definition gather (opts : schema) (params : object)
  : option (list Task.t * list error) :=
  let required_done :=
    match required opts with
    | Some req => fold_left (scan_required params) req (Some ([], []))
    | None => Some ([], [])
    end in
  match optional opts with
  | Some opt => fold_left (scan_optional params) opt required_done
  | None => required_done
  end.

(** [_callValidateFn]: the validator of [val] is called, and the callback
    it is handed runs on what it reports.  When the validator throws, that
    callback never runs. *)
Definition _callValidateFn (arg : value) (st : pass) (val : Task.t) : pass :=
  match Task.fn val arg (Task.field val) (Task.val val) with
  | None => st
  | Some r =>
      let errs' :=
        match err r with
        | Some e => errs st ++ [e]
        | None => errs st
        end in
      let validatedParams' :=
        if negb (typeof (validated r) =? "undefined")
        then set (validatedParams st) (Task.field val) (validated r)
        else validatedParams st in
      let validatedParams'' :=
        if negb (typeof (multi r) =? "undefined") && (typeof (multi r) =? "object")
        then fold_left (fun o kv => set o (fst kv) (snd kv)) (for_in (multi r))
               validatedParams'
        else validatedParams' in
      {| errs := errs'; validatedParams := validatedParams'' |}
  end.

(** [forEachParallel] calls [func] on the inputs in turn.  When the
    validator of one of them throws, the exception ends the loop and the
    call: the inputs [func] was called on, that one being the last.
    [None]: no validator throws. *)
Fixpoint thrown_at (arg : value) (toValidate : list Task.t)
  : option (list Task.t) :=
  match toValidate with
  | [] => None
  | val :: rest =>
      match Task.fn val arg (Task.field val) (Task.val val) with
      | None => Some [val]
      | Some _ =>
          match thrown_at arg rest with
          | Some called => Some (val :: called)
          | None => None
          end
      end
  end.

(** One after function of [crossValidate]. *)
Definition _validate (arg raw : value) (validated : object)
    (acc : list error * list event) (func : nat * after_fn)
  : list error * list event :=
  let '(errs, events) := acc in
  let errs' :=
    match snd func arg raw validated with
    | NoError => errs
    | OneError e => errs ++ [e]
    | ErrorArray es => errs ++ es
    end in
  (errs', events ++ [After (fst func)]).

(** Calls the after functions in turn, then reports. *)
Definition crossValidate (errs : list error) (arg raw : value)
    (validated : object) (afterFuncs : list after_fn) : list event :=
  let '(errs', events) :=
    fold_left (_validate arg raw validated)
      (combine (seq 0 (List.length afterFuncs)) afterFuncs) (errs, []) in
  events ++ errResult errs' validated.

(** The order in which the validators of a pass complete. *)
Record schedule : Type := mkSchedule {
  order : list Task.t -> list Task.t;
  order_perm : forall l, Permutation (order l) l
}.

(** A call of the engine: its events, and the two objects it was given as
    it leaves them. *)
Record run : Type := mkRun {
  trace : list event;
  opts' : schema;
  params' : value
}.

(** [opts.after] once [if (!Array.isArray(opts.after)) opts.after =
    [opts.after]] has run. *)
Definition as_array (decl : after_decl) : list after_fn :=
  match decl with
  | AfterFn f => [f]
  | AfterArray fs => fs
  end.

(** The function [forEachParallel] calls when every validator is done. *)
Definition after_all (opts : schema) (arg params : value) (st : pass) : run :=
  let checked :=
    match strict opts with
    | Some true =>
        match validateUnknowns (props_of params) (required opts) (optional opts) with
        | Some (Some err) => Some (errs st ++ [err], [Unknowns])
        | Some None => Some (errs st, [Unknowns])
        | None => None
        end
    | _ => Some (errs st, [])
    end in
  match checked with
  | None => {| trace := [Unknowns; Throws]; opts' := opts; params' := params |}
  | Some (errs, events) =>
      match after opts with
      | Some decl =>
          if (List.length errs =? 0)%nat then
            let afterFuncs := as_array decl in
            {| trace := events ++ crossValidate errs arg params (validatedParams st) afterFuncs;
               opts' := {| strict := strict opts;
                           required := required opts;
                           optional := optional opts;
                           after := Some (AfterArray afterFuncs) |};
               params' := params |}
          else
            {| trace := events ++ errResult errs (validatedParams st);
               opts' := opts; params' := params |}
      | None =>
          {| trace := events ++ errResult errs (validatedParams st);
             opts' := opts; params' := params |}
      end
  end.

(** [!params || typeof (params) !== 'object' || Array.isArray(params)] *)
Definition not_an_object (params : value) : bool :=
  negb (truthy params) || negb (typeof params =? "object") || isArray params.

(** Validate parameters on an object. *)
Definition validateParams (s : schedule) (opts : schema) (arg params : value)
  : run :=
  if not_an_object params then
    let errs := [invalidParam "parameters"
                   (Some Constants.msg.PARAMETERS_ARE_OBJECTS)] in
    {| trace := errResult errs []; opts' := opts; params' := params |}
  else
    match gather opts (props_of params) with
    | None => {| trace := [Throws]; opts' := opts; params' := params |}
    | Some (toValidate, errs) =>
        match thrown_at arg toValidate with
        | Some called =>
            {| trace := map (fun t => Validate (Task.field t)) called ++ [Throws];
               opts' := opts; params' := params |}
        | None =>
            let st := fold_left (_callValidateFn arg) (order s toValidate)
                        {| errs := errs; validatedParams := [] |} in
            let r := after_all opts arg params st in
            {| trace := map (fun t => Validate (Task.field t)) toValidate ++ trace r;
               opts' := opts' r; params' := params' r |}
        end
    end.

(** Validators complete in the order they were dispatched. *)
Definition in_order : schedule :=
  {| order := fun l => l; order_perm := fun l => Permutation_refl l |}.

(** Validators complete in the reverse of that order. *)
Definition reversed : schedule :=
  {| order := fun l => rev l; order_perm := fun l => Permutation_sym (Permutation_rev l) |}.

End Validate.

(** ** lib/validators.js, the other stock validators *)

Module Stock.
Import Js Errors Contract.

(** [constants.msg.X] for the names that [MESSAGES] does not hold: the
    property is undefined, and [invalidParam] falls back on its default. *)
Definition STR_EMPTY : option string := None.
Definition UUID_WILDCARD : option string := None.
Definition UUID_PREF : option string := None.
Definition UUID_PREF_CHAR : option string := None.

(** [[a-f0-9]] *)
Definition is_hex (c : ascii) : bool :=
  let n := nat_of_ascii c in
  ((48 <=? n) && (n <=? 57) || (97 <=? n) && (n <=? 102))%nat.

(** [[a-f0-9]{n}] at the head of [s]: what follows it. *)
Fixpoint hex_run (n : nat) (s : string) : option string :=
  match n with
  | O => Some s
  | S n' =>
      match s with
      | String c s' => if is_hex c then hex_run n' s' else None
      | EmptyString => None
      end
  end.

(** [-] at the head of [s]: what follows it. *)
Definition dash (s : string) : option string :=
  match s with
  | String c s' => if Ascii.eqb c "-" then Some s' else None
  | EmptyString => None
  end.

Definition and_then (o : option string) (f : string -> option string)
  : option string :=
  match o with Some s => f s | None => None end.

(** [/^[a-f0-9]{8}-[a-f0-9]{4}-[a-f0-9]{4}-[a-f0-9]{4}-[a-f0-9]{12}$/] on a
    string. *)
Definition UUID_RE (s : string) : bool :=
  match and_then (and_then (and_then (and_then (and_then (and_then (and_then
          (and_then (hex_run 8 s) dash) (hex_run 4)) dash) (hex_run 4)) dash)
          (hex_run 4)) dash) (hex_run 12) with
  | Some rest => rest =? ""
  | None => false
  end.

(** The number of occurrences of [c] in [s]. *)
Fixpoint count (c : ascii) (s : string) : nat :=
  match s with
  | String c' s' => (if Ascii.eqb c' c then 1 else 0) + count c s'
  | EmptyString => 0
  end.

(** [s.slice(-1) === c] *)
Fixpoint ends_with (c : ascii) (s : string) : bool :=
  match s with
  | EmptyString => false
  | String c' EmptyString => Ascii.eqb c' c
  | String _ s' => ends_with c s'
  end.

(** [[0-9a-f*-]] *)
Definition is_prefix_char (c : ascii) : bool :=
  is_hex c || Ascii.eqb c "*" || Ascii.eqb c "-".

Fixpoint all_chars (p : ascii -> bool) (s : string) : bool :=
  match s with
  | String c s' => p c && all_chars p s'
  | EmptyString => true
  end.

(** [/^[0-9a-f*-]+$/] *)
Definition PREFIX_RE (s : string) : bool :=
  negb (s =? "") && all_chars is_prefix_char s.

(** [/^[0-9]+$/] *)
Definition is_digit (c : ascii) : bool :=
  let n := nat_of_ascii c in ((48 <=? n) && (n <=? 57))%nat.

Definition DIGITS_RE (s : string) : bool :=
  negb (s =? "") && all_chars is_digit s.

(** [fmt('%d', z)] *)
Definition decimal (z : Z) : string := NilZero.string_of_int (Z.to_int z).

Definition too_long : string :=
  ("must not be longer than " ++ decimal Constants.MAX_STR_LEN ++ " characters")%string.

(** [hash[key] = 1] on an object literal: the key [__proto__] names the
    prototype, and giving it a number leaves the object as it is. *)
Definition mark (hash : object) (key : string) : object :=
  if key =? "__proto__" then hash else set hash key (VNum (of_Z 1)).

(** [a >= b] and [a <= b] on numbers. *)
Definition num_ge (a b : number) : bool :=
  negb (isNaN a) && negb (isNaN b) && negb (num_lt a b).

Definition num_le (a b : number) : bool :=
  negb (isNaN a) && negb (isNaN b) && negb (num_lt b a).

Section Host.

Variable NumberToString : number -> string.

(** [re.test(v)]: the value is turned into a string first. *)
Definition test (re : string -> bool) (v : value) : bool :=
  re (Validators.ToString NumberToString v).

Definition _validateUUID (uuid : value) : bool :=
  if negb (test UUID_RE uuid) then true else false.

(** Validates a UUID. *)
Definition validateUUID (_ : value) (name : string) (uuid : value) : reply :=
  let invalid := _validateUUID uuid in
  if invalid then fail (invalidParam name (Some Constants.msg.INVALID_UUID))
  else ok uuid.

Definition isValidUUID (uuid : value) : bool :=
  if negb (typeof uuid =? "string") || negb (test UUID_RE uuid) then false
  else true.

(** One round of the [forEach] of [validateUUIDarray]. *)
Definition sort_uuid (acc : object * object) (uuid : value) : object * object :=
  let '(invalid, valid) := acc in
  if test UUID_RE uuid
  then (invalid, mark valid (Validators.ToString NumberToString uuid))
  else (mark invalid (Validators.ToString NumberToString uuid), valid).

(** Validates an array of UUIDs. *)
Definition validateUUIDarray (_ : value) (name : string) (val : value)
  : option reply :=
  if negb (isArray val) && negb (typeof val =? "string") then
    Some (fail (invalidParam name (Some Constants.msg.ARRAY_OF_STR)))
  else
    match Common.arrayify val with
    | Some (VArr arr) =>
        let '(invalid, valid) := fold_left sort_uuid arr ([], []) in
        if negb (Common.hashEmpty invalid) then
          let err := invalidParam name (Some "invalid UUID") in
          Some (fail (mkError (field err) (code err) (message err)
                        (Some (sort default_compare (keys invalid)))
                        (extra err)))
        else Some (ok (VArr (map VStr (sort default_compare (keys valid)))))
    | _ => None
    end.

(** Verifies that the query string either contains only 1 [*] character at
    the end of the string, or none at all. *)
Definition validateUUIDPrefix (_ : value) (name : string) (str : value) : reply :=
  match str with
  | VStr s =>
      if (Constants.MAX_STR_LEN <? Z.of_nat (String.length s))%Z then
        fail (invalidParam name (Some too_long))
      else if remove_spaces s =? "" then
        fail (invalidParam name (Some "must not be empty"))
      else
        let nstars := count "*" s in
        if (1 <? nstars)%nat then fail (invalidParam name UUID_WILDCARD)
        else if (0 <? nstars)%nat && negb (ends_with "*" s) then
          fail (invalidParam name UUID_PREF)
        else if (0 <? nstars)%nat && negb (PREFIX_RE s) then
          fail (invalidParam name UUID_PREF_CHAR)
        else if (nstars =? 0)%nat && negb (isValidUUID str) then
          fail (invalidParam "Invalid UUID" None)
        else ok str
  | _ => fail (invalidParam name (Some Constants.msg.STR))
  end.

End Host.

(** Validates a string: ensures it's not empty. *)
Definition validateString (_ : value) (name : string) (str : value) : reply :=
  match str with
  | VStr s =>
      if (Constants.MAX_STR_LEN <? Z.of_nat (String.length s))%Z then
        fail (invalidParam name (Some too_long))
      else if remove_spaces s =? "" then fail (invalidParam name STR_EMPTY)
      else ok str
  | _ => fail (invalidParam name (Some Constants.msg.STR))
  end.

(** The [for] loop of [validateStringArray]: the error of the first element
    that is no string or is blank. *)
Fixpoint first_bad_string (name : string) (vals : list value) : option error :=
  match vals with
  | [] => None
  | v :: vals' =>
      match v with
      | VStr s =>
          if remove_spaces s =? "" then Some (invalidParam name STR_EMPTY)
          else first_bad_string name vals'
      | _ => Some (invalidParam name (Some Constants.msg.ARRAY_OF_STR))
      end
  end.

Definition validateStringArray (_ : value) (name : string) (vals : value) : reply :=
  match vals with
  | VArr items =>
      if (List.length items =? 0)%nat then
        fail (invalidParam name (Some Constants.msg.ARRAY_EMPTY))
      else
        match first_bad_string name items with
        | Some e => fail e
        | None => ok vals
        end
  | _ => fail (invalidParam name (Some Constants.msg.ARRAY_OF_STR))
  end.

(** Validates something is either a string or an array of strings. *)
Definition validateStringOrArray (_ : value) (name : string) (val : value) : reply :=
  let r := validateString VNull name val in
  match err r with
  | Some _ => validateStringArray VNull name val
  | None => ok (validated r)
  end.

(** [fields.indexOf(x) === -1] on strings. *)
Definition not_among (fields : list string) (x : string) : bool :=
  negb (existsb (String.eqb x) fields).

(** The [for] loop of [_validateFieldsArray]. *)
Fixpoint first_bad_field (fields : list string) (name : string)
    (arr : list value) : option error :=
  match arr with
  | [] => None
  | v :: arr' =>
      match v with
      | VStr x =>
          if not_among fields x
          then Some (invalidParam name (Some "unknown field specified"))
          else first_bad_field fields name arr'
      | _ => Some (invalidParam name (Some Constants.msg.ARRAY_OF_STR))
      end
  end.

(** Validates a "fields" array against the list of allowed fields. *)
Definition validateFieldsArray (fields : list string)
  : value -> string -> value -> reply :=
  fun _ name arr =>
    match arr with
    | VArr items =>
        if (List.length items =? 0)%nat then
          fail (invalidParam name (Some Constants.msg.ARRAY_EMPTY))
        else if (List.length fields <? List.length items)%nat then
          fail (invalidParam name
                  (Some ("can only specify a maximum of "
                         ++ index_name (List.length fields) ++ " fields")%string))
        else
          match first_bad_field fields name items with
          | Some e => fail e
          | None => ok arr
          end
    | _ => fail (invalidParam name (Some Constants.msg.ARRAY_OF_STR))
    end.

Definition validateBoolean (_ : value) (name : string) (val : value) : reply :=
  match val with
  | VBool _ => ok val
  | VStr s =>
      if (s =? "true") || (s =? "false") then ok (VBool (s =? "true"))
      else fail (invalidParam name (Some "must be a boolean value"))
  | _ => fail (invalidParam name (Some "must be a boolean value"))
  end.

(** *** Subnets, over the [ip6addr] library *)

Section Ip6addr.

(** An address of the library; [parse], which throws on what is no address
    ([None]); [addr.kind()]; [createCIDR(ip, bits).address()], which may
    throw; [a.compare(b)]. *)
Variable addr : Type.
Variable parse : value -> option addr.
Variable kind : addr -> string.
Variable network : addr -> number -> option addr.
Variable compare : addr -> addr -> Z.
Variable StringToNumber : string -> number.

Definition validIPv4SubnetBits (subnet_start : addr) (subnet_bits : number) : bool :=
  (kind subnet_start =? "ipv4")
  && num_ge subnet_bits (of_Z Constants.SUBNET_MIN_IPV4)
  && num_le subnet_bits (of_Z 32).

Definition validIPv6SubnetBits (subnet_start : addr) (subnet_bits : number) : bool :=
  (kind subnet_start =? "ipv6")
  && num_ge subnet_bits (of_Z Constants.SUBNET_MIN_IPV6)
  && num_le subnet_bits (of_Z 128).

(** A thrown error of [parse] is caught and gives [null]. *)
Definition toIPAddr (a : string) : option addr :=
  if DIGITS_RE a then parse (VNum (StringToNumber a)) else parse (VStr a).

(** [true]: the text is no subnet.  [None]: [createCIDR] threw. *)
Definition _validateSubnet (subnetTxt : value) : option bool :=
  match subnetTxt with
  | VStr s =>
      match split "/" s with
      | [a; b] =>
          match toIPAddr a with
          | None => Some true
          | Some ip =>
              let subnet_bits := StringToNumber b in
              if isNaN subnet_bits
                 || (negb (validIPv4SubnetBits ip subnet_bits)
                     && negb (validIPv6SubnetBits ip subnet_bits))
              then Some true
              else
                match network ip subnet_bits with
                | Some start =>
                    if negb (compare start ip =? 0)%Z then Some true
                    else Some false
                | None => None
                end
          end
      | _ => Some true
      end
  | _ => Some true
  end.

(** One round of the [forEach] of [validateSubnetArray]. *)
Definition scan_subnet (acc : option (list string * list value)) (i : value)
  : option (list string * list value) :=
  match acc, i with
  | Some (errs, sns), VStr s =>
      let sn := replace_first_spaces s in
      match _validateSubnet (VStr sn) with
      | Some true => Some (errs ++ [sn], sns)
      | Some false => Some (errs, sns ++ [VStr sn])
      | None => None
      end
  | _, _ => None
  end.

Definition validateSubnetArray (_ : value) (name : string) (arr : value)
  : option reply :=
  if negb (isArray arr) && negb (typeof arr =? "string") then
    Some (fail (invalidParam name (Some Constants.msg.STR)))
  else
    match Common.arrayify arr with
    | Some (VArr sn_array) =>
        let scanned :=
          if (List.length sn_array =? 0)%nat then Some (["Empty string"], [])
          else fold_left scan_subnet sn_array (Some ([], [])) in
        match scanned with
        | Some (errs, sns) =>
            if negb (List.length errs =? 0)%nat then
              let snErr := invalidParam name (Some Constants.msg.CIDR_SUBNET) in
              Some (fail (mkError (field snErr) (code snErr) (message snErr)
                            (Some (sort default_compare errs)) (extra snErr)))
            else Some (ok (VArr sns))
        | None => None
        end
    | _ => None
    end.

Definition validateSubnet (_ : value) (name : string) (subnet : value)
  : option reply :=
  match _validateSubnet subnet with
  | Some true => Some (fail (invalidParam name (Some Constants.msg.CIDR_SUBNET)))
  | Some false => Some (ok subnet)
  | None => None
  end.

End Ip6addr.

End Stock.

(** ** Reading the engine *)

Module View.
Import Js Errors Contract Validate.

(** The entries of an optional map. *)
Definition opt_list {A : Type} (o : option (list A)) : list A :=
  match o with Some l => l | None => [] end.

(** The tasks of the declared fields that the input holds, and the names of
    the declared fields that it does not hold. *)
Definition present (params : object) (l : list (string * validator))
  : list Task.t :=
  map (fun e => Task.mk (fst e) (snd e) (prop params (fst e)))
    (filter (fun e => hasOwnProperty params (fst e)) l).

Definition absent (params : object) (l : list (string * validator))
  : list string :=
  map fst (filter (fun e => negb (hasOwnProperty params (fst e))) l).

(** What the two loops over the declared fields build when they do not
    throw ([gather_collect] below): the tasks of the required and then of
    the optional fields that the input holds, and one MissingParameter
    element for each required field that it lacks. *)
Definition collect (opts : schema) (params : object)
  : list Task.t * list error :=
  (present params (opt_list (required opts))
   ++ present params (opt_list (optional opts)),
   map (fun f => missingParam f None) (absent params (opt_list (required opts)))).

(** What the validator of a task reports; [None] when it throws. *)
Definition answer (arg : value) (t : Task.t) : option reply :=
  Task.fn t arg (Task.field t) (Task.val t).

(** The lists of a pass once every validator is done. *)
Definition field_stage (s : schedule) (opts : schema) (arg : value)
    (params : object) : pass :=
  fold_left (_callValidateFn arg) (order s (fst (collect opts params)))
    {| errs := snd (collect opts params); validatedParams := [] |}.

(** The invocations of the caller's callback, as [(err, validated)]. *)
Definition callbacks (tr : list event) : list (option failure * option object) :=
  flat_map (fun ev => match ev with
                      | Callback e r => [(e, r)]
                      | _ => []
                      end) tr.

(** The fields whose validator a call invoked, in order. *)
Definition validations (tr : list event) : list string :=
  flat_map (fun ev => match ev with Validate f => [f] | _ => [] end) tr.

(** The after functions a call invoked, in order. *)
Definition after_runs (tr : list event) : list nat :=
  flat_map (fun ev => match ev with After i => [i] | _ => [] end) tr.

(** A field is declared by the schema. *)
Definition declared (opts : schema) (field : string) : bool :=
  hasOwnProperty (opt_list (required opts)) field
  || hasOwnProperty (opt_list (optional opts)) field.

(** The own keys of the input that the schema does not declare. *)
Definition unknown_fields (opts : schema) (params : object) : list string :=
  filter (fun field => negb (declared opts field)) (keys params).

(** What the strict check returns when it does not throw. *)
Definition unknown_error (opts : schema) (params : object) : option error :=
  match unknown_fields opts params with
  | [] => None
  | unknowns => Some (unknownParams unknowns None)
  end.

(** [errs] once the strict check of [after] has run without throwing. *)
Definition checked (opts : schema) (params : value) (errs : list error)
  : list error :=
  match strict opts with
  | Some true =>
      match unknown_error opts (props_of params) with
      | Some err => errs ++ [err]
      | None => errs
      end
  | _ => errs
  end.

(** The event of that check. *)
Definition check_events (opts : schema) : list event :=
  match strict opts with
  | Some true => [Unknowns]
  | _ => []
  end.

(** Nothing throws in a call on the object [params]: neither the loops
    over the declared fields, nor a validator, nor the strict check. *)
Definition runs (opts : schema) (arg : value) (params : object) : Prop :=
  gather opts params <> None
  /\ thrown_at arg (fst (collect opts params)) = None
  /\ (strict opts = Some true ->
      validateUnknowns params (required opts) (optional opts) <> None).

(** Conditions under which nothing throws: the input has no own property
    named [hasOwnProperty]; in strict mode the schema declares no field of
    that name; and the validator of every declared field that the input
    holds returns. *)
Definition quiet (opts : schema) (arg : value) (params : object) : Prop :=
  hasOwnProperty params "hasOwnProperty" = false
  /\ (strict opts = Some true -> declared opts "hasOwnProperty" = false)
  /\ (forall t, In t (fst (collect opts params)) -> answer arg t <> None).

Definition fieldless (e : error) : bool :=
  match field e with None => true | Some _ => false end.

Definition fielded (e : error) : bool := negb (fieldless e).

(** The string a field error is ordered by. *)
Definition field_key (e : error) : string :=
  match field e with
  | Some f => ToPrimitive f
  | None => ""
  end.




(** The errors an after function adds to [errs]. *)
Definition added (r : after_reply) : list error :=
  match r with
  | NoError => []
  | OneError e => [e]
  | ErrorArray es => es
  end.

(** The errors a task adds to [errs] when its validator is done. *)
Definition reported (arg : value) (t : Task.t) : list error :=
  match answer arg t with
  | Some r => match err r with Some e => [e] | None => [] end
  | None => []
  end.

(** The validator that reports what [fn] reports, less the error. *)
Definition without_error (fn : validator) : validator :=
  fun arg name val =>
    match fn arg name val with
    | Some r =>
        Some {| err := None; validated := validated r; multi := multi r |}
    | None => None
    end.

(** [s] holds the character [c]. *)
Fixpoint contains (c : ascii) (s : string) : bool :=
  match s with
  | String c' s' => Ascii.eqb c' c || contains c s'
  | EmptyString => false
  end.

(** [[0-9a-f-]] *)
Definition is_hex_or_dash (c : ascii) : bool :=
  Stock.is_hex c || Ascii.eqb c "-".

(** A step of a pattern consumes [n] characters of [s], all of them hex
    digits or dashes, whenever it matches. *)
Definition consumes (n : nat) (o : option string) (s : string) : Prop :=
  forall rest, o = Some rest ->
    exists pre, s = (pre ++ rest)%string
                /\ Stock.all_chars is_hex_or_dash pre = true
                /\ String.length pre = n.

(** The characters of a string. *)
Fixpoint chars (s : string) : list ascii :=
  match s with
  | String c s' => c :: chars s'
  | EmptyString => []
  end.

(** A number is a rational with no fractional part. *)
Definition integral (n : number) : Prop :=
  match n with
  | Fin q => inject_Z (Qfloor q) == q
  | _ => False
  end.

(** A number is a rational from [lo] on, or +Infinity. *)
Definition at_least (lo : Z) (n : number) : Prop :=
  match n with
  | Fin q => inject_Z lo <= q
  | PosInf => True
  | _ => False
  end.

(** A value is a string that holds more than white space. *)
Definition nonblank (v : value) : bool :=
  match v with
  | VStr s => negb (remove_spaces s =? "")
  | _ => false
  end.

(** A value is one of the strings of a list. *)
Definition among (fields : list string) (v : value) : bool :=
  match v with
  | VStr x => existsb (String.eqb x) fields
  | _ => false
  end.

(** A number is a rational between two integers. *)
Definition between (lo hi : Z) (n : number) : Prop :=
  match n with
  | Fin q => inject_Z lo <= q /\ q <= inject_Z hi
  | _ => False
  end.

End View.

(** ** Sample data *)

Module Sample.
Import Js Errors Contract Validate.

(** An error object with no [field], as a faulty after function reports. *)
Definition my_err_obj : error :=
  mkError None None None None [("my_err_obj", VNum (of_Z 42))].

Definition meo : error :=
  mkError None None None None [("meo", VNum (of_Z 43))].

(** A field error that has no [code]. *)
Definition codeless : error :=
  mkError (Some (FStr "x")) None (Some "no code") None [].

(** A stand-in for [net.isIP]. *)
Definition isIP (v : value) : Z :=
  match v with
  | VStr "8.8.8.8" => 4
  | VStr "4.4.4.4" => 4
  | VStr "::1" => 6
  | _ => 0
  end.

(** The schema of the tests [IP-S-KV] and [IP-S-U]. *)
Definition ip_schema (net_isIP : value -> Z) : schema :=
  {| strict := Some true;
     required := Some [("ip", calls_back (Validators.validateIP net_isIP))];
     optional := None;
     after := None |}.

Definition hal : value := VObj [("hal", VStr "1000")].

(** Two addresses, both required. *)
Definition route_schema : schema :=
  {| strict := Some true;
     required := Some [("src", calls_back (Validators.validateIP isIP));
                       ("dst", calls_back (Validators.validateIP isIP))];
     optional := None;
     after := None |}.

Definition bad_route : value :=
  VObj [("src", VStr "somewhere"); ("dst", VStr "elsewhere")].

(** A validator that reports its failure against the field [range]. *)
Definition range_check (message : string) : validator :=
  fun _ _ _ => Some (fail (invalidParam "range" (Some message))).

Definition range_schema : schema :=
  {| strict := None;
     required := Some [("start", range_check "start is out of range");
                       ("end", range_check "end is out of range")];
     optional := None;
     after := None |}.

Definition range_input : value :=
  VObj [("start", VStr "7"); ("end", VStr "3")].

(** A validator that reports an error and a value at once. *)
Definition both : validator :=
  fun _ name val =>
    Some {| err := Some (invalidParam name None);
            validated := val; multi := VUndefined |}.

Definition both_schema : schema :=
  {| strict := None;
     required := Some [("ip", both)];
     optional := None;
     after := None |}.

(** The validator of the test [GEN-S-MULTI]. *)
Definition foo_bar : validator :=
  fun _ _ foo =>
    Some {| err := None; validated := VNull;
            multi := VObj [("foo", foo); ("bar", VStr "bar")] |}.

Definition multi_schema : schema :=
  {| strict := Some true;
     required := Some [("foo", foo_bar)];
     optional := None;
     after := None |}.

(** The schemas of the tests [IParray-S-KV-array-after] and
    [IParray-S-KV-array-after2], whose after stage reports error objects
    without a [field]. *)
Definition faulty_schema (r : after_reply) : schema :=
  {| strict := Some true;
     required := Some [("ip", Validators.validateIParray isIP)];
     optional := None;
     after := Some (AfterFn (fun _ _ _ => r)) |}.

(** A stand-in for [ip6addr]: one address, [10.0.0.0], of kind ipv4, that is
    its own network address; and for [Number] on the strings used here. *)
Definition parse (v : value) : option string :=
  match v with
  | VStr "10.0.0.0" => Some "10.0.0.0"
  | _ => None
  end.

Definition kind (a : string) : string := "ipv4".

Definition network (a : string) (bits : number) : option string := Some a.

Definition compare (a b : string) : Z := if a =? b then 0%Z else 1%Z.

Definition to_number (s : string) : number :=
  match s with
  | "5" => of_Z 5
  | "8" => of_Z 8
  | _ => NaN
  end.

(** A schema whose [after] is one function. *)
Definition no_op : after_fn := fun _ _ _ => NoError.

Definition after_schema : schema :=
  {| strict := Some true;
     required := None;
     optional := None;
     after := Some (AfterFn no_op) |}.

(** A stand-in for [String] on numbers. *)
Definition to_string (n : number) : string := "0".

(** A schema that requires a limit, checked by the stock validator, which
    asserts that a value that is no number is a string. *)
Definition limit_schema (strict : option bool) : schema :=
  {| strict := strict;
     required := Some [("limit", Validators.validateLimit to_number to_string)];
     optional := None;
     after := None |}.

(** An input with an own property named [hasOwnProperty]. *)
Definition shadowing : value :=
  VObj [("hasOwnProperty", VStr "x"); ("ip", VStr "8.8.8.8")].

(** A schema that declares no field. *)
Definition bare_schema (strict : option bool) : schema :=
  {| strict := strict; required := None; optional := None; after := None |}.

(** A fieldless error object with a message of its own. *)
Definition boom : error :=
  mkError None None (Some "boom") None [].

End Sample.

(** ** Orders on the elements of an array *)

Section Orders.

Context {A : Type} (comparefn : A -> A -> Z) (key : A -> string).

(** The comparison function moves [a] past [b] exactly when the key of [a]
    is the greater string. *)
Definition keyed (l : list A) : Prop :=
  forall a b, In a l -> In b l ->
    (comparefn a b >? 0)%Z = Js.str_gt (key a) (key b).

Definition ascending (a b : A) : Prop := String.leb (key a) (key b) = true.
Definition descending (a b : A) : Prop := String.leb (key b) (key a) = true.

End Orders.

(** * Properties *)

Import Js Errors Contract Validate View.

(** ** The order on strings *)

Section StringOrder.

Lemma ascii_compare_refl (a : ascii) : Ascii.compare a a = Eq.
Proof. unfold Ascii.compare. apply N.compare_refl. Qed.

Lemma ascii_compare_lt_trans (a b c : ascii) :
  Ascii.compare a b = Lt -> Ascii.compare b c = Lt -> Ascii.compare a c = Lt.
Proof.
  unfold Ascii.compare. rewrite !N.compare_lt_iff. apply N.lt_trans.
Qed.

Lemma string_compare_refl (s : string) : String.compare s s = Eq.
Proof.
  induction s as [|a s IH]; simpl; [reflexivity|].
  now rewrite ascii_compare_refl.
Qed.

Lemma string_leb_trans (a b c : string) :
  String.leb a b = true -> String.leb b c = true -> String.leb a c = true.
Proof.
  unfold String.leb. revert b c.
  induction a as [|x a IH]; intros [|y b] [|z c]; simpl; try easy.
  destruct (Ascii.compare x y) eqn:Hxy; try easy;
    destruct (Ascii.compare y z) eqn:Hyz; try easy.
  - apply Ascii.compare_eq_iff in Hxy, Hyz. subst.
    rewrite ascii_compare_refl. apply IH.
  - apply Ascii.compare_eq_iff in Hxy. subst. now rewrite Hyz.
  - apply Ascii.compare_eq_iff in Hyz. subst. now rewrite Hxy.
  - now rewrite (ascii_compare_lt_trans _ _ _ Hxy Hyz).
Qed.

Lemma str_gt_false_leb (a b : string) :
  str_gt a b = false <-> String.leb a b = true.
Proof.
  unfold str_gt, String.ltb, String.leb.
  rewrite (String.compare_antisym b a).
  destruct (String.compare a b); simpl; split; congruence.
Qed.

Lemma str_gt_true_leb (a b : string) :
  str_gt a b = true -> String.leb b a = true.
Proof.
  unfold str_gt, String.ltb, String.leb.
  destruct (String.compare b a); congruence.
Qed.

End StringOrder.

(** ** The host sort *)

Section Sorting.

Context {A : Type} (comparefn : A -> A -> Z) (key : A -> string).

Local Abbreviation keyed := (keyed comparefn key).
Local Abbreviation ascending := (ascending key).
Local Abbreviation descending := (descending key).

Lemma insert_back_perm (x : A) (l : list A) :
  Permutation (insert_back comparefn x l) (x :: l).
Proof.
  induction l as [|t l IH]; simpl; [reflexivity|].
  destruct (comparefn t x >? 0)%Z; [|reflexivity].
  rewrite IH. apply perm_swap.
Qed.

Lemma fold_insert_perm (l acc : list A) :
  Permutation
    (fold_left (fun prefix element => insert_back comparefn element prefix) l acc)
    (l ++ acc).
Proof.
  revert acc. induction l as [|x l IH]; intros acc; simpl; [reflexivity|].
  rewrite IH, insert_back_perm. symmetry. apply Permutation_middle.
Qed.

Lemma sort_perm (l : list A) : Permutation (sort comparefn l) l.
Proof.
  unfold sort. rewrite <- Permutation_rev, fold_insert_perm.
  now rewrite app_nil_r.
Qed.

Lemma insert_back_sorted (x : A) (l : list A) :
  keyed (x :: l) ->
  StronglySorted descending l ->
  StronglySorted descending (insert_back comparefn x l).
Proof.
  intros Hk Hs. induction Hs as [|t l Hs IH Hall]; simpl.
  - repeat constructor.
  - assert (Hk' : keyed (x :: l)).
    { intros a b Ha Hb. apply Hk; simpl in *; tauto. }
    rewrite (Hk t x) by (simpl; tauto).
    destruct (str_gt (key t) (key x)) eqn:Hgt.
    + constructor; [now apply IH|].
      eapply Permutation_Forall.
      { symmetry. apply insert_back_perm. }
      constructor; [|exact Hall].
      now apply str_gt_true_leb.
    + apply str_gt_false_leb in Hgt.
      constructor; [now constructor|].
      constructor; [exact Hgt|].
      eapply Forall_impl; [|exact Hall].
      intros b Hb. unfold descending in *.
      eapply string_leb_trans; eassumption.
Qed.

Lemma keyed_incl (l l' : list A) : incl l' l -> keyed l -> keyed l'.
Proof. intros Hi Hk a b Ha Hb. apply Hk; now apply Hi. Qed.

Lemma fold_insert_sorted (l acc : list A) :
  keyed (l ++ acc) ->
  StronglySorted descending acc ->
  StronglySorted descending
    (fold_left (fun prefix element => insert_back comparefn element prefix) l acc).
Proof.
  revert acc. induction l as [|x l IH]; intros acc Hk Hs; simpl; [exact Hs|].
  apply IH.
  - eapply keyed_incl; [|exact Hk].
    intros a Ha. apply in_app_or in Ha. destruct Ha as [Ha|Ha].
    + simpl. right. apply in_or_app. now left.
    + apply (Permutation_in _ (insert_back_perm x acc)) in Ha.
      destruct Ha as [<-|Ha]; [now left|].
      simpl. right. apply in_or_app. now right.
  - apply insert_back_sorted; [|exact Hs].
    eapply keyed_incl; [|exact Hk].
    intros a [<-|Ha]; [now left|].
    simpl. right. apply in_or_app. now right.
Qed.

Lemma sorted_snoc (R : A -> A -> Prop) (l : list A) (a : A) :
  StronglySorted R l -> Forall (fun b => R b a) l ->
  StronglySorted R (l ++ [a]).
Proof.
  induction 1 as [|b l Hs IH Hall]; intros Hf; simpl.
  - repeat constructor.
  - inversion Hf; subst. constructor; [now apply IH|].
    apply Forall_app. split; [exact Hall|]. now constructor.
Qed.

Lemma sorted_rev (l : list A) :
  StronglySorted descending l -> StronglySorted ascending (rev l).
Proof.
  induction 1 as [|a l Hs IH Hall]; simpl; [constructor|].
  apply sorted_snoc; [exact IH|].
  apply Forall_rev. exact Hall.
Qed.

Lemma sort_sorted (l : list A) :
  keyed l -> StronglySorted ascending (sort comparefn l).
Proof.
  intros Hk. unfold sort. apply sorted_rev, fold_insert_sorted.
  - now rewrite app_nil_r.
  - constructor.
Qed.

(** Two ascending arrangements of the same elements coincide when no two
    elements share a key. *)
Lemma sorted_perm_eq (l1 l2 : list A) :
  StronglySorted ascending l1 -> StronglySorted ascending l2 ->
  Permutation l1 l2 -> NoDup (map key l1) -> l1 = l2.
Proof.
  intros Hs1. revert l2.
  induction Hs1 as [|a l1 Hs1 IH Ha]; intros l2 Hs2 Hp Hnd.
  - now apply Permutation_nil in Hp.
  - destruct Hs2 as [|b l2 Hs2 Hb].
    + symmetry in Hp. now apply Permutation_nil in Hp.
    + assert (Hab : a = b).
      { assert (Hin_a : In a (b :: l2)) by (eapply Permutation_in; [exact Hp|now left]).
        assert (Hin_b : In b (a :: l1)).
        { eapply Permutation_in; [symmetry; exact Hp|now left]. }
        destruct Hin_a as [->|Hin_a]; [reflexivity|].
        destruct Hin_b as [->|Hin_b]; [reflexivity|].
        rewrite Forall_forall in Ha, Hb.
        assert (key a = key b).
        { apply String.leb_antisym; [now apply Ha|now apply Hb]. }
        inversion Hnd as [|? ? Hnot _]; subst.
        exfalso. apply Hnot. rewrite H. now apply in_map. }
      subst b. f_equal. apply IH.
      * exact Hs2.
      * now apply Permutation_cons_inv in Hp.
      * now inversion Hnd.
Qed.

End Sorting.

(** ** The error aggregator *)

Section Aggregator.

Lemma scan_fold (errs : list error) (sc : scan) :
  realErrs (fold_left filter_step errs sc) = realErrs sc ++ filter fieldless errs
  /\ kept (fold_left filter_step errs sc) = kept sc ++ filter fielded errs
  /\ invalid (fold_left filter_step errs sc)
     = invalid sc || existsb (fun e => fielded e && other_code e) errs.
Proof.
  revert sc. induction errs as [|e errs IH]; intros sc; simpl.
  - now rewrite !app_nil_r, orb_false_r.
  - destruct (IH (filter_step sc e)) as (Hr & Hk & Hi).
    rewrite Hr, Hk, Hi. clear.
    unfold filter_step, fielded, fieldless.
    destruct (field e); simpl.
    + rewrite <- app_assoc. repeat split.
      destruct (invalid sc), (other_code e); reflexivity.
    + rewrite <- app_assoc. repeat split.
Qed.

(** [errResult] by cases on what [errs] holds. *)
Lemma errResult_cases (errs : list error) (validated : object) :
  errResult errs validated =
  match errs with
  | [] => [Callback None (Some validated)]
  | _ :: _ =>
      match filter fieldless errs with
      | [] =>
          [Callback
             (Some (InvalidParamsError
                      (if existsb (fun e => fielded e && other_code e) errs
                       then Constants.msg.INVALID_PARAMS
                       else "Missing parameters")
                      (sort by_field (filter fielded errs))))
             None]
      | [e] =>
          [Callback
             (Some (InternalError None (or_default (message e) "Internal error")))
             None]
      | es => [Callback (Some (InternalError (Some es) "Internal error")) None]
      end
  end.
Proof.
  unfold errResult. destruct errs as [|e0 errs]; [reflexivity|].
  cbn [List.length Nat.eqb negb].
  destruct (scan_fold (e0 :: errs) {| invalid := false; realErrs := []; kept := [] |})
    as (Hr & Hk & Hi).
  cbn [realErrs kept invalid app orb] in Hr, Hk, Hi.
  rewrite Hr, Hk, Hi.
  destruct (filter fieldless (e0 :: errs)) as [|e1 [|e2 es]]; reflexivity.
Qed.

Lemma filter_fieldless_nil (errs : list error) :
  filter fieldless errs = [] <-> Forall (fun e => fieldless e = false) errs.
Proof.
  induction errs as [|e errs IH]; simpl.
  - split; constructor.
  - destruct (fieldless e) eqn:He; split; intros H.
    + discriminate.
    + inversion H; congruence.
    + constructor; [exact He|now apply IH].
    + inversion H. now apply IH.
Qed.

Lemma filter_fielded_all (errs : list error) :
  Forall (fun e => fieldless e = false) errs -> filter fielded errs = errs.
Proof.
  induction 1 as [|e errs He _ IH]; simpl; [reflexivity|].
  unfold fielded at 1. rewrite He. simpl. now rewrite IH.
Qed.

End Aggregator.

Section Outcomes.

Lemma by_field_keyed (l : list error) :
  Forall (fun e => fieldless e = false) l -> keyed by_field field_key l.
Proof.
  intros Hall a b Ha Hb. rewrite Forall_forall in Hall.
  pose proof (Hall a Ha) as Fa. pose proof (Hall b Hb) as Fb.
  unfold by_field, field_gt, field_key, fieldless in *.
  destruct (field a); [|discriminate]. destruct (field b); [|discriminate].
  now destruct (str_gt _ _).
Qed.

Lemma field_gt_ascending (a b : error) :
  ascending field_key a b -> field_gt a b = false.
Proof.
  unfold ascending, field_gt, field_key. intros H.
  destruct (field a); [|reflexivity]. destruct (field b); [|reflexivity].
  now apply str_gt_false_leb.
Qed.

Lemma sorted_by_field (l : list error) :
  StronglySorted (ascending field_key) l ->
  StronglySorted (fun a b => field_gt a b = false) l.
Proof.
  induction 1 as [|a l Hs IH Hall]; constructor; [exact IH|].
  eapply Forall_impl; [|exact Hall]. intros b. apply field_gt_ascending.
Qed.

Lemma Exists_fieldless (errs : list error) :
  Exists (fun e => field e = None) errs -> filter fieldless errs <> [].
Proof.
  intros H. apply Exists_exists in H. destruct H as (e & Hin & He).
  assert (Hf : In e (filter fieldless errs)).
  { apply filter_In. split; [exact Hin|]. unfold fieldless. now rewrite He. }
  intros Hnil. now rewrite Hnil in Hf.
Qed.

Lemma filter_fieldless_all (errs : list error) :
  Forall (fun e => field e = None) (filter fieldless errs).
Proof.
  apply Forall_forall. intros e He. apply filter_In in He.
  destruct He as [_ He]. unfold fieldless in He.
  now destruct (field e).
Qed.

End Outcomes.

(** C2, as the code has it: when the accumulated error list holds at least
    one error object without a [field] property, the call ends in an
    internal failure and every field error is dropped, the outcome being
    that of the fieldless errors alone.  With two or more fieldless errors
    the cause of the failure is a [MultiError] of all of them, in order.
    With exactly one, a plain object that [restify.InternalError] reads as
    its options, the failure has no cause, and its message is the message of
    that object when it has one and 'Internal error' otherwise. *)
Theorem internal_errors_take_precedence
    (errs : list error) (validated : object) :
  Exists (fun e => field e = None) errs ->
  exists we_cause message,
    errResult errs validated
    = [Callback (Some (InternalError we_cause message)) None]
    /\ ((2 <= List.length (filter fieldless errs))%nat ->
        we_cause = Some (filter fieldless errs) /\ message = "Internal error")
    /\ (forall e, filter fieldless errs = [e] ->
        we_cause = None
        /\ message = match Errors.message e with
                     | Some m => if m =? "" then "Internal error" else m
                     | None => "Internal error"
                     end)
    /\ Forall (fun e => field e = None) (filter fieldless errs)
    /\ (forall (errs' : list error) (validated' : object),
          filter fieldless errs' = filter fieldless errs ->
          errResult errs' validated' = errResult errs validated).
Proof.
  intros Hex. pose proof (Exists_fieldless _ Hex) as Hne.
  pose proof (filter_fieldless_all errs) as Hall.
  assert (Hdep : forall (errs' : list error) (validated' : object),
             filter fieldless errs' = filter fieldless errs ->
             errResult errs' validated' = errResult errs validated).
  { intros errs' validated' Heq. rewrite !errResult_cases, Heq.
    destruct errs as [|e0 errs]; [inversion Hex|].
    destruct errs' as [|e0' errs'].
    { exfalso. apply Hne. symmetry. exact Heq. }
    destruct (filter fieldless (e0 :: errs)) as [|e1 [|e2 es]];
      [congruence|reflexivity|reflexivity]. }
  pose proof (errResult_cases errs validated) as Hc.
  destruct errs as [|e0 errs]; [inversion Hex|].
  destruct (filter fieldless (e0 :: errs)) as [|e1 [|e2 es]] eqn:Hf.
  - congruence.
  - exists None, (or_default (Errors.message e1) "Internal error").
    split; [exact Hc|]. split; [simpl; lia|]. split; [|split; assumption].
    intros e [= <-]. split; reflexivity.
  - exists (Some (e1 :: e2 :: es)), "Internal error".
    split; [exact Hc|]. split; [intros _; split; reflexivity|].
    split; [|split; assumption].
    intros e He. discriminate.
Qed.

Lemma internal_errors_take_precedence_witness :
  Exists (fun e => field e = None)
    [missingParam "ip" None; Sample.my_err_obj; invalidParam "x" None; Sample.meo]
  /\ errResult
       [missingParam "ip" None; Sample.my_err_obj; invalidParam "x" None; Sample.meo]
       []
     = [Callback
          (Some (InternalError (Some [Sample.my_err_obj; Sample.meo])
                   "Internal error"))
          None].
Proof.
  assert (H : Exists (fun e => field e = None)
                [missingParam "ip" None; Sample.my_err_obj;
                 invalidParam "x" None; Sample.meo]).
  { apply Exists_cons_tl, Exists_cons_hd. reflexivity. }
  split; [exact H|].
  destruct (internal_errors_take_precedence _ [] H) as (c & m & Hc & Hm & _).
  destruct Hm as [-> ->]; [simpl; lia|]. exact Hc.
Defined.

(** C2, as stated, fails: the internal failure built on a single fieldless
    error does not wrap it.  The failure holds no cause, and two different
    errors give the same failure; a message of the error's own replaces
    'Internal error'. *)
Lemma single_internal_error_is_not_wrapped :
  errResult [Sample.my_err_obj] []
  = [Callback (Some (InternalError None "Internal error")) None]
  /\ errResult [Sample.meo] [] = errResult [Sample.my_err_obj] []
  /\ Sample.meo <> Sample.my_err_obj
  /\ errResult [Sample.boom] []
     = [Callback (Some (InternalError None "boom")) None].
Proof.
  split; [reflexivity|]. split; [reflexivity|]. split; [discriminate|reflexivity].
Qed.

(** C3: for a non-empty accumulated error list made of field errors only,
    the failure carries 'Missing parameters' when the code of every error is
    exactly 'MissingParameter', and the generic invalid-parameters message
    as soon as one error has another code, missing-parameter errors being
    present or not. *)
Theorem missing_or_invalid_message (errs : list error) (validated : object) :
  errs <> [] ->
  Forall (fun e => field e <> None) errs ->
  exists message errors,
    errResult errs validated
    = [Callback (Some (InvalidParamsError message errors)) None]
    /\ (Forall (fun e => code e = Some "MissingParameter") errs ->
        message = "Missing parameters")
    /\ (Exists (fun e => exists c, code e = Some c /\ c <> "MissingParameter") errs ->
        message = Constants.msg.INVALID_PARAMS).
Proof.
  intros Hne Hall.
  assert (Hf : Forall (fun e => fieldless e = false) errs).
  { eapply Forall_impl; [|exact Hall]. intros e He. cbv beta in He.
    unfold fieldless. destruct (field e); [reflexivity|congruence]. }
  rewrite errResult_cases.
  destruct errs as [|e0 errs]; [congruence|].
  apply filter_fieldless_nil in Hf as Hnil. rewrite Hnil.
  eexists. eexists. split; [reflexivity|]. split.
  - intros Hmiss.
    destruct (existsb _ (e0 :: errs)) eqn:Hex; [|reflexivity].
    apply existsb_exists in Hex. destruct Hex as (e & Hin & He).
    rewrite Forall_forall in Hmiss. specialize (Hmiss e Hin).
    apply andb_prop in He. destruct He as [_ He].
    unfold other_code in He. rewrite Hmiss in He. discriminate.
  - intros Hother. apply Exists_exists in Hother.
    destruct Hother as (e & Hin & c & Hc & Hneq).
    assert (Hex : existsb (fun e => fielded e && other_code e) (e0 :: errs) = true).
    { apply existsb_exists. exists e. split; [exact Hin|].
      rewrite Forall_forall in Hf. unfold fielded. rewrite (Hf e Hin).
      unfold other_code. rewrite Hc. simpl.
      apply negb_true_iff. now apply String.eqb_neq. }
    now rewrite Hex.
Qed.

Lemma missing_or_invalid_message_witness :
  [missingParam "ip" None; invalidParam "limit" None] <> []
  /\ Forall (fun e => field e <> None)
       [missingParam "ip" None; invalidParam "limit" None]
  /\ exists message errors,
       errResult [missingParam "ip" None; invalidParam "limit" None] []
       = [Callback (Some (InvalidParamsError message errors)) None]
       /\ message = "Invalid parameters".
Proof.
  assert (H1 : [missingParam "ip" None; invalidParam "limit" None] <> [])
    by discriminate.
  assert (H2 : Forall (fun e => field e <> None)
                 [missingParam "ip" None; invalidParam "limit" None]).
  { repeat constructor; discriminate. }
  split; [exact H1|]. split; [exact H2|].
  destruct (missing_or_invalid_message _ [] H1 H2) as (m & es & Hr & _ & Hinv).
  exists m, es. split; [exact Hr|]. apply Hinv.
  apply Exists_cons_tl, Exists_cons_hd.
  exists "InvalidParameter". split; [reflexivity|discriminate].
Defined.

(** A field error with no [code] of its own is in neither case of C3; the
    engine reads it as a missing parameter. *)
Example codeless_reads_as_missing :
  errResult [Sample.codeless] []
  = [Callback (Some (InvalidParamsError "Missing parameters" [Sample.codeless])) None].
Proof. reflexivity. Qed.

(** ** The engine *)

Section Engine.

Lemma callbacks_app (a b : list event) :
  callbacks (a ++ b) = callbacks a ++ callbacks b.
Proof. unfold callbacks. apply flat_map_app. Qed.

Lemma validations_app (a b : list event) :
  validations (a ++ b) = validations a ++ validations b.
Proof. unfold validations. apply flat_map_app. Qed.

Lemma after_runs_app (a b : list event) :
  after_runs (a ++ b) = after_runs a ++ after_runs b.
Proof. unfold after_runs. apply flat_map_app. Qed.

Lemma callbacks_dispatch (l : list Task.t) :
  callbacks (map (fun t => Validate (Task.field t)) l) = [].
Proof. induction l as [|t l IH]; simpl; [reflexivity|exact IH]. Qed.

Lemma validations_dispatch (l : list Task.t) :
  validations (map (fun t => Validate (Task.field t)) l) = map Task.field l.
Proof. induction l as [|t l IH]; simpl; [reflexivity|now rewrite IH]. Qed.

Lemma after_runs_dispatch (l : list Task.t) :
  after_runs (map (fun t => Validate (Task.field t)) l) = [].
Proof. induction l as [|t l IH]; simpl; [reflexivity|exact IH]. Qed.

Lemma callbacks_after (l : list (nat * after_fn)) :
  callbacks (map (fun p => After (fst p)) l) = [].
Proof. induction l as [|t l IH]; simpl; [reflexivity|exact IH]. Qed.

Lemma validations_afters (l : list nat) : validations (map After l) = [].
Proof. induction l as [|t l IH]; simpl; [reflexivity|exact IH]. Qed.

Lemma after_runs_afters (l : list nat) : after_runs (map After l) = l.
Proof. induction l as [|t l IH]; simpl; [reflexivity|now rewrite IH]. Qed.

Lemma callbacks_afters (l : list nat) : callbacks (map After l) = [].
Proof. induction l as [|t l IH]; simpl; [reflexivity|exact IH]. Qed.

Lemma order_nil (s : schedule) : order s [] = [].
Proof. apply Permutation_nil. symmetry. apply order_perm. Qed.

(** *** The after stage *)

(** The pipeline of [crossValidate]: every after function runs, in order. *)
Lemma pipeline_fold (arg raw : value) (validated : object)
    (l : list (nat * after_fn)) (errs : list error) (events : list event) :
  fold_left (_validate arg raw validated) l (errs, events)
  = (fold_left (fun errs f => errs ++ added (snd f arg raw validated)) l errs,
     events ++ map (fun p => After (fst p)) l).
Proof.
  revert errs events. induction l as [|f l IH]; intros errs events; simpl.
  - now rewrite app_nil_r.
  - assert (Hm : match snd f arg raw validated with
                 | NoError => errs
                 | OneError e => errs ++ [e]
                 | ErrorArray es => errs ++ es
                 end = errs ++ added (snd f arg raw validated)).
    { unfold added. destruct (snd f arg raw validated);
        rewrite ?app_nil_r; reflexivity. }
    cbn [fold_left _validate]. rewrite Hm, IH, <- app_assoc. reflexivity.
Qed.

Lemma seq_after (fs : list after_fn) (a : nat) :
  map (fun p : nat * after_fn => After (fst p)) (combine (seq a (List.length fs)) fs)
  = map After (seq a (List.length fs)).
Proof.
  revert a. induction fs as [|f fs IH]; intros a; simpl; [reflexivity|].
  now rewrite IH.
Qed.

Lemma added_fold (arg raw : value) (validated : object) (fs : list after_fn)
    (a : nat) (errs : list error) :
  fold_left (fun errs (f : nat * after_fn) => errs ++ added (snd f arg raw validated))
    (combine (seq a (List.length fs)) fs) errs
  = errs ++ flat_map (fun f => added (f arg raw validated)) fs.
Proof.
  revert a errs. induction fs as [|f fs IH]; intros a errs; simpl.
  - now rewrite app_nil_r.
  - now rewrite IH, <- app_assoc.
Qed.

Lemma crossValidate_formula
    (errs : list error) (arg raw : value) (validated : object)
    (afterFuncs : list after_fn) :
  crossValidate errs arg raw validated afterFuncs
  = map After (seq 0 (List.length afterFuncs))
    ++ errResult
         (errs ++ flat_map (fun f => added (f arg raw validated)) afterFuncs)
         validated.
Proof.
  unfold crossValidate. rewrite pipeline_fold, added_fold, seq_after.
  reflexivity.
Qed.

(** *** The loops over the declared fields *)

Lemma own_plain {A : Type} (o : list (string * A)) (k : string) :
  hasOwnProperty o "hasOwnProperty" = false -> own o k = Some (hasOwnProperty o k).
Proof. unfold own. now intros ->. Qed.

Lemma own_shadowed {A : Type} (o : list (string * A)) (k : string) :
  hasOwnProperty o "hasOwnProperty" = true -> own o k = None.
Proof. unfold own. now intros ->. Qed.

Lemma required_thrown (params : object) (req : list (string * validator)) :
  fold_left (scan_required params) req None = None.
Proof. induction req as [|e req IH]; simpl; [reflexivity|exact IH]. Qed.

Lemma optional_thrown (params : object) (opt : list (string * validator)) :
  fold_left (scan_optional params) opt None = None.
Proof. induction opt as [|e opt IH]; simpl; [reflexivity|exact IH]. Qed.

Lemma required_fold (params : object) (req : list (string * validator))
    (toValidate : list Task.t) (errs : list error) :
  hasOwnProperty params "hasOwnProperty" = false ->
  fold_left (scan_required params) req (Some (toValidate, errs))
  = Some (toValidate ++ present params req,
          errs ++ map (fun f => missingParam f None) (absent params req)).
Proof.
  intros Hp. revert toValidate errs.
  induction req as [|[f fn] req IH]; intros toValidate errs.
  - simpl. now rewrite !app_nil_r.
  - cbn [fold_left scan_required]. rewrite (own_plain _ _ Hp).
    unfold present, absent. simpl.
    destruct (hasOwnProperty params f); simpl; rewrite IH;
      unfold present, absent; now rewrite <- app_assoc.
Qed.

Lemma optional_fold (params : object) (opt : list (string * validator))
    (toValidate : list Task.t) (errs : list error) :
  hasOwnProperty params "hasOwnProperty" = false ->
  fold_left (scan_optional params) opt (Some (toValidate, errs))
  = Some (toValidate ++ present params opt, errs).
Proof.
  intros Hp. revert toValidate.
  induction opt as [|[f fn] opt IH]; intros toValidate.
  - simpl. now rewrite app_nil_r.
  - cbn [fold_left scan_optional]. rewrite (own_plain _ _ Hp).
    unfold present. simpl.
    destruct (hasOwnProperty params f); simpl; rewrite IH;
      unfold present; [now rewrite <- app_assoc|reflexivity].
Qed.

(** On an input with no own property [hasOwnProperty] the loops build the
    tasks and the errors of [collect]. *)
Lemma gather_collect (opts : schema) (params : object) :
  hasOwnProperty params "hasOwnProperty" = false ->
  gather opts params = Some (collect opts params).
Proof.
  intros Hp. unfold gather, collect.
  destruct (required opts) as [req|]; destruct (optional opts) as [opt|]; simpl;
    rewrite ?(required_fold _ _ _ _ Hp), ?(optional_fold _ _ _ _ Hp); simpl;
    rewrite ?app_nil_r; reflexivity.
Qed.

(** On an input with such a property the first declared field makes them
    throw. *)
Lemma gather_shadowed (opts : schema) (params : object) :
  hasOwnProperty params "hasOwnProperty" = true ->
  gather opts params
  = match opt_list (required opts) ++ opt_list (optional opts) with
    | [] => Some ([], [])
    | _ :: _ => None
    end.
Proof.
  intros Hp. unfold gather.
  destruct (required opts) as [[|[f fn] req]|];
    destruct (optional opts) as [[|[g gn] opt]|]; simpl;
    rewrite ?(own_shadowed _ _ Hp), ?required_thrown, ?optional_thrown;
    reflexivity.
Qed.

Lemma present_nil (params : object) : present params [] = [].
Proof. reflexivity. Qed.

Lemma gather_some (opts : schema) (params : object)
    (x : list Task.t * list error) :
  gather opts params = Some x -> x = collect opts params.
Proof.
  destruct (hasOwnProperty params "hasOwnProperty") eqn:Hp.
  - rewrite (gather_shadowed _ _ Hp). unfold collect.
    destruct (opt_list (required opts)) as [|e l];
      destruct (opt_list (optional opts)) as [|e' l']; simpl;
      try discriminate. now intros [= <-].
  - rewrite (gather_collect _ _ Hp). congruence.
Qed.


Lemma tasks_are_present (opts : schema) (params : object) (t : Task.t) :
  In t (fst (collect opts params)) ->
  Task.val t = prop params (Task.field t)
  /\ hasOwnProperty params (Task.field t) = true.
Proof.
  unfold collect. simpl. intros Ht. apply in_app_or in Ht.
  unfold present in Ht.
  destruct Ht as [Ht|Ht]; apply in_map_iff in Ht;
    destruct Ht as (e & <- & He); apply filter_In in He; now simpl.
Qed.

(** *** The validators *)

(** The errors of a pass once every validator is done. *)
Lemma parallel_errs (arg : value) (l : list Task.t) (st : pass) :
  errs (fold_left (_callValidateFn arg) l st)
  = errs st ++ flat_map (reported arg) l.
Proof.
  revert st. induction l as [|t l IH]; intros st; simpl.
  - now rewrite app_nil_r.
  - rewrite IH. unfold _callValidateFn at 1, reported at 2, answer.
    destruct (Task.fn t arg (Task.field t) (Task.val t)) as [r|]; simpl.
    + destruct (err r); simpl; [now rewrite <- app_assoc|reflexivity].
    + reflexivity.
Qed.

Lemma thrown_at_none (arg : value) (l : list Task.t) :
  thrown_at arg l = None <-> forall t, In t l -> answer arg t <> None.
Proof.
  induction l as [|a l IH]; simpl.
  - split; [intros _ t []|reflexivity].
  - fold (answer arg a). destruct (answer arg a) as [r|] eqn:Ha.
    + destruct (thrown_at arg l) as [called|].
      * split; [discriminate|]. intros H.
        assert (Hl : forall t, In t l -> answer arg t <> None)
          by (intros t Ht; apply H; now right).
        apply IH in Hl. discriminate.
      * split; [|reflexivity]. intros _ t [<-|Ht]; [congruence|].
        now apply (proj1 IH).
    + split; [discriminate|]. intros H. exfalso. apply (H a); [now left|exact Ha].
Qed.

(** The validators called when one throws: a prefix of the tasks, whose
    last one throws. *)
Lemma thrown_at_some (arg : value) (l called : list Task.t) :
  thrown_at arg l = Some called ->
  exists before t rest,
    called = before ++ [t]
    /\ l = called ++ rest
    /\ answer arg t = None
    /\ forall t', In t' before -> answer arg t' <> None.
Proof.
  revert called. induction l as [|a l IH]; intros called; simpl; [discriminate|].
  fold (answer arg a). destruct (answer arg a) as [r|] eqn:Ha.
  - destruct (thrown_at arg l) as [called'|]; [|discriminate].
    intros [= <-]. destruct (IH called' eq_refl) as (before & t & rest & -> & -> & Ht & Hb).
    exists (a :: before), t, rest. repeat split; try assumption.
    intros t' [<-|Ht']; [congruence|now apply Hb].
  - intros [= <-]. exists [], a, l. repeat split; [exact Ha|intros t' []].
Qed.

(** *** The strict check *)

Lemma unknown_thrown (params : object)
    (req opt : option (list (string * validator))) (l : list string) :
  fold_left (scan_unknown params req opt) l None = None.
Proof. induction l as [|k l IH]; simpl; [reflexivity|exact IH]. Qed.

Lemma hasOwnProperty_keys {A : Type} (o : list (string * A)) (k : string) :
  In k (map fst o) -> hasOwnProperty o k = true.
Proof.
  unfold hasOwnProperty. induction o as [|[k' v] o IH]; simpl; [tauto|].
  intros [->|Hin].
  - now rewrite String.eqb_refl.
  - destruct (k' =? k)%string; [reflexivity|now apply IH].
Qed.

Lemma declares_list (m : option (list (string * validator))) (field : string) :
  hasOwnProperty (opt_list m) "hasOwnProperty" = false ->
  declares m field = Some (hasOwnProperty (opt_list m) field).
Proof.
  destruct m as [fields|]; simpl; [apply own_plain|reflexivity].
Qed.

Lemma declares_some (m : option (list (string * validator))) (field : string)
    (b : bool) :
  declares m field = Some b -> b = hasOwnProperty (opt_list m) field.
Proof.
  destruct m as [fields|]; simpl; [|now intros [= <-]].
  unfold own. destruct (hasOwnProperty fields "hasOwnProperty");
    [discriminate|now intros [= <-]].
Qed.

(** A check that does not throw has pushed the undeclared keys. *)
Lemma unknown_fold (opts : schema) (params : object) (l : list string)
    (acc unknowns : list string) :
  (forall k, In k l -> In k (keys params)) ->
  fold_left (scan_unknown params (required opts) (optional opts)) l (Some acc)
  = Some unknowns ->
  unknowns = acc ++ filter (fun field => negb (declared opts field)) l.
Proof.
  revert acc. induction l as [|k l IH]; intros acc Hin; simpl.
  - intros [= <-]. now rewrite app_nil_r.
  - assert (Hk : hasOwnProperty params k = true).
    { apply hasOwnProperty_keys. apply Hin. now left. }
    assert (Hl : forall k', In k' l -> In k' (keys params))
      by (intros k' Hk'; apply Hin; now right).
    unfold own. destruct (hasOwnProperty params "hasOwnProperty").
    { rewrite unknown_thrown. discriminate. }
    rewrite Hk. unfold declared.
    destruct (declares (required opts) k) as [[|]|] eqn:Hr.
    + apply declares_some in Hr. rewrite <- Hr. simpl. now apply IH.
    + apply declares_some in Hr. rewrite <- Hr. simpl.
      destruct (declares (optional opts) k) as [[|]|] eqn:Ho.
      * apply declares_some in Ho. rewrite <- Ho. simpl. now apply IH.
      * apply declares_some in Ho. rewrite <- Ho. simpl.
        intros H. apply IH in H; [|exact Hl]. now rewrite <- app_assoc in H.
      * rewrite unknown_thrown. discriminate.
    + rewrite unknown_thrown. discriminate.
Qed.

Lemma validateUnknowns_some (opts : schema) (params : object)
    (r : option error) :
  validateUnknowns params (required opts) (optional opts) = Some r ->
  r = unknown_error opts params.
Proof.
  unfold validateUnknowns, unknown_error, unknown_fields.
  destruct (fold_left _ (keys params) (Some [])) as [unknowns|] eqn:Hf;
    [|discriminate].
  apply unknown_fold in Hf; [|auto]. simpl in Hf. subst unknowns.
  destruct (filter _ (keys params)); simpl; congruence.
Qed.

(** It does not throw on an input with no own property [hasOwnProperty]
    under a schema that declares no field of that name. *)
Lemma unknown_fold_plain (opts : schema) (params : object) (l : list string)
    (acc : list string) :
  hasOwnProperty params "hasOwnProperty" = false ->
  declared opts "hasOwnProperty" = false ->
  fold_left (scan_unknown params (required opts) (optional opts)) l (Some acc)
  <> None.
Proof.
  intros Hp Hd. apply orb_false_elim in Hd. destruct Hd as [Hr Ho].
  revert acc. induction l as [|k l IH]; intros acc; simpl; [discriminate|].
  rewrite (own_plain _ _ Hp), (declares_list _ _ Hr), (declares_list _ _ Ho).
  destruct (hasOwnProperty params k); [|apply IH].
  destruct (hasOwnProperty (opt_list (required opts)) k); [apply IH|].
  destruct (hasOwnProperty (opt_list (optional opts)) k); apply IH.
Qed.

Lemma validateUnknowns_plain (opts : schema) (params : object) :
  hasOwnProperty params "hasOwnProperty" = false ->
  declared opts "hasOwnProperty" = false ->
  validateUnknowns params (required opts) (optional opts)
  = Some (unknown_error opts params).
Proof.
  intros Hp Hd.
  destruct (validateUnknowns params (required opts) (optional opts)) as [r|] eqn:Hv.
  - now rewrite (validateUnknowns_some _ _ _ Hv).
  - exfalso. unfold validateUnknowns in Hv.
    pose proof (unknown_fold_plain opts params (keys params) [] Hp Hd) as Hne.
    destruct (fold_left _ (keys params) (Some [])); [|congruence].
    destruct (List.length l =? 0)%nat; discriminate.
Qed.

(** It throws on a non-empty input that has such a property. *)
Lemma validateUnknowns_shadowed (params : object)
    (req opt : option (list (string * validator))) :
  hasOwnProperty params "hasOwnProperty" = true ->
  validateUnknowns params req opt = None.
Proof.
  intros Hp. unfold validateUnknowns.
  destruct params as [|[k v] params]; [discriminate Hp|].
  cbn [keys map fst fold_left scan_unknown].
  rewrite (own_shadowed _ _ Hp), unknown_thrown. reflexivity.
Qed.

Lemma check_events_quiet (opts : schema) :
  validations (check_events opts) = []
  /\ after_runs (check_events opts) = []
  /\ callbacks (check_events opts) = [].
Proof. unfold check_events. destruct (strict opts) as [[|]|]; repeat split. Qed.

(** [after_all], stage by stage, when the strict check does not throw. *)
Lemma after_all_stages (opts : schema) (arg params : value) (st : pass) :
  (strict opts = Some true ->
   validateUnknowns (props_of params) (required opts) (optional opts) <> None) ->
  trace (after_all opts arg params st)
  = check_events opts
    ++ match after opts with
       | Some decl =>
           if (List.length (checked opts params (errs st)) =? 0)%nat
           then crossValidate (checked opts params (errs st)) arg params
                  (validatedParams st) (as_array decl)
           else errResult (checked opts params (errs st)) (validatedParams st)
       | None => errResult (checked opts params (errs st)) (validatedParams st)
       end.
Proof.
  intros Hu. unfold after_all, check_events, checked.
  destruct (strict opts) as [[|]|].
  - destruct (validateUnknowns _ _ _) as [r|] eqn:Hv; [|now elim Hu].
    rewrite <- (validateUnknowns_some _ _ _ Hv).
    destruct r as [e|]; destruct (after opts) as [decl|]; try reflexivity;
      match goal with |- context [(List.length ?e =? 0)%nat] =>
        destruct (List.length e =? 0)%nat end; reflexivity.
  - destruct (after opts) as [decl|]; try reflexivity.
    destruct (List.length (errs st) =? 0)%nat; reflexivity.
  - destruct (after opts) as [decl|]; try reflexivity.
    destruct (List.length (errs st) =? 0)%nat; reflexivity.
Qed.

(** What it leaves in [opts] and in [params]. *)
Lemma after_all_leaves (opts : schema) (arg params : value) (st : pass) :
  params' (after_all opts arg params st) = params
  /\ (opts' (after_all opts arg params st) = opts
      \/ exists decl,
           after opts = Some decl
           /\ opts' (after_all opts arg params st)
              = {| strict := strict opts;
                   required := required opts;
                   optional := optional opts;
                   after := Some (AfterArray (as_array decl)) |}).
Proof.
  unfold after_all.
  destruct (match strict opts with Some true => _ | _ => _ end) as [[errs1 events]|];
    [|split; [reflexivity|now left]].
  destruct (after opts) as [decl|]; [|split; [reflexivity|now left]].
  destruct (List.length errs1 =? 0)%nat; split; try reflexivity; [|now left].
  right. exists decl. split; reflexivity.
Qed.

(** When the strict check throws. *)
Lemma after_all_throws (opts : schema) (arg params : value) (st : pass) :
  strict opts = Some true ->
  validateUnknowns (props_of params) (required opts) (optional opts) = None ->
  after_all opts arg params st
  = {| trace := [Unknowns; Throws]; opts' := opts; params' := params |}.
Proof. intros Hs Hv. unfold after_all. now rewrite Hs, Hv. Qed.

(** *** A call on an object *)

Lemma object_props (params : value) :
  not_an_object params = false -> params = VObj (props_of params).
Proof.
  unfold not_an_object. intros H.
  apply orb_false_elim in H. destruct H as [H Ha].
  apply orb_false_elim in H. destruct H as [Hn Ht].
  destruct params as [| | | | | |props]; try discriminate; reflexivity.
Qed.

Lemma object_is_object (params : object) : not_an_object (VObj params) = false.
Proof. reflexivity. Qed.

(** A call in which nothing throws: its events, stage by stage. *)
Lemma call_stages (s : schedule) (opts : schema) (arg : value) (params : object) :
  runs opts arg params ->
  trace (validateParams s opts arg (VObj params))
  = map (fun t => Validate (Task.field t)) (fst (collect opts params))
    ++ check_events opts
    ++ match after opts with
       | Some decl =>
           if (List.length (checked opts (VObj params)
                              (errs (field_stage s opts arg params))) =? 0)%nat
           then crossValidate
                  (checked opts (VObj params) (errs (field_stage s opts arg params)))
                  arg (VObj params)
                  (validatedParams (field_stage s opts arg params)) (as_array decl)
           else errResult
                  (checked opts (VObj params) (errs (field_stage s opts arg params)))
                  (validatedParams (field_stage s opts arg params))
       | None =>
           errResult
             (checked opts (VObj params) (errs (field_stage s opts arg params)))
             (validatedParams (field_stage s opts arg params))
       end.
Proof.
  intros (Hg & Ht & Hu). unfold validateParams. rewrite object_is_object.
  cbn [props_of].
  destruct (gather opts params) as [x|] eqn:Hx; [|now elim Hg].
  apply gather_some in Hx. subst x.
  destruct (collect opts params) as [toValidate errs0] eqn:Hc.
  cbn [fst] in Ht. rewrite Ht. cbn [trace].
  rewrite (after_all_stages opts arg (VObj params) _ Hu).
  unfold field_stage. rewrite Hc. reflexivity.
Qed.

(** What a call on an object leaves in [opts]. *)
Lemma call_leaves (s : schedule) (opts : schema) (arg params : value) :
  params' (validateParams s opts arg params) = params
  /\ (opts' (validateParams s opts arg params) = opts
      \/ exists decl,
           after opts = Some decl
           /\ opts' (validateParams s opts arg params)
              = {| strict := strict opts;
                   required := required opts;
                   optional := optional opts;
                   after := Some (AfterArray (as_array decl)) |}).
Proof.
  unfold validateParams.
  destruct (not_an_object params); [split; [reflexivity|now left]|].
  destruct (gather opts (props_of params)) as [[toValidate errs0]|];
    [|split; [reflexivity|now left]].
  destruct (thrown_at arg toValidate); [split; [reflexivity|now left]|].
  cbn [opts' params']. apply after_all_leaves.
Qed.

(** A call on an object runs, or it throws: then its last event is
    [Throws], its callback is not invoked and no after function runs; the
    validators it called are the first of the tasks, and all of them when
    it is the strict check that throws. *)
Lemma runs_or_throws (s : schedule) (opts : schema) (arg : value)
    (params : object) :
  runs opts arg params
  \/ exists called rest unknowns,
       trace (validateParams s opts arg (VObj params))
       = map (fun t => Validate (Task.field t)) called ++ unknowns ++ [Throws]
       /\ fst (collect opts params) = called ++ rest
       /\ (unknowns = [] \/ unknowns = [Unknowns])
       /\ (gather opts params = None
           \/ thrown_at arg (fst (collect opts params)) = Some called
           \/ (rest = [] /\ strict opts = Some true
               /\ validateUnknowns params (required opts) (optional opts) = None)).
Proof.
  destruct (gather opts params) as [x|] eqn:Hg.
  - pose proof (gather_some _ _ _ Hg) as Hx. subst x.
    destruct (thrown_at arg (fst (collect opts params))) as [called|] eqn:Ht.
    + right. destruct (thrown_at_some _ _ _ Ht) as (before & t & rest & _ & Hl & _).
      exists called, rest, [].
      split; [|split; [exact Hl|split; [now left|right; now left]]].
      unfold validateParams. rewrite object_is_object. cbn [props_of].
      rewrite Hg. destruct (collect opts params) as [toValidate errs0].
      cbn [fst] in Ht. now rewrite Ht.
    + destruct (strict opts) as [[|]|] eqn:Hs.
      * destruct (validateUnknowns params (required opts) (optional opts))
          as [r|] eqn:Hv.
        -- left. split; [congruence|]. split; [exact Ht|]. intros _. congruence.
        -- right. exists (fst (collect opts params)), [], [Unknowns].
           split; [|split; [now rewrite app_nil_r|split; [now right|]]].
           ++ unfold validateParams. rewrite object_is_object. cbn [props_of].
              rewrite Hg. destruct (collect opts params) as [toValidate errs0].
              cbn [fst] in Ht. rewrite Ht. cbn [trace fst].
              now rewrite (after_all_throws opts arg (VObj params) _ Hs Hv).
           ++ right. right. now repeat split.
      * left. split; [congruence|]. split; [exact Ht|]. intros H. congruence.
      * left. split; [congruence|]. split; [exact Ht|]. intros H. congruence.
  - right. exists [], (fst (collect opts params)), [].
    split; [|split; [reflexivity|split; now left]].
    unfold validateParams. rewrite object_is_object. cbn [props_of].
    now rewrite Hg.
Qed.

Lemma throws_no_callback (called : list Task.t) (unknowns : list event) :
  unknowns = [] \/ unknowns = [Unknowns] ->
  callbacks (map (fun t => Validate (Task.field t)) called ++ unknowns ++ [Throws]) = []
  /\ after_runs (map (fun t => Validate (Task.field t)) called ++ unknowns ++ [Throws]) = []
  /\ validations (map (fun t => Validate (Task.field t)) called ++ unknowns ++ [Throws])
     = map Task.field called.
Proof.
  intros Hu.
  rewrite callbacks_app, after_runs_app, validations_app.
  rewrite callbacks_dispatch, after_runs_dispatch, validations_dispatch.
  destruct Hu as [->| ->]; simpl; rewrite ?app_nil_r; repeat split.
Qed.

(** A call that invokes its callback, or runs an after function, is one in
    which nothing throws. *)
Lemma callback_runs (s : schedule) (opts : schema) (arg : value)
    (params : object) :
  callbacks (trace (validateParams s opts arg (VObj params))) <> [] ->
  runs opts arg params.
Proof.
  destruct (runs_or_throws s opts arg params)
    as [Hr|(called & rest & unknowns & -> & _ & Hu & _)]; [now intros _|].
  rewrite (proj1 (throws_no_callback called unknowns Hu)). congruence.
Qed.

Lemma after_runs_runs (s : schedule) (opts : schema) (arg : value)
    (params : object) :
  after_runs (trace (validateParams s opts arg (VObj params))) <> [] ->
  runs opts arg params.
Proof.
  destruct (runs_or_throws s opts arg params)
    as [Hr|(called & rest & unknowns & -> & _ & Hu & _)]; [now intros _|].
  rewrite (proj1 (proj2 (throws_no_callback called unknowns Hu))). congruence.
Qed.

(** The conditions of [quiet] are enough for that. *)
Lemma quiet_runs (opts : schema) (arg : value) (params : object) :
  quiet opts arg params -> runs opts arg params.
Proof.
  intros (Hp & Hd & Hv). split; [|split].
  - rewrite (gather_collect _ _ Hp). discriminate.
  - now apply thrown_at_none.
  - intros Hs. rewrite (validateUnknowns_plain _ _ Hp (Hd Hs)). discriminate.
Qed.

Lemma errResult_is_one_callback (errs : list error) (validated : object) :
  exists err res,
    errResult errs validated = [Callback err res]
    /\ (errs = [] -> err = None /\ res = Some validated)
    /\ (errs <> [] -> exists f, err = Some f /\ res = None).
Proof.
  rewrite errResult_cases. destruct errs as [|e0 errs].
  - do 2 eexists. split; [reflexivity|]. split; [now split|congruence].
  - destruct (filter fieldless (e0 :: errs)) as [|e1 [|e2 es]];
      do 2 eexists; (split; [reflexivity|]); (split; [discriminate|]);
      intros _; eexists; split; reflexivity.
Qed.

(** The tail of a call in which nothing throws: after functions, then one
    [errResult]. *)
Lemma call_reports (s : schedule) (opts : schema) (arg : value) (params : object) :
  runs opts arg params ->
  exists pre errs',
    trace (validateParams s opts arg (VObj params))
    = pre ++ errResult errs' (validatedParams (field_stage s opts arg params))
    /\ callbacks pre = []
    /\ validations pre = map Task.field (fst (collect opts params))
    /\ ~ In Throws pre
    /\ (checked opts (VObj params) (errs (field_stage s opts arg params)) <> [] ->
        errs' = checked opts (VObj params) (errs (field_stage s opts arg params))
        /\ after_runs pre = [])
    /\ (errs' = [] \/ after opts = None ->
        errs' = checked opts (VObj params) (errs (field_stage s opts arg params))).
Proof.
  intros Hr. rewrite (call_stages s opts arg params Hr).
  set (E := checked opts (VObj params) (errs (field_stage s opts arg params))).
  set (V := validatedParams (field_stage s opts arg params)).
  destruct (check_events_quiet opts) as (Hv & Ha & Hc).
  assert (Hth : forall l, ~ In Throws
                   (map (fun t => Validate (Task.field t)) l ++ check_events opts)).
  { intros l Hin. apply in_app_or in Hin. destruct Hin as [Hin|Hin].
    - apply in_map_iff in Hin. destruct Hin as (t & Ht & _). discriminate.
    - unfold check_events in Hin. destruct (strict opts) as [[|]|];
        simpl in Hin; intuition discriminate. }
  assert (Hplain : exists pre errs',
             map (fun t => Validate (Task.field t)) (fst (collect opts params))
             ++ check_events opts ++ errResult E V
             = pre ++ errResult errs' V
             /\ callbacks pre = []
             /\ validations pre = map Task.field (fst (collect opts params))
             /\ ~ In Throws pre
             /\ (E <> [] -> errs' = E /\ after_runs pre = [])
             /\ (errs' = [] \/ after opts = None -> errs' = E)).
  { exists (map (fun t => Validate (Task.field t)) (fst (collect opts params))
            ++ check_events opts), E.
    rewrite <- app_assoc. split; [reflexivity|].
    rewrite callbacks_app, validations_app, after_runs_app.
    rewrite callbacks_dispatch, validations_dispatch, after_runs_dispatch.
    rewrite Hv, Ha, Hc, !app_nil_r. repeat split; auto. }
  destruct (after opts) as [decl|] eqn:Hd; [|exact Hplain].
  destruct (List.length E =? 0)%nat eqn:Hlen; [|exact Hplain].
  rewrite crossValidate_formula.
  exists (map (fun t => Validate (Task.field t)) (fst (collect opts params))
          ++ check_events opts
          ++ map After (seq 0 (List.length (as_array decl)))).
  eexists. rewrite <- !app_assoc. split; [reflexivity|].
  rewrite !callbacks_app, !validations_app.
  rewrite callbacks_dispatch, validations_dispatch, callbacks_afters,
    validations_afters, Hv, Hc.
  assert (HE : E = []) by (destruct E; [reflexivity|discriminate]).
  cbn [app]. rewrite !app_nil_r.
  split; [reflexivity|]. split; [reflexivity|]. split; [|split].
  - intros Hin. rewrite app_assoc in Hin. apply in_app_or in Hin.
    destruct Hin as [Hin|Hin]; [exact (Hth _ Hin)|].
    apply in_map_iff in Hin. destruct Hin as (i & Hi & _). discriminate.
  - intros Hne. now elim Hne.
  - intros [H|H]; [|discriminate]. rewrite H. symmetry. exact HE.
Qed.

End Engine.

Section Delivery.

(** What [errResult] hands to the callback, by what [errs] holds. *)
Lemma errResult_delivers (errs : list error) (validated : object) :
  exists err res,
    errResult errs validated = [Callback err res]
    /\ ((errs = [] /\ err = None /\ res = Some validated)
        \/ (res = None
            /\ exists message errors,
                 err = Some (InvalidParamsError message errors)
                 /\ Permutation errors errs
                 /\ Forall (fun e => fieldless e = false) errors
                 /\ errors <> []
                 /\ StronglySorted (ascending field_key) errors)
        \/ (res = None
            /\ exists we_cause message,
                 err = Some (InternalError we_cause message)
                 /\ filter fieldless errs <> [])).
Proof.
  rewrite errResult_cases. destruct errs as [|e0 errs].
  - do 2 eexists. split; [reflexivity|]. left. auto.
  - destruct (filter fieldless (e0 :: errs)) as [|e1 [|e2 es]] eqn:Hf.
    + do 2 eexists. split; [reflexivity|]. right. left.
      split; [reflexivity|]. do 2 eexists. split; [reflexivity|].
      apply filter_fieldless_nil in Hf.
      rewrite (filter_fielded_all _ Hf).
      pose proof (sort_perm by_field (e0 :: errs)) as Hp.
      repeat split.
      * exact Hp.
      * eapply Permutation_Forall; [symmetry; exact Hp|exact Hf].
      * intros Hnil. rewrite Hnil in Hp. now apply Permutation_nil in Hp.
      * apply sort_sorted. now apply by_field_keyed.
    + do 2 eexists. split; [reflexivity|]. right. right.
      split; [reflexivity|]. do 2 eexists. split; [reflexivity|discriminate].
    + do 2 eexists. split; [reflexivity|]. right. right.
      split; [reflexivity|]. do 2 eexists. split; [reflexivity|discriminate].
Qed.






End Delivery.






Section Unknowns.

Lemma unknown_fields_spec (opts : schema) (params : object) (k : string) :
  In k (unknown_fields opts params)
  <-> In k (keys params)
      /\ hasOwnProperty (opt_list (required opts)) k = false
      /\ hasOwnProperty (opt_list (optional opts)) k = false.
Proof.
  unfold unknown_fields, declared. rewrite filter_In, negb_true_iff, orb_false_iff.
  reflexivity.
Qed.

(** The events of a strict call that finds unknown fields. *)
Lemma strict_call_reports (s : schedule) (opts : schema) (arg : value)
    (params : object) (k : string) (unknowns : list string) :
  strict opts = Some true ->
  runs opts arg params ->
  unknown_fields opts params = k :: unknowns ->
  trace (validateParams s opts arg (VObj params))
  = map (fun t => Validate (Task.field t)) (fst (collect opts params))
    ++ Unknowns
       :: errResult
            (errs (field_stage s opts arg params)
             ++ [unknownParams (k :: unknowns) None])
            (validatedParams (field_stage s opts arg params)).
Proof.
  intros Hs Hr Hu. rewrite (call_stages s opts arg params Hr).
  unfold check_events, checked, unknown_error. cbn [props_of].
  rewrite Hs, Hu. f_equal. cbn [app]. f_equal.
  destruct (after opts) as [decl|]; [|reflexivity].
  destruct (errs (field_stage s opts arg params)); reflexivity.
Qed.

(** The events of a strict call that finds none, without an after stage. *)
Lemma strict_call_passes (s : schedule) (opts : schema) (arg : value)
    (params : object) :
  strict opts = Some true ->
  runs opts arg params ->
  unknown_fields opts params = [] ->
  after opts = None ->
  trace (validateParams s opts arg (VObj params))
  = map (fun t => Validate (Task.field t)) (fst (collect opts params))
    ++ Unknowns
       :: errResult (errs (field_stage s opts arg params))
            (validatedParams (field_stage s opts arg params)).
Proof.
  intros Hs Hr Hu Ha. rewrite (call_stages s opts arg params Hr).
  unfold check_events, checked, unknown_error. cbn [props_of].
  now rewrite Hs, Hu, Ha.
Qed.

End Unknowns.

(** C7, as the code has it: with the schema [{strict: true, required: {ip:
    IP}}] the input [{hal: "1000"}] fails with exactly two field errors,
    the UnknownParameters error whose field is [["hal"]] and then the
    MissingParameter error for [ip], in the order of their fields.  In
    general, in a strict call in which nothing throws, the unknown fields
    are the own keys of the input that neither [required] nor [optional]
    declares; when there are some, one element of code UnknownParameters,
    whose field is the array of them and whose message lists them, is added
    to the errors of the field stage and the call reports, no after function
    being run; when there are none, nothing is added. *)
Theorem strict_mode_reports_unknown_fields :
  (forall (s : schedule) (net_isIP : value -> Z) (arg : value),
     trace (validateParams s
              {| strict := Some true;
                 required := Some [("ip", calls_back (Validators.validateIP net_isIP))];
                 optional := None;
                 after := None |}
              arg (VObj [("hal", VStr "1000")]))
     = [Unknowns;
        Callback
          (Some (InvalidParamsError "Invalid parameters"
                   [mkError (Some (FArr ["hal"])) (Some "UnknownParameters")
                      (Some "Unknown parameters: hal") None [];
                    mkError (Some (FStr "ip")) (Some "MissingParameter")
                      (Some "Missing parameter") None []]))
          None])
  /\ (forall (s : schedule) (opts : schema) (arg : value) (params : object),
        strict opts = Some true ->
        quiet opts arg params ->
        validateUnknowns params (required opts) (optional opts)
        = Some match unknown_fields opts params with
               | [] => None
               | unknowns =>
                   Some (mkError (Some (FArr unknowns)) (Some "UnknownParameters")
                           (Some ("Unknown parameters: " ++ join ", " unknowns)%string)
                           None [])
               end
        /\ (forall k,
              In k (unknown_fields opts params)
              <-> In k (keys params)
                  /\ hasOwnProperty (opt_list (required opts)) k = false
                  /\ hasOwnProperty (opt_list (optional opts)) k = false)
        /\ (unknown_fields opts params <> [] ->
            trace (validateParams s opts arg (VObj params))
            = map (fun t => Validate (Task.field t)) (fst (collect opts params))
              ++ Unknowns
                 :: errResult
                      (errs (field_stage s opts arg params)
                       ++ [mkError (Some (FArr (unknown_fields opts params)))
                             (Some "UnknownParameters")
                             (Some ("Unknown parameters: "
                                    ++ join ", " (unknown_fields opts params))%string)
                             None []])
                      (validatedParams (field_stage s opts arg params)))
        /\ (unknown_fields opts params = [] ->
            after opts = None ->
            trace (validateParams s opts arg (VObj params))
            = map (fun t => Validate (Task.field t)) (fst (collect opts params))
              ++ Unknowns
                 :: errResult (errs (field_stage s opts arg params))
                      (validatedParams (field_stage s opts arg params))))
  /\ field_gt (missingParam "ip" None) (unknownParams ["hal"] None) = true.
Proof.
  split; [|split; [|reflexivity]].
  - intros s net_isIP arg. unfold validateParams. cbn.
    rewrite order_nil. reflexivity.
  - intros s opts arg params Hs Hq.
    pose proof (quiet_runs _ _ _ Hq) as Hr.
    destruct Hq as (Hp & Hd & _).
    split; [|split; [apply unknown_fields_spec|split]].
    + rewrite (validateUnknowns_plain _ _ Hp (Hd Hs)). unfold unknown_error.
      now destruct (unknown_fields opts params).
    + intros Hne. destruct (unknown_fields opts params) as [|k unknowns] eqn:Hu;
        [now elim Hne|].
      now rewrite (strict_call_reports s opts arg params k unknowns Hs Hr Hu).
    + intros Hu Ha. now apply strict_call_passes.
Qed.

(** C7, as stated, fails: in a strict call the unknown field [hal] is not
    reported when the stock limit validator throws on the boolean it is
    given, and the unknown field [hasOwnProperty] is not reported either:
    the check calls it as the method and throws. *)
Lemma unknown_fields_are_not_always_reported :
  unknown_fields (Sample.limit_schema (Some true))
    [("limit", VBool true); ("hal", VStr "1000")]
  = ["hal"]
  /\ trace (validateParams in_order (Sample.limit_schema (Some true)) VNull
              (VObj [("limit", VBool true); ("hal", VStr "1000")]))
     = [Validate "limit"; Throws]
  /\ unknown_fields (Sample.bare_schema (Some true)) [("hasOwnProperty", VStr "x")]
     = ["hasOwnProperty"]
  /\ trace (validateParams in_order (Sample.bare_schema (Some true)) VNull
              (VObj [("hasOwnProperty", VStr "x")]))
     = [Unknowns; Throws].
Proof. repeat split. Qed.

Section Reuse.

(** A schema whose [after] was put in an array validates as before. *)
Lemma normalised_validates_alike (s : schedule) (opts : schema)
    (decl : after_decl) (arg params : value) :
  after opts = Some decl ->
  trace (validateParams s
           {| strict := strict opts;
              required := required opts;
              optional := optional opts;
              after := Some (AfterArray (as_array decl)) |}
           arg params)
  = trace (validateParams s opts arg params).
Proof.
  destruct opts as [st rq op af]. simpl. intros ->.
  unfold validateParams. destruct (not_an_object params); [reflexivity|].
  unfold gather. simpl.
  destruct (match op with Some opt => _ | None => _ end) as [[toValidate errs0]|];
    [|reflexivity].
  destruct (thrown_at arg toValidate); [reflexivity|].
  simpl. unfold after_all. simpl.
  destruct (match st with Some true => _ | _ => _ end) as [[errs1 events]|];
    [|reflexivity].
  destruct (List.length errs1 =? 0)%nat; reflexivity.
Qed.

End Reuse.

(** C9, as the code has it: a call leaves [strict], [required] and
    [optional] of the schema and the input as they were; [after] is left as
    it was or, when it was a single function and the field stage reported no
    error, is replaced by the one-element array of that function; and the
    schema as the call leaves it validates every input exactly as the schema
    it was given, so it can be used again. *)
Theorem schema_after_is_normalised
    (s : schedule) (opts : schema) (arg params : value) :
  strict (opts' (validateParams s opts arg params)) = strict opts
  /\ required (opts' (validateParams s opts arg params)) = required opts
  /\ optional (opts' (validateParams s opts arg params)) = optional opts
  /\ params' (validateParams s opts arg params) = params
  /\ (after (opts' (validateParams s opts arg params)) = after opts
      \/ exists f,
           after opts = Some (AfterFn f)
           /\ after (opts' (validateParams s opts arg params))
              = Some (AfterArray [f]))
  /\ (forall (s' : schedule) (arg' params' : value),
        trace (validateParams s' (opts' (validateParams s opts arg params))
                 arg' params')
        = trace (validateParams s' opts arg' params')).
Proof.
  destruct (call_leaves s opts arg params) as [Hp [->|(decl & Hd & ->)]].
  - repeat split; auto.
  - simpl. repeat split; auto.
    + destruct decl as [f|fs]; simpl.
      * right. exists f. now split.
      * left. now rewrite Hd.
    + intros s' arg' params'. now apply normalised_validates_alike.
Qed.

(** C9, as stated, fails: a schema whose [after] is a single function is
    not the schema the call leaves behind. *)
Lemma schema_after_is_rewritten :
  after Sample.after_schema = Some (AfterFn Sample.no_op)
  /\ after (opts' (validateParams in_order Sample.after_schema VNull (VObj [])))
     = Some (AfterArray [Sample.no_op])
  /\ opts' (validateParams in_order Sample.after_schema VNull (VObj []))
     <> Sample.after_schema.
Proof.
  split; [reflexivity|]. split; [reflexivity|].
  intros H. apply (f_equal after) in H. discriminate H.
Qed.

Section FieldStage.

Lemma errResult_failure (errs : list error) (validated : object) :
  errs <> [] -> exists f, errResult errs validated = [Callback (Some f) None].
Proof.
  intros Hne. rewrite errResult_cases. destruct errs as [|e0 errs]; [congruence|].
  destruct (filter fieldless (e0 :: errs)) as [|e1 [|e2 es]]; eexists; reflexivity.
Qed.

Lemma reported_in (arg : value) (t : Task.t) (r : reply) (e : error)
    (l : list Task.t) :
  In t l ->
  answer arg t = Some r ->
  err r = Some e ->
  In e (flat_map (reported arg) l).
Proof.
  intros Hin Hr He. apply in_flat_map. exists t. split; [exact Hin|].
  unfold reported. rewrite Hr, He. now left.
Qed.

(** Every callback of a call comes from one [errResult]. *)
Lemma callbacks_of_call (s : schedule) (opts : schema) (arg params : value) :
  callbacks (trace (validateParams s opts arg params)) = []
  \/ exists errs validated,
       callbacks (trace (validateParams s opts arg params))
       = callbacks (errResult errs validated).
Proof.
  destruct (not_an_object params) eqn:Hno.
  - right. unfold validateParams. rewrite Hno. do 2 eexists. reflexivity.
  - rewrite (object_props _ Hno).
    destruct (runs_or_throws s opts arg (props_of params))
      as [Hr|(called & rest & unknowns & -> & _ & Hu & _)].
    + right. destruct (call_reports s opts arg _ Hr) as (pre & errs' & -> & Hcb & _).
      rewrite callbacks_app, Hcb. do 2 eexists. reflexivity.
    + left. apply throws_no_callback, Hu.
Qed.

Lemma field_failure_sorted (s : schedule) (opts : schema) (arg params : value)
    (message : string) (errors : list error) :
  In (Some (InvalidParamsError message errors), None)
     (callbacks (trace (validateParams s opts arg params))) ->
  StronglySorted (ascending field_key) errors.
Proof.
  destruct (callbacks_of_call s opts arg params) as [->|(errs & validated & ->)];
    [intros []|].
  destruct (errResult_delivers errs validated) as (err & res & -> & Hk).
  simpl. intros [H|[]]. inversion H; subst.
  destruct Hk as [(_ & Hn & _)|[(_ & m & es & He & _ & _ & _ & Hs)|(_ & c & m & Hc & _)]].
  - discriminate.
  - now inversion He; subst.
  - discriminate.
Qed.

Lemma existsb_perm {X : Type} (f : X -> bool) (l l' : list X) :
  Permutation l l' -> existsb f l = existsb f l'.
Proof.
  induction 1 as [|x l l' _ IH|x y l|l l' l'' _ IH1 _ IH2]; simpl.
  - reflexivity.
  - now rewrite IH.
  - now destruct (f x), (f y).
  - now rewrite IH1.
Qed.

(** Field errors with pairwise distinct fields are reported alike in
    whatever order they were accumulated. *)
Lemma errResult_perm (errs errs' : list error) (validated validated' : object) :
  Permutation errs errs' ->
  errs <> [] ->
  Forall (fun e => fieldless e = false) errs ->
  NoDup (map field_key errs) ->
  errResult errs' validated' = errResult errs validated.
Proof.
  intros Hp Hne Hf Hnd.
  assert (Hf' : Forall (fun e => fieldless e = false) errs').
  { eapply Permutation_Forall; eassumption. }
  rewrite !errResult_cases.
  destruct errs as [|e0 errs]; [congruence|].
  destruct errs' as [|e0' errs'].
  { symmetry in Hp. now apply Permutation_nil in Hp. }
  rewrite (proj2 (filter_fieldless_nil _) Hf), (proj2 (filter_fieldless_nil _) Hf').
  rewrite (filter_fielded_all _ Hf), (filter_fielded_all _ Hf').
  rewrite (existsb_perm _ _ _ Hp).
  do 4 f_equal.
  apply (sorted_perm_eq field_key).
  - apply sort_sorted. now apply by_field_keyed.
  - apply sort_sorted. now apply by_field_keyed.
  - rewrite !sort_perm. now symmetry.
  - eapply Permutation_NoDup; [|exact Hnd].
    apply Permutation_map. rewrite sort_perm. exact Hp.
Qed.

Lemma checked_perm (opts : schema) (params : value) (errs errs' : list error) :
  Permutation errs errs' ->
  Permutation (checked opts params errs) (checked opts params errs').
Proof.
  intros Hp. unfold checked. destruct (strict opts) as [[|]|]; try exact Hp.
  destruct (unknown_error _ _); [|exact Hp].
  now apply Permutation_app_tail.
Qed.

Lemma checked_keeps (opts : schema) (params : value) (errs : list error) (e : error) :
  In e errs -> In e (checked opts params errs).
Proof.
  intros Hin. unfold checked. destruct (strict opts) as [[|]|]; try exact Hin.
  destruct (unknown_error _ _); [|exact Hin].
  apply in_or_app. now left.
Qed.

Lemma field_stage_errs (s : schedule) (opts : schema) (arg : value)
    (params : object) :
  errs (field_stage s opts arg params)
  = snd (collect opts params)
    ++ flat_map (reported arg) (order s (fst (collect opts params))).
Proof. unfold field_stage. now rewrite parallel_errs. Qed.

(** The errors of the field stage do not depend on the completion order,
    up to their order. *)
Lemma field_stage_perm (s s' : schedule) (opts : schema) (arg : value)
    (params : object) :
  Permutation (errs (field_stage s opts arg params))
    (errs (field_stage s' opts arg params)).
Proof.
  rewrite !field_stage_errs. apply Permutation_app_head.
  apply Permutation_flat_map.
  rewrite (order_perm s), (order_perm s'). reflexivity.
Qed.

(** Without an after stage, a field failure with pairwise distinct fields
    is the same under every completion order. *)
Lemma field_failure_any_order (s s' : schedule) (opts : schema)
    (arg params : value) (message : string) (errors : list error) :
  after opts = None ->
  In (Some (InvalidParamsError message errors), None)
     (callbacks (trace (validateParams s opts arg params))) ->
  NoDup (map field_key errors) ->
  callbacks (trace (validateParams s' opts arg params))
  = callbacks (trace (validateParams s opts arg params)).
Proof.
  intros Ha.
  destruct (not_an_object params) eqn:Hno.
  { unfold validateParams. now rewrite Hno. }
  rewrite (object_props _ Hno). set (props := props_of params).
  intros Hin Hnd.
  assert (Hr : runs opts arg props).
  { apply (callback_runs s). intros Hnil. now rewrite Hnil in Hin. }
  rewrite (call_stages s opts arg props Hr), (call_stages s' opts arg props Hr) in *.
  rewrite Ha in *.
  rewrite !callbacks_app, !callbacks_dispatch in *.
  rewrite (proj2 (proj2 (check_events_quiet opts))) in *. cbn [app] in *.
  set (E := checked opts (VObj props) (errs (field_stage s opts arg props))) in *.
  set (E' := checked opts (VObj props) (errs (field_stage s' opts arg props))).
  assert (Hp : Permutation E E') by apply checked_perm, field_stage_perm.
  destruct (errResult_delivers E (validatedParams (field_stage s opts arg props)))
    as (err & res & He & Hk).
  rewrite He in Hin. simpl in Hin. destruct Hin as [Hin|[]].
  inversion Hin; subst err res.
  destruct Hk as [(_ & Hn & _)|[(_ & m & es & Hes & Hpe & Hfe & Hnee & _)
                               |(_ & c & m & Hc & _)]]; try discriminate.
  inversion Hes; subst m es.
  f_equal. apply errResult_perm.
  - exact Hp.
  - intros Hnil. rewrite Hnil in Hpe. symmetry in Hpe.
    now apply Permutation_nil in Hpe.
  - eapply Permutation_Forall; eassumption.
  - eapply Permutation_NoDup; [|exact Hnd]. now apply Permutation_map.
Qed.

End FieldStage.

(** C4, as the code has it: the field errors of a failure are in ascending
    order of their [field] values; two calls on the same schema, context and
    input that report the same errors deliver them in the same order
    whenever no two of those errors have equal [field] values; and when the
    schema has no after stage such a call hands its callback the same
    failure under every completion order of the validators. *)
Theorem field_errors_are_sorted
    (s : schedule) (opts : schema) (arg params : value)
    (message : string) (errors : list error) :
  In (Some (InvalidParamsError message errors), None)
     (callbacks (trace (validateParams s opts arg params))) ->
  StronglySorted (fun a b => field_gt a b = false) errors
  /\ (forall (s' : schedule) (message' : string) (errors' : list error),
        In (Some (InvalidParamsError message' errors'), None)
           (callbacks (trace (validateParams s' opts arg params))) ->
        Permutation errors errors' ->
        NoDup (map field_key errors) ->
        errors' = errors)
  /\ (forall s' : schedule,
        after opts = None ->
        NoDup (map field_key errors) ->
        callbacks (trace (validateParams s' opts arg params))
        = callbacks (trace (validateParams s opts arg params))).
Proof.
  intros Hin. pose proof (field_failure_sorted _ _ _ _ _ _ Hin) as Hs.
  split; [now apply sorted_by_field|]. split.
  - intros s' message' errors' Hin' Hperm Hnd.
    pose proof (field_failure_sorted _ _ _ _ _ _ Hin') as Hs'.
    symmetry. now apply (sorted_perm_eq field_key).
  - intros s' Ha Hnd. now apply (field_failure_any_order s s' _ _ _ message errors).
Qed.

Lemma field_errors_are_sorted_witness :
  In (Some (InvalidParamsError "Invalid parameters"
              [invalidParam "dst" (Some "invalid IP address");
               invalidParam "src" (Some "invalid IP address")]), None)
     (callbacks (trace (validateParams in_order Sample.route_schema VNull
                          Sample.bad_route)))
  /\ StronglySorted (fun a b => field_gt a b = false)
       [invalidParam "dst" (Some "invalid IP address");
        invalidParam "src" (Some "invalid IP address")]
  /\ callbacks (trace (validateParams reversed Sample.route_schema VNull
                         Sample.bad_route))
     = callbacks (trace (validateParams in_order Sample.route_schema VNull
                           Sample.bad_route)).
Proof.
  assert (H : In (Some (InvalidParamsError "Invalid parameters"
                          [invalidParam "dst" (Some "invalid IP address");
                           invalidParam "src" (Some "invalid IP address")]), None)
                (callbacks (trace (validateParams in_order Sample.route_schema
                                     VNull Sample.bad_route)))).
  { left. reflexivity. }
  assert (Hnd : NoDup (map field_key
                         [invalidParam "dst" (Some "invalid IP address");
                          invalidParam "src" (Some "invalid IP address")])).
  { constructor; [|constructor; [intros []|constructor]].
    intros [Heq|[]]. discriminate Heq. }
  destruct (field_errors_are_sorted in_order Sample.route_schema VNull
              Sample.bad_route _ _ H) as (Hs & _ & Hany).
  split; [exact H|]. split; [exact Hs|].
  exact (Hany reversed eq_refl Hnd).
Defined.

(** C4, as stated, fails: with two errors reported against the same field,
    the order delivered is the order in which the validators completed. *)
Lemma tied_fields_follow_completion :
  callbacks (trace (validateParams in_order Sample.range_schema VNull
                      Sample.range_input))
  = [(Some (InvalidParamsError "Invalid parameters"
              [invalidParam "range" (Some "start is out of range");
               invalidParam "range" (Some "end is out of range")]), None)]
  /\ callbacks (trace (validateParams reversed Sample.range_schema VNull
                         Sample.range_input))
     = [(Some (InvalidParamsError "Invalid parameters"
                 [invalidParam "range" (Some "end is out of range");
                  invalidParam "range" (Some "start is out of range")]), None)]
  /\ [invalidParam "range" (Some "start is out of range");
      invalidParam "range" (Some "end is out of range")]
     <> [invalidParam "range" (Some "end is out of range");
         invalidParam "range" (Some "start is out of range")].
Proof.
  split; [reflexivity|]. split; [reflexivity|]. discriminate.
Qed.

Section Reporting.

(** In a call in which nothing throws, an error that a validator reports
    makes the call fail. *)
Lemma reported_fails (s : schedule) (opts : schema) (arg : value)
    (params : object) (t : Task.t) (r : reply) (e : error) :
  runs opts arg params ->
  In t (fst (collect opts params)) ->
  answer arg t = Some r ->
  err r = Some e ->
  exists f,
    callbacks (trace (validateParams s opts arg (VObj params))) = [(Some f, None)].
Proof.
  intros Hr Hin Ha He.
  destruct (call_reports s opts arg params Hr)
    as (pre & errs' & Htr & Hcb & _ & _ & Hne & _).
  assert (Hine : In e (checked opts (VObj params)
                         (errs (field_stage s opts arg params)))).
  { apply checked_keeps. rewrite field_stage_errs. apply in_or_app. right.
    apply (reported_in arg t r); try assumption.
    eapply Permutation_in; [symmetry; apply order_perm|exact Hin]. }
  destruct Hne as [-> _]; [intros Hnil; now rewrite Hnil in Hine|].
  rewrite Htr, callbacks_app, Hcb.
  destruct (errResult_failure
              (checked opts (VObj params) (errs (field_stage s opts arg params)))
              (validatedParams (field_stage s opts arg params))) as [f Hf].
  { intros Hnil. now rewrite Hnil in Hine. }
  rewrite Hf. now exists f.
Qed.

End Reporting.

(** C5, as the code has it: when a validator the engine invoked reports an
    error, no callback of the call carries a validated result; the call
    ends in one failure when nothing in it throws; the error is appended to
    the error list, and the working result mapping is updated with the value
    and the multi mapping reported alongside the error exactly as if no
    error had been reported. *)
Theorem reported_error_withholds_the_result
    (s : schedule) (opts : schema) (arg params : value)
    (t : Task.t) (r : reply) (e : error) :
  not_an_object params = false ->
  In t (fst (collect opts (props_of params))) ->
  Task.fn t arg (Task.field t) (Task.val t) = Some r ->
  err r = Some e ->
  (forall err res,
     In (err, res) (callbacks (trace (validateParams s opts arg params))) ->
     err <> None /\ res = None)
  /\ (quiet opts arg (props_of params) ->
      exists f,
        callbacks (trace (validateParams s opts arg params)) = [(Some f, None)])
  /\ (forall st : pass,
        errs (_callValidateFn arg st t) = errs st ++ [e]
        /\ validatedParams (_callValidateFn arg st t)
           = validatedParams
               (_callValidateFn arg st
                  (Task.mk (Task.field t) (without_error (Task.fn t)) (Task.val t)))).
Proof.
  intros Hno Hin Ha He.
  pose proof (object_props _ Hno) as Hobj.
  destruct params as [| | | | | |props]; try discriminate Hobj.
  cbn [props_of] in *. split; [|split].
  - intros err0 res Hcb.
    assert (Hr : runs opts arg props).
    { apply (callback_runs s). intros Hnil. now rewrite Hnil in Hcb. }
    destruct (reported_fails s opts arg props t r e Hr Hin Ha He) as [f Hf].
    rewrite Hf in Hcb. destruct Hcb as [[= <- <-]|[]]. now split.
  - intros Hq. apply (reported_fails s opts arg props t r e); try assumption.
    now apply quiet_runs.
  - intros st. unfold _callValidateFn, without_error. simpl. rewrite Ha.
    simpl. rewrite He. split; reflexivity.
Qed.

Lemma reported_error_withholds_the_result_witness :
  not_an_object (VObj [("ip", VStr "x")]) = false
  /\ In (Task.mk "ip" Sample.both (VStr "x"))
       (fst (collect Sample.both_schema (props_of (VObj [("ip", VStr "x")]))))
  /\ Sample.both VNull "ip" (VStr "x")
     = Some {| err := Some (invalidParam "ip" None);
               validated := VStr "x"; multi := VUndefined |}
  /\ quiet Sample.both_schema VNull [("ip", VStr "x")]
  /\ exists f,
       callbacks (trace (validateParams in_order Sample.both_schema VNull
                           (VObj [("ip", VStr "x")])))
       = [(Some f, None)].
Proof.
  assert (H1 : not_an_object (VObj [("ip", VStr "x")]) = false) by reflexivity.
  assert (H2 : In (Task.mk "ip" Sample.both (VStr "x"))
                 (fst (collect Sample.both_schema
                         (props_of (VObj [("ip", VStr "x")])))))
    by (left; reflexivity).
  assert (H3 : Sample.both VNull "ip" (VStr "x")
               = Some {| err := Some (invalidParam "ip" None);
                         validated := VStr "x"; multi := VUndefined |})
    by reflexivity.
  assert (H4 : quiet Sample.both_schema VNull [("ip", VStr "x")]).
  { split; [reflexivity|]. split; [discriminate|].
    intros t [<-|[]]. discriminate. }
  split; [exact H1|]. split; [exact H2|]. split; [exact H3|]. split; [exact H4|].
  exact (proj1 (proj2 (reported_error_withholds_the_result in_order
                         Sample.both_schema VNull (VObj [("ip", VStr "x")])
                         (Task.mk "ip" Sample.both (VStr "x")) _
                         (invalidParam "ip" None) H1 H2 H3 eq_refl)) H4).
Defined.

(** C5, as stated, fails: a validator that reports an error and a value
    has its field added to the result mapping. *)
Lemma failed_field_is_recorded :
  Sample.both VNull "ip" (VStr "x")
  = Some {| err := Some (invalidParam "ip" None);
            validated := VStr "x"; multi := VUndefined |}
  /\ validatedParams
       (_callValidateFn VNull {| errs := []; validatedParams := [] |}
          (Task.mk "ip" Sample.both (VStr "x")))
     = [("ip", VStr "x")]
  /\ hasOwnProperty
       (validatedParams
          (_callValidateFn VNull {| errs := []; validatedParams := [] |}
             (Task.mk "ip" Sample.both (VStr "x"))))
       "ip" = true.
Proof. repeat split. Qed.

(** ** The stock validators *)

Section Stock.

Variable net_isIP : value -> Z.
Variable StringToNumber : string -> number.
Variable NumberToString : number -> string.

Lemma scan_all_valid (elems : list string) (errs : list string) (ips : list value) :
  Forall (fun i => net_isIP (VStr (replace_first_spaces i)) = 4%Z
                   \/ net_isIP (VStr (replace_first_spaces i)) = 6%Z) elems ->
  fold_left (Validators.scan_ip net_isIP) (map VStr elems) (Some (errs, ips))
  = Some (errs,
          ips ++ map (fun i => VNum (of_Z (net_isIP (VStr (replace_first_spaces i)))))
                   elems).
Proof.
  intros Hall. revert ips.
  induction Hall as [|i elems Hi _ IH]; intros ips; simpl.
  - now rewrite app_nil_r.
  - assert (Hz : (net_isIP (VStr (replace_first_spaces i)) =? 0)%Z = false)
      by (destruct Hi as [->| ->]; reflexivity).
    rewrite Hz, IH, <- app_assoc. reflexivity.
Qed.

(** On a string the offset validator accepts integral values only. *)
Lemma string_offset_is_integral (arg : value) (name s : string) (r : reply) :
  Validators.validateOffset StringToNumber NumberToString arg name (VStr s) = Some r ->
  err r = None ->
  num_eq (floor (StringToNumber s)) (StringToNumber s) = true
  /\ trim s = s.
Proof.
  unfold Validators.validateOffset, Validators.isNotInteger. simpl.
  destruct (s =? "")%string; simpl; [intros [= <-]; discriminate|].
  destruct (trim s =? s)%string eqn:Ht; simpl; [|intros [= <-]; discriminate].
  destruct (isNaN (StringToNumber s)); simpl; [intros [= <-]; discriminate|].
  destruct (num_eq _ _); simpl; [|intros [= <-]; discriminate].
  intros _ _. split; [reflexivity|]. now apply String.eqb_eq.
Qed.

End Stock.

(** C8: the number 1.5 is not integral, and both the offset validator and
    the limit validator accept it: a value that is a number is only checked
    against the range. *)
Theorem fractional_number_is_accepted
    (StringToNumber : string -> number) (NumberToString : number -> string)
    (arg : value) :
  num_eq (floor (Fin (3 # 2))) (Fin (3 # 2)) = false
  /\ Validators.validateOffset StringToNumber NumberToString arg "offset"
       (VNum (Fin (3 # 2)))
     = Some (ok (VNum (Fin (3 # 2))))
  /\ Validators.validateLimit StringToNumber NumberToString arg "limit"
       (VNum (Fin (3 # 2)))
     = Some (ok (VNum (Fin (3 # 2)))).
Proof. repeat split. Qed.

(** C10: for an array, or a comma-separated string, of valid IP addresses
    the IP-array validator succeeds, and its validated value, which the
    engine stores under the field, is the array of what [net.isIP] returned
    for each address, 4 or 6, and holds no address string. *)
Theorem IParray_yields_address_families
    (net_isIP : value -> Z) (arg : value) (name : string)
    (arr : value) (elems : list string) :
  (arr = VArr (map VStr elems)
   \/ exists s, arr = VStr s /\ s <> "" /\ split "," s = elems) ->
  elems <> [] ->
  Forall (fun i => net_isIP (VStr (replace_first_spaces i)) = 4%Z
                   \/ net_isIP (VStr (replace_first_spaces i)) = 6%Z) elems ->
  Validators.validateIParray net_isIP arg name arr
  = Some (ok (VArr (map (fun i => VNum (of_Z (net_isIP (VStr (replace_first_spaces i)))))
                      elems)))
  /\ Forall (fun v => (v = VNum (of_Z 4) \/ v = VNum (of_Z 6))
                      /\ forall s, v <> VStr s)
       (map (fun i => VNum (of_Z (net_isIP (VStr (replace_first_spaces i))))) elems)
  /\ (forall (fn : validator) (st : pass),
        fn arg name arr = Validators.validateIParray net_isIP arg name arr ->
        validatedParams (_callValidateFn arg st (Task.mk name fn arr))
        = set (validatedParams st) name
            (VArr (map (fun i => VNum (of_Z (net_isIP (VStr (replace_first_spaces i)))))
                     elems))).
Proof.
  intros Harr Hne Hall.
  assert (Hrun :
    Validators.validateIParray net_isIP arg name arr
    = Some (ok (VArr (map (fun i => VNum (of_Z (net_isIP (VStr (replace_first_spaces i)))))
                        elems)))).
  { unfold Validators.validateIParray.
    assert (Hlen : (List.length (map VStr elems) =? 0)%nat = false).
    { destruct elems; [congruence|reflexivity]. }
    destruct Harr as [->|(s & -> & Hs & Hsplit)].
    - simpl. rewrite Hlen, (scan_all_valid net_isIP elems [] [] Hall). reflexivity.
    - apply String.eqb_neq in Hs. unfold Common.arrayify.
      change (isArray (VStr s)) with false.
      change (typeof (VStr s)) with "string".
      change ("string" =? "string")%string with true.
      change ("string" =? "object")%string with false.
      cbn [negb andb]. rewrite Hs, Hsplit, Hlen.
      rewrite (scan_all_valid net_isIP elems [] [] Hall). reflexivity. }
  split; [exact Hrun|]. split.
  - apply Forall_map. eapply Forall_impl; [|exact Hall].
    intros i [-> | ->]; split; auto; discriminate.
  - intros fn st Hfn. rewrite Hrun in Hfn.
    unfold _callValidateFn. simpl. rewrite Hfn. reflexivity.
Qed.

Lemma IParray_yields_address_families_witness :
  (VStr "8.8.8.8, ::1" = VArr (map VStr ["8.8.8.8"; " ::1"])
   \/ exists s, VStr "8.8.8.8, ::1" = VStr s /\ s <> ""
                /\ split "," s = ["8.8.8.8"; " ::1"])
  /\ ["8.8.8.8"; " ::1"] <> []
  /\ Forall (fun i => Sample.isIP (VStr (replace_first_spaces i)) = 4%Z
                      \/ Sample.isIP (VStr (replace_first_spaces i)) = 6%Z)
       ["8.8.8.8"; " ::1"]
  /\ Validators.validateIParray Sample.isIP VNull "ip" (VStr "8.8.8.8, ::1")
     = Some (ok (VArr [VNum (of_Z 4); VNum (of_Z 6)])).
Proof.
  assert (H1 : VStr "8.8.8.8, ::1" = VArr (map VStr ["8.8.8.8"; " ::1"])
               \/ exists s, VStr "8.8.8.8, ::1" = VStr s /\ s <> ""
                            /\ split "," s = ["8.8.8.8"; " ::1"]).
  { right. exists "8.8.8.8, ::1".
    split; [reflexivity|]. split; [discriminate|reflexivity]. }
  assert (H2 : ["8.8.8.8"; " ::1"] <> []) by discriminate.
  assert (H3 : Forall (fun i => Sample.isIP (VStr (replace_first_spaces i)) = 4%Z
                                \/ Sample.isIP (VStr (replace_first_spaces i)) = 6%Z)
                 ["8.8.8.8"; " ::1"]).
  { constructor; [left; reflexivity|].
    constructor; [right; reflexivity|constructor]. }
  split; [exact H1|]. split; [exact H2|]. split; [exact H3|].
  exact (proj1 (IParray_yields_address_families Sample.isIP VNull "ip"
                  (VStr "8.8.8.8, ::1") ["8.8.8.8"; " ::1"] H1 H2 H3)).
Defined.

(** ** The scenarios of [tests/run.js] *)

Section Scenarios.

Example IP_S_KV :
  trace (validateParams in_order (Sample.ip_schema Sample.isIP) VNull
           (VObj [("ip", VStr "8.8.8.8")]))
  = [Validate "ip"; Unknowns; Callback None (Some [("ip", VStr "8.8.8.8")])].
Proof. reflexivity. Qed.

Example GEN_S_MULTI :
  callbacks (trace (validateParams in_order Sample.multi_schema VNull
                      (VObj [("foo", VStr "foo")])))
  = [(None, Some [("foo", VStr "foo"); ("bar", VStr "bar")])].
Proof. reflexivity. Qed.

Example Params_S_Arr :
  callbacks (trace (validateParams in_order Sample.multi_schema VNull
                      (VArr [VStr "foo"])))
  = [(Some (InvalidParamsError "Invalid parameters"
              [invalidParam "parameters" (Some "Parameters must be objects")]),
      None)].
Proof. reflexivity. Qed.

Example IP_S_KI_U :
  callbacks (trace (validateParams in_order (Sample.ip_schema Sample.isIP) VNull
                      (VObj [("ip", VStr "Et tu, Brute?"); ("hal", VStr "1000")])))
  = [(Some (InvalidParamsError "Invalid parameters"
              [unknownParams ["hal"] None;
               invalidParam "ip" (Some "invalid IP address")]),
      None)].
Proof. reflexivity. Qed.

(** [IParray-S-KV-array-after]: what [expErrInternal] expects. *)
Example IParray_S_KV_array_after :
  trace (validateParams in_order (Sample.faulty_schema (OneError Sample.my_err_obj))
           VNull (VObj [("ip", VArr [VStr "8.8.8.8"; VStr "4.4.4.4"])]))
  = [Validate "ip"; Unknowns; After 0;
     Callback (Some (InternalError None "Internal error")) None].
Proof. reflexivity. Qed.

(** [IParray-S-KV-array-after2]: what [expVErrInternal] expects. *)
Example IParray_S_KV_array_after2 :
  trace (validateParams in_order
           (Sample.faulty_schema (ErrorArray [Sample.my_err_obj; Sample.meo]))
           VNull (VObj [("ip", VArr [VStr "8.8.8.8"; VStr "4.4.4.4"])]))
  = [Validate "ip"; Unknowns; After 0;
     Callback
       (Some (InternalError (Some [Sample.my_err_obj; Sample.meo])
                "Internal error"))
       None].
Proof. reflexivity. Qed.

Example IParray_S_KI_string_notArr :
  Validators.validateIParray Sample.isIP VNull "ip"
    (VArr [VStr "8.8.8.8"; VStr "x y  z"; VStr "b"])
  = Some (fail (mkError (Some (FStr "ip")) (Some "InvalidParameter")
                  (Some "invalid IPs") (Some ["b"; "xy  z"]) [])).
Proof. reflexivity. Qed.

Example limit_S_KI_toobig (S2N : string -> number) (N2S : number -> string) :
  Validators.validateLimit S2N N2S VNull "limit" (VNum (of_Z 1001))
  = Some (fail (invalidParam "limit" (Some Constants.msg.LIMIT))).
Proof. reflexivity. Qed.

Example limit_of_a_boolean_throws (S2N : string -> number) (N2S : number -> string) :
  Validators.validateLimit S2N N2S VNull "limit" (VBool true) = None.
Proof. reflexivity. Qed.

End Scenarios.

(** * The rest of the engine *)

(** X1: [crossValidate] invokes every after function once, in the order of
    the array, each on the same raw input and validated object, whatever the
    earlier ones reported; and it reports on the errors it was given
    followed by the errors of each function in turn, an array of errors
    being spliced in. *)
Theorem crossValidate_runs_every_function
    (errs : list error) (arg raw : value) (validated : object)
    (afterFuncs : list after_fn) :
  crossValidate errs arg raw validated afterFuncs
  = map After (seq 0 (List.length afterFuncs))
    ++ errResult
         (errs ++ flat_map (fun f => added (f arg raw validated)) afterFuncs)
         validated.
Proof. apply crossValidate_formula. Qed.

Section FieldCollection.

Lemma errResult_quiet (errs : list error) (validated : object) :
  validations (errResult errs validated) = []
  /\ after_runs (errResult errs validated) = [].
Proof.
  destruct (errResult_is_one_callback errs validated) as (e & r & -> & _).
  split; reflexivity.
Qed.

(** The validators a call invokes are the first of the tasks. *)
Lemma validations_prefix (s : schedule) (opts : schema) (arg : value)
    (params : object) :
  exists called rest,
    fst (collect opts params) = called ++ rest
    /\ validations (trace (validateParams s opts arg (VObj params)))
       = map Task.field called
    /\ (gather opts params <> None ->
        thrown_at arg (fst (collect opts params)) = None ->
        rest = []).
Proof.
  destruct (runs_or_throws s opts arg params)
    as [Hr|(called & rest & unknowns & -> & Hl & Hu & Hc)].
  - exists (fst (collect opts params)), [].
    split; [now rewrite app_nil_r|]. split; [|reflexivity].
    destruct (call_reports s opts arg params Hr) as (pre & errs' & -> & _ & Hv & _).
    rewrite validations_app, Hv, (proj1 (errResult_quiet _ _)).
    now rewrite app_nil_r.
  - exists called, rest. split; [exact Hl|]. split.
    + apply throws_no_callback, Hu.
    + intros Hg Ht. destruct Hc as [Hc|[Hc|(Hc & _)]]; [congruence|congruence|exact Hc].
Qed.


Lemma absent_is_not_validated (s : schedule) (opts : schema) (arg : value)
    (params : object) (f : string) :
  hasOwnProperty params f = false ->
  ~ In f (validations (trace (validateParams s opts arg (VObj params)))).
Proof.
  intros Habs Hin.
  destruct (validations_prefix s opts arg params) as (called & rest & Hl & Hv & _).
  rewrite Hv in Hin. apply in_map_iff in Hin. destruct Hin as (t & <- & Ht).
  assert (Ht' : In t (fst (collect opts params))).
  { rewrite Hl. apply in_or_app. now left. }
  apply tasks_are_present in Ht'. destruct Ht' as [_ Ht']. congruence.
Qed.

End FieldCollection.



(** X3: when the input lacks a required field, a call in which nothing
    throws fails without invoking the validator declared for it and without
    running any after function, and a field-error failure lists the element
    of code MissingParameter and message 'Missing parameter' of that
    field. *)
Theorem missing_required_field_fails
    (s : schedule) (opts : schema) (arg : value) (params : object)
    (req : list (string * validator)) (f : string) (fn : validator) :
  required opts = Some req ->
  In (f, fn) req ->
  hasOwnProperty params f = false ->
  quiet opts arg params ->
  exists failure,
    callbacks (trace (validateParams s opts arg (VObj params)))
    = [(Some failure, None)]
    /\ after_runs (trace (validateParams s opts arg (VObj params))) = []
    /\ ~ In f (validations (trace (validateParams s opts arg (VObj params))))
    /\ ~ In Throws (trace (validateParams s opts arg (VObj params)))
    /\ (forall m es, failure = InvalidParamsError m es ->
                     In (mkError (Some (FStr f)) (Some "MissingParameter")
                           (Some "Missing parameter") None []) es).
Proof.
  intros Hreq Hin Habs Hq. pose proof (quiet_runs _ _ _ Hq) as Hr.
  change (mkError (Some (FStr f)) (Some "MissingParameter")
            (Some "Missing parameter") None [])
    with (missingParam f None).
  assert (Hmiss : In (missingParam f None)
                    (checked opts (VObj params)
                       (errs (field_stage s opts arg params)))).
  { apply checked_keeps. rewrite field_stage_errs. apply in_or_app. left.
    unfold collect. cbn [snd]. rewrite Hreq. simpl.
    apply (in_map (fun f0 => missingParam f0 None)). unfold absent.
    apply (in_map fst _ (f, fn)). apply filter_In. split; [exact Hin|].
    simpl. now rewrite Habs. }
  assert (Hne : checked opts (VObj params) (errs (field_stage s opts arg params)) <> []).
  { intros Hnil. now rewrite Hnil in Hmiss. }
  pose proof (absent_is_not_validated s opts arg params f Habs) as Hd.
  destruct (call_reports s opts arg params Hr)
    as (pre & errs' & Htr & Hcb & _ & Hth & Hchk & _).
  destruct (Hchk Hne) as [-> Haft]. rewrite Htr in *.
  destruct (errResult_delivers
              (checked opts (VObj params) (errs (field_stage s opts arg params)))
              (validatedParams (field_stage s opts arg params)))
    as (e & r & He & Hk).
  rewrite He in *. rewrite callbacks_app, after_runs_app, Hcb, Haft. simpl.
  assert (Hnt : ~ In Throws (pre ++ [Callback e r])).
  { intros H. apply in_app_or in H. destruct H as [H|[H|[]]];
      [now apply Hth|discriminate]. }
  destruct Hk as [(Hnil & _)|[(-> & m & es & -> & Hp & _)|(-> & c & m & -> & _)]].
  - congruence.
  - eexists. split; [reflexivity|]. split; [reflexivity|]. split; [exact Hd|].
    split; [exact Hnt|].
    intros m' es' [= <- <-]. eapply Permutation_in; [symmetry; exact Hp|exact Hmiss].
  - eexists. split; [reflexivity|]. split; [reflexivity|]. split; [exact Hd|].
    split; [exact Hnt|]. intros m' es' [=].
Qed.

Lemma missing_required_field_fails_witness :
  required (Sample.ip_schema Sample.isIP)
  = Some [("ip", calls_back (Validators.validateIP Sample.isIP))]
  /\ In ("ip", calls_back (Validators.validateIP Sample.isIP))
       [("ip", calls_back (Validators.validateIP Sample.isIP))]
  /\ hasOwnProperty [("hal", VStr "1000")] "ip" = false
  /\ quiet (Sample.ip_schema Sample.isIP) VNull [("hal", VStr "1000")]
  /\ exists failure,
       callbacks (trace (validateParams in_order (Sample.ip_schema Sample.isIP)
                           VNull (VObj [("hal", VStr "1000")])))
       = [(Some failure, None)].
Proof.
  assert (H1 : required (Sample.ip_schema Sample.isIP)
               = Some [("ip", calls_back (Validators.validateIP Sample.isIP))])
    by reflexivity.
  assert (H2 : In ("ip", calls_back (Validators.validateIP Sample.isIP))
                 [("ip", calls_back (Validators.validateIP Sample.isIP))])
    by (left; reflexivity).
  assert (H3 : hasOwnProperty [("hal", VStr "1000")] "ip" = false) by reflexivity.
  assert (H4 : quiet (Sample.ip_schema Sample.isIP) VNull [("hal", VStr "1000")]).
  { split; [reflexivity|]. split; [reflexivity|]. intros t []. }
  split; [exact H1|]. split; [exact H2|]. split; [exact H3|]. split; [exact H4|].
  destruct (missing_required_field_fails in_order (Sample.ip_schema Sample.isIP)
              VNull [("hal", VStr "1000")] _ "ip" _ H1 H2 H3 H4)
    as (failure & Hc & _).
  exists failure. exact Hc.
Defined.

Section Gating.

Lemma checked_nil (opts : schema) (params : value) (errs : list error) :
  checked opts params errs = [] ->
  errs = []
  /\ (strict opts = Some true -> unknown_fields opts (props_of params) = []).
Proof.
  unfold checked, unknown_error. destruct (strict opts) as [[|]|]; intros H.
  - destruct (unknown_fields opts (props_of params)).
    + now split.
    + apply app_eq_nil in H. destruct H as [_ H]. discriminate.
  - split; [exact H|discriminate].
  - split; [exact H|discriminate].
Qed.

Lemma flat_map_nil {X Y : Type} (f : X -> list Y) (l : list X) :
  flat_map f l = [] -> forall x, In x l -> f x = [].
Proof.
  induction l as [|a l IH]; simpl; intros H x Hx; [tauto|].
  apply app_eq_nil in H. destruct H as [Ha Hl].
  destruct Hx as [<-|Hx]; [exact Ha|now apply IH].
Qed.

Lemma no_unknowns_all_declared (opts : schema) (params : object) :
  unknown_fields opts params = [] ->
  forall k, In k (keys params) -> declared opts k = true.
Proof.
  intros H k Hk.
  destruct (declared opts k) eqn:Hd; [reflexivity|].
  assert (Hin : In k (unknown_fields opts params)).
  { apply filter_In. split; [exact Hk|]. now rewrite Hd. }
  rewrite H in Hin. destruct Hin.
Qed.

(** When an after function runs, nothing has thrown and the field stage
    left no error. *)
Lemma after_runs_on_clean_stage (s : schedule) (opts : schema) (arg : value)
    (params : object) (i : nat) :
  In i (after_runs (trace (validateParams s opts arg (VObj params)))) ->
  runs opts arg params
  /\ checked opts (VObj params) (errs (field_stage s opts arg params)) = [].
Proof.
  intros Hin.
  assert (Hr : runs opts arg params).
  { apply (after_runs_runs s). intros Hnil. now rewrite Hnil in Hin. }
  split; [exact Hr|].
  destruct (call_reports s opts arg params Hr)
    as (pre & errs' & Htr & _ & _ & _ & Hchk & _).
  destruct (checked opts (VObj params) (errs (field_stage s opts arg params)))
    as [|e0 E]; [reflexivity|].
  destruct Hchk as [_ Haft]; [discriminate|].
  rewrite Htr, after_runs_app, Haft, (proj2 (errResult_quiet _ _)) in Hin.
  destruct Hin.
Qed.

Lemma errResult_no_internal (errs : list error) (validated : object) :
  Forall (fun e => fieldless e = false) errs ->
  forall c m res,
    ~ In (Some (InternalError c m), res) (callbacks (errResult errs validated)).
Proof.
  intros Hf c m res. rewrite errResult_cases.
  destruct errs as [|e0 errs].
  - simpl. intros [H|[]]. discriminate.
  - rewrite (proj2 (filter_fieldless_nil _) Hf). simpl.
    intros [H|[]]. discriminate.
Qed.

Lemma checked_fielded (opts : schema) (params : value) (errs : list error) :
  Forall (fun e => fieldless e = false) errs ->
  Forall (fun e => fieldless e = false) (checked opts params errs).
Proof.
  intros Hf. unfold checked, unknown_error. destruct (strict opts) as [[|]|];
    try exact Hf.
  destruct (unknown_fields opts (props_of params)); [exact Hf|].
  apply Forall_app. split; [exact Hf|]. now constructor.
Qed.

End Gating.

(** X4: an after function runs only when the field stage is clean: the
    input holds every required field, every invoked validator returned and
    reported no error, and in strict mode every own key of the input is
    declared. *)
Theorem after_functions_need_clean_fields
    (s : schedule) (opts : schema) (arg : value) (params : object) (i : nat) :
  In i (after_runs (trace (validateParams s opts arg (VObj params)))) ->
  (forall f, In f (map fst (opt_list (required opts))) ->
             hasOwnProperty params f = true)
  /\ (forall t, In t (fst (collect opts params)) ->
                exists r, answer arg t = Some r /\ err r = None)
  /\ (strict opts = Some true ->
      forall k, In k (keys params) -> declared opts k = true).
Proof.
  intros Hrun. apply after_runs_on_clean_stage in Hrun.
  destruct Hrun as [(_ & Hret & _) Hrun].
  apply checked_nil in Hrun. destruct Hrun as [Herrs Hunk].
  rewrite field_stage_errs in Herrs. apply app_eq_nil in Herrs.
  destruct Herrs as [Hmiss Hrep]. split; [|split].
  - unfold collect in Hmiss. cbn [snd] in Hmiss.
    apply map_eq_nil in Hmiss. unfold absent in Hmiss.
    intros f Hf. apply in_map_iff in Hf. destruct Hf as ([f' fn] & <- & Hin).
    simpl. destruct (hasOwnProperty params f') eqn:Hp; [reflexivity|].
    assert (Habs : In f' (map fst (filter (fun e => negb (hasOwnProperty params (fst e)))
                                     (opt_list (required opts))))).
    { apply (in_map fst _ (f', fn)). apply filter_In. split; [exact Hin|].
      simpl. now rewrite Hp. }
    rewrite Hmiss in Habs. destruct Habs.
  - intros t Ht.
    assert (Hr : reported arg t = []).
    { apply (flat_map_nil _ _ Hrep).
      eapply Permutation_in; [symmetry; apply order_perm|exact Ht]. }
    pose proof (proj1 (thrown_at_none _ _) Hret t Ht) as Hsome.
    unfold reported in Hr. destruct (answer arg t) as [r|]; [|congruence].
    exists r. split; [reflexivity|]. now destruct (err r).
  - intros Hs. apply no_unknowns_all_declared. now apply Hunk.
Qed.

Lemma after_functions_need_clean_fields_witness :
  In 0%nat (after_runs (trace (validateParams in_order
                                 (Sample.faulty_schema (OneError Sample.my_err_obj))
                                 VNull (VObj [("ip", VStr "8.8.8.8")]))))
  /\ (forall t,
        In t (fst (collect (Sample.faulty_schema (OneError Sample.my_err_obj))
                     [("ip", VStr "8.8.8.8")])) ->
        exists r, answer VNull t = Some r /\ err r = None).
Proof.
  assert (H : In 0%nat (after_runs (trace (validateParams in_order
                                 (Sample.faulty_schema (OneError Sample.my_err_obj))
                                 VNull (VObj [("ip", VStr "8.8.8.8")])))))
    by (left; reflexivity).
  split; [exact H|].
  exact (proj1 (proj2 (after_functions_need_clean_fields in_order _ VNull _ 0%nat H))).
Defined.

(** X5: the engine's own errors all carry a field, so an internal failure
    can only come from a collaborator: when every error that the invoked
    validators and the after functions report has a [field], no call ends
    in an internal failure. *)
Theorem internal_failure_needs_a_fieldless_report
    (s : schedule) (opts : schema) (arg : value) (params : object) :
  (forall t r e, In t (fst (collect opts params)) ->
                 answer arg t = Some r ->
                 err r = Some e -> fieldless e = false) ->
  (forall decl f validated,
     after opts = Some decl -> In f (as_array decl) ->
     Forall (fun e => fieldless e = false) (added (f arg (VObj params) validated))) ->
  forall c m res,
    ~ In (Some (InternalError c m), res)
        (callbacks (trace (validateParams s opts arg (VObj params)))).
Proof.
  intros Hval Hafter c m res.
  destruct (runs_or_throws s opts arg params)
    as [Hr|(called & rest & unknowns & -> & _ & Hu & _)].
  2:{ rewrite (proj1 (throws_no_callback called unknowns Hu)). intros []. }
  assert (Hstage : Forall (fun e => fieldless e = false)
                     (checked opts (VObj params)
                        (errs (field_stage s opts arg params)))).
  { apply checked_fielded. rewrite field_stage_errs. apply Forall_app. split.
    - unfold collect. cbn [snd]. apply Forall_map. apply Forall_forall.
      intros f _. reflexivity.
    - apply Forall_flat_map. apply Forall_forall. intros t Ht.
      assert (Ht' : In t (fst (collect opts params))).
      { eapply Permutation_in; [apply order_perm|exact Ht]. }
      unfold reported.
      destruct (answer arg t) as [r|] eqn:Ha; [|constructor].
      destruct (err r) as [e|] eqn:He; [|constructor].
      constructor; [|constructor]. exact (Hval t r e Ht' Ha He). }
  rewrite (call_stages s opts arg params Hr).
  rewrite !callbacks_app, callbacks_dispatch.
  rewrite (proj2 (proj2 (check_events_quiet opts))). simpl.
  destruct (after opts) as [decl|] eqn:Hd.
  - destruct (List.length _ =? 0)%nat.
    + rewrite crossValidate_formula, callbacks_app, callbacks_afters. simpl.
      apply errResult_no_internal. apply Forall_app. split; [exact Hstage|].
      apply Forall_flat_map. apply Forall_forall. intros f Hf.
      now apply (Hafter decl).
    + now apply errResult_no_internal.
  - now apply errResult_no_internal.
Qed.

Lemma internal_failure_needs_a_fieldless_report_witness :
  (forall t r e,
     In t (fst (collect Sample.route_schema (props_of Sample.bad_route))) ->
     answer VNull t = Some r ->
     err r = Some e -> fieldless e = false)
  /\ forall c m res,
       ~ In (Some (InternalError c m), res)
           (callbacks (trace (validateParams reversed Sample.route_schema VNull
                                Sample.bad_route))).
Proof.
  assert (H1 : forall t r e,
             In t (fst (collect Sample.route_schema (props_of Sample.bad_route))) ->
             answer VNull t = Some r ->
             err r = Some e -> fieldless e = false).
  { intros t r e [<-|[<-|[]]] [= <-] [= <-]; reflexivity. }
  split; [exact H1|].
  apply (internal_failure_needs_a_fieldless_report reversed Sample.route_schema
           VNull [("src", VStr "somewhere"); ("dst", VStr "elsewhere")] H1).
  intros decl f validated Hd. discriminate Hd.
Defined.

Section ResultMapping.

Lemma get_set_same (o : object) (k : string) (v : value) :
  get (set o k v) k = Some v.
Proof.
  induction o as [|[k' v'] o IH]; simpl.
  - now rewrite String.eqb_refl.
  - destruct (k' =? k)%string eqn:Hk; simpl; rewrite Hk; [reflexivity|exact IH].
Qed.

Lemma get_set_other (o : object) (k k' : string) (v : value) :
  k <> k' -> get (set o k v) k' = get o k'.
Proof.
  intros Hne. induction o as [|[k0 v0] o IH]; simpl.
  - apply String.eqb_neq in Hne. now rewrite Hne.
  - destruct (k0 =? k)%string eqn:Hk; simpl.
    + apply String.eqb_eq in Hk. subst k0.
      apply String.eqb_neq in Hne. now rewrite Hne.
    + now rewrite IH.
Qed.

Lemma undefined_typeof (v : value) :
  (typeof v =? "undefined")%string = true <-> v = VUndefined.
Proof. destruct v; simpl; split; intros H; congruence. Qed.

(** What a validator that reports no multi mapping does to the result. *)
Lemma plain_step (arg : value) (st : pass) (t : Task.t) (r : reply) :
  answer arg t = Some r ->
  multi r = VUndefined ->
  validatedParams (_callValidateFn arg st t)
  = match validated r with
    | VUndefined => validatedParams st
    | v => set (validatedParams st) (Task.field t) v
    end.
Proof.
  unfold answer, _callValidateFn. intros -> Hm. rewrite Hm. simpl.
  now destruct (validated r).
Qed.

Lemma plain_step_other (arg : value) (st : pass) (t : Task.t) (k : string) :
  (forall r, answer arg t = Some r -> multi r = VUndefined) ->
  Task.field t <> k ->
  get (validatedParams (_callValidateFn arg st t)) k = get (validatedParams st) k.
Proof.
  intros Hm Hne. destruct (answer arg t) as [r|] eqn:Ha.
  - rewrite (plain_step _ _ _ r Ha (Hm r eq_refl)).
    destruct (validated r); try reflexivity; now apply get_set_other.
  - unfold _callValidateFn. unfold answer in Ha. now rewrite Ha.
Qed.

Lemma plain_fold_other (arg : value) (l : list Task.t) (st : pass) (k : string) :
  (forall t r, In t l -> answer arg t = Some r -> multi r = VUndefined) ->
  (forall t, In t l -> Task.field t <> k) ->
  get (validatedParams (fold_left (_callValidateFn arg) l st)) k
  = get (validatedParams st) k.
Proof.
  revert st. induction l as [|a l IH]; intros st Hm Hk; simpl; [reflexivity|].
  rewrite IH.
  - apply plain_step_other; [intros r; apply Hm|apply Hk]; now left.
  - intros t r Ht. apply Hm. now right.
  - intros t Ht. apply Hk. now right.
Qed.

Lemma plain_fold_get (arg : value) (l : list Task.t) (st : pass) (t : Task.t)
    (r : reply) :
  (forall t r, In t l -> answer arg t = Some r -> multi r = VUndefined) ->
  NoDup (map Task.field l) ->
  In t l ->
  answer arg t = Some r ->
  validated r <> VUndefined ->
  get (validatedParams (fold_left (_callValidateFn arg) l st)) (Task.field t)
  = Some (validated r).
Proof.
  revert st. induction l as [|a l IH]; intros st Hm Hnd Hin Ha Hv; [destruct Hin|].
  simpl. inversion Hnd as [|? ? Hnot Hnd']; subst.
  destruct Hin as [->|Hin].
  - rewrite plain_fold_other.
    + rewrite (plain_step _ _ _ r Ha) by (apply (Hm t); [now left|exact Ha]).
      destruct (validated r) eqn:Hval; try apply get_set_same.
      congruence.
    + intros t' r' Ht'. apply Hm. now right.
    + intros t' Ht' Heq. apply Hnot. rewrite <- Heq. now apply in_map.
  - apply IH; try assumption. intros t' r' Ht'. apply Hm. now right.
Qed.

Lemma plain_fold_keys (arg : value) (l : list Task.t) (st : pass) (k : string) :
  (forall t r, In t l -> answer arg t = Some r -> multi r = VUndefined) ->
  hasOwnProperty (validatedParams (fold_left (_callValidateFn arg) l st)) k = true ->
  hasOwnProperty (validatedParams st) k = true
  \/ exists t, In t l /\ Task.field t = k.
Proof.
  revert st. induction l as [|a l IH]; intros st Hm Hk; simpl in *; [now left|].
  destruct (IH (_callValidateFn arg st a)) as [H|(t & Ht & Hf)].
  - intros t r Ht. apply Hm. now right.
  - exact Hk.
  - destruct (String.eqb_spec (Task.field a) k) as [Heq|Hne].
    + right. exists a. split; [now left|exact Heq].
    + left. unfold hasOwnProperty in *.
      rewrite plain_step_other in H;
        [exact H|intros r; apply Hm; now left|exact Hne].
  - right. exists t. split; [now right|exact Hf].
Qed.

(** A success hands over the result mapping of the field stage, in a call
    in which nothing throws. *)
Lemma success_result (s : schedule) (opts : schema) (arg : value)
    (params result : object) :
  In (None, Some result)
     (callbacks (trace (validateParams s opts arg (VObj params)))) ->
  runs opts arg params
  /\ result = validatedParams (field_stage s opts arg params).
Proof.
  intros Hin.
  assert (Hr : runs opts arg params).
  { apply (callback_runs s). intros Hnil. now rewrite Hnil in Hin. }
  split; [exact Hr|].
  destruct (call_reports s opts arg params Hr) as (pre & errs' & Htr & Hcb & _).
  rewrite Htr, callbacks_app, Hcb in Hin.
  destruct (errResult_is_one_callback errs'
              (validatedParams (field_stage s opts arg params)))
    as (e & r & He & Hnil & Hne).
  rewrite He in Hin. simpl in Hin. destruct Hin as [[= -> ->]|[]].
  destruct errs' as [|e0 errs'].
  - destruct (Hnil eq_refl) as [_ [= ->]]. reflexivity.
  - destruct Hne as (f & Hf & _); discriminate.
Qed.

Lemma task_is_declared (opts : schema) (params : object) (t : Task.t) :
  In t (fst (collect opts params)) -> declared opts (Task.field t) = true.
Proof.
  unfold collect. cbn [fst]. intros Ht. unfold declared.
  apply in_app_or in Ht. unfold present in Ht.
  destruct Ht as [Ht|Ht]; apply in_map_iff in Ht;
    destruct Ht as (e & <- & He); apply filter_In in He; destruct He as [He _];
    simpl.
  - rewrite (hasOwnProperty_keys (opt_list (required opts)) (fst e));
      [reflexivity|now apply in_map].
  - rewrite (hasOwnProperty_keys (opt_list (optional opts)) (fst e));
      [|now apply in_map].
    apply orb_true_r.
Qed.

End ResultMapping.

(** X6: on success, when no field is declared twice and no validator
    reports a multi mapping, the result maps every validated field to the
    value its validator reported, whatever the order in which the validators
    completed, and its keys are declared fields that the input holds:
    undeclared keys of the input never reach the result. *)
Theorem result_holds_the_validated_fields
    (s : schedule) (opts : schema) (arg : value) (params result : object) :
  In (None, Some result)
     (callbacks (trace (validateParams s opts arg (VObj params)))) ->
  (forall t r, In t (fst (collect opts params)) ->
               answer arg t = Some r -> multi r = VUndefined) ->
  NoDup (map Task.field (fst (collect opts params))) ->
  (forall t, In t (fst (collect opts params)) ->
             exists r,
               answer arg t = Some r
               /\ (validated r <> VUndefined ->
                   get result (Task.field t) = Some (validated r)))
  /\ (forall k, hasOwnProperty result k = true ->
                hasOwnProperty params k = true /\ declared opts k = true).
Proof.
  intros Hres Hplain Hnd. apply success_result in Hres.
  destruct Hres as [(_ & Hret & _) ->].
  unfold field_stage.
  assert (Hplain' : forall t r, In t (order s (fst (collect opts params))) ->
                                answer arg t = Some r -> multi r = VUndefined).
  { intros t r Ht. apply Hplain. eapply Permutation_in; [apply order_perm|exact Ht]. }
  split.
  - intros t Ht.
    pose proof (proj1 (thrown_at_none _ _) Hret t Ht) as Hsome.
    destruct (answer arg t) as [r|] eqn:Ha; [|congruence].
    exists r. split; [reflexivity|]. intros Hv.
    apply plain_fold_get; try assumption.
    + eapply Permutation_NoDup; [|exact Hnd].
      apply Permutation_map. symmetry. apply order_perm.
    + eapply Permutation_in; [symmetry; apply order_perm|exact Ht].
  - intros k Hk. apply plain_fold_keys in Hk; [|exact Hplain'].
    destruct Hk as [Hk|(t & Ht & <-)]; [discriminate Hk|].
    assert (Ht' : In t (fst (collect opts params))).
    { eapply Permutation_in; [apply order_perm|exact Ht]. }
    split; [now apply (tasks_are_present opts params)|now apply (task_is_declared opts params)].
Qed.

Lemma result_holds_the_validated_fields_witness :
  In (None, Some [("ip", VStr "8.8.8.8")])
     (callbacks (trace (validateParams in_order
                          {| strict := None;
                             required := Some [("ip", calls_back (Validators.validateIP Sample.isIP))];
                             optional := None; after := None |}
                          VNull (VObj [("ip", VStr "8.8.8.8"); ("hal", VStr "1000")]))))
  /\ hasOwnProperty [("ip", VStr "8.8.8.8")] "hal" = false.
Proof.
  assert (H : In (None, Some [("ip", VStr "8.8.8.8")])
     (callbacks (trace (validateParams in_order
                          {| strict := None;
                             required := Some [("ip", calls_back (Validators.validateIP Sample.isIP))];
                             optional := None; after := None |}
                          VNull (VObj [("ip", VStr "8.8.8.8"); ("hal", VStr "1000")])))))
    by (left; reflexivity).
  split; [exact H|].
  assert (Hplain : forall t r,
             In t (fst (collect {| strict := None;
                                   required := Some [("ip", calls_back (Validators.validateIP Sample.isIP))];
                                   optional := None; after := None |}
                          [("ip", VStr "8.8.8.8"); ("hal", VStr "1000")])) ->
             answer VNull t = Some r ->
             multi r = VUndefined).
  { intros t r [<-|[]] [= <-]. reflexivity. }
  assert (Hnd : NoDup (map Task.field
                         (fst (collect {| strict := None;
                                   required := Some [("ip", calls_back (Validators.validateIP Sample.isIP))];
                                   optional := None; after := None |}
                          [("ip", VStr "8.8.8.8"); ("hal", VStr "1000")])))).
  { repeat constructor. intros []. }
  destruct (result_holds_the_validated_fields in_order _ VNull _ _ H Hplain Hnd)
    as [_ Hkeys].
  destruct (hasOwnProperty [("ip", VStr "8.8.8.8")] "hal") eqn:Hh; [|reflexivity].
  destruct (Hkeys "hal" Hh) as [_ Hd]. discriminate Hd.
Defined.

Section Undeclared.

Lemma present_ext (p1 p2 : object) (l : list (string * validator)) :
  (forall e, In e l -> get p1 (fst e) = get p2 (fst e)) ->
  present p1 l = present p2 l /\ absent p1 l = absent p2 l.
Proof.
  intros H. unfold present, absent, hasOwnProperty, prop.
  induction l as [|e l IH]; simpl; [now split|].
  rewrite (H e) by now left.
  destruct IH as [IH1 IH2]; [intros e' He'; apply H; now right|].
  destruct (get p2 (fst e)); simpl; rewrite IH1, IH2; split; try reflexivity.
  now rewrite (H e) by now left.
Qed.

Lemma entry_is_declared_required (opts : schema) (e : string * validator) :
  In e (opt_list (required opts)) -> declared opts (fst e) = true.
Proof.
  unfold declared. intros He.
  rewrite (hasOwnProperty_keys (opt_list (required opts)) (fst e));
    [reflexivity|now apply in_map].
Qed.

Lemma entry_is_declared_optional (opts : schema) (e : string * validator) :
  In e (opt_list (optional opts)) -> declared opts (fst e) = true.
Proof.
  unfold declared. intros He.
  rewrite (hasOwnProperty_keys (opt_list (optional opts)) (fst e));
    [|now apply in_map].
  apply orb_true_r.
Qed.

Lemma collect_ext (opts : schema) (p1 p2 : object) :
  (forall f, declared opts f = true -> get p1 f = get p2 f) ->
  collect opts p1 = collect opts p2.
Proof.
  intros H. unfold collect.
  destruct (present_ext p1 p2 (opt_list (required opts))) as [Hr Ha].
  { intros e He. apply H. now apply entry_is_declared_required. }
  destruct (present_ext p1 p2 (opt_list (optional opts))) as [Ho _].
  { intros e He. apply H. now apply entry_is_declared_optional. }
  now rewrite Hr, Ha, Ho.
Qed.

Lemma gather_ext (opts : schema) (p1 p2 : object) :
  (forall f, declared opts f = true -> get p1 f = get p2 f) ->
  hasOwnProperty p1 "hasOwnProperty" = hasOwnProperty p2 "hasOwnProperty" ->
  gather opts p1 = gather opts p2.
Proof.
  intros H Hs. destruct (hasOwnProperty p2 "hasOwnProperty") eqn:H2.
  - now rewrite (gather_shadowed _ _ Hs), (gather_shadowed _ _ H2).
  - rewrite (gather_collect _ _ Hs), (gather_collect _ _ H2).
    now rewrite (collect_ext opts p1 p2 H).
Qed.

End Undeclared.

(** X7: outside strict mode and with no after stage, a call depends on its
    input only through the declared fields and through whether the input
    has an own property named [hasOwnProperty]: two inputs that agree on
    both give the same events and the same outcome, so no other undeclared
    key fails the call or changes its result. *)
Theorem undeclared_keys_are_ignored
    (s : schedule) (opts : schema) (arg : value) (p1 p2 : object) :
  strict opts <> Some true ->
  after opts = None ->
  (forall f, declared opts f = true -> get p1 f = get p2 f) ->
  hasOwnProperty p1 "hasOwnProperty" = hasOwnProperty p2 "hasOwnProperty" ->
  trace (validateParams s opts arg (VObj p1))
  = trace (validateParams s opts arg (VObj p2)).
Proof.
  intros Hs Ha Hagree Hown. unfold validateParams.
  rewrite !object_is_object. cbn [props_of].
  rewrite (gather_ext opts p1 p2 Hagree Hown).
  destruct (gather opts p2) as [[toValidate errs0]|]; [|reflexivity].
  destruct (thrown_at arg toValidate); [reflexivity|].
  cbn [trace]. f_equal. unfold after_all. rewrite Ha.
  destruct (strict opts) as [[|]|]; [congruence|reflexivity|reflexivity].
Qed.

Lemma undeclared_keys_are_ignored_witness :
  strict Sample.both_schema <> Some true
  /\ after Sample.both_schema = None
  /\ (forall f, declared Sample.both_schema f = true ->
                get [("ip", VStr "x")] f = get [("ip", VStr "x"); ("hal", VStr "1000")] f)
  /\ hasOwnProperty [("ip", VStr "x")] "hasOwnProperty"
     = hasOwnProperty [("ip", VStr "x"); ("hal", VStr "1000")] "hasOwnProperty"
  /\ trace (validateParams in_order Sample.both_schema VNull (VObj [("ip", VStr "x")]))
     = trace (validateParams in_order Sample.both_schema VNull
                (VObj [("ip", VStr "x"); ("hal", VStr "1000")])).
Proof.
  assert (H1 : strict Sample.both_schema <> Some true) by discriminate.
  assert (H2 : after Sample.both_schema = None) by reflexivity.
  assert (H3 : forall f, declared Sample.both_schema f = true ->
                get [("ip", VStr "x")] f
                = get [("ip", VStr "x"); ("hal", VStr "1000")] f).
  { intros f Hf. destruct (String.eqb_spec "ip" f) as [<-|Hne]; [reflexivity|].
    apply String.eqb_neq in Hne.
    unfold declared, hasOwnProperty in Hf.
    cbn -[String.eqb] in Hf. rewrite Hne in Hf. discriminate Hf. }
  assert (H4 : hasOwnProperty [("ip", VStr "x")] "hasOwnProperty"
               = hasOwnProperty [("ip", VStr "x"); ("hal", VStr "1000")]
                   "hasOwnProperty") by reflexivity.
  split; [exact H1|]. split; [exact H2|]. split; [exact H3|]. split; [exact H4|].
  exact (undeclared_keys_are_ignored in_order Sample.both_schema VNull _ _
           H1 H2 H3 H4).
Defined.

(** X20: an input with an own property named [hasOwnProperty] makes the
    call throw as soon as the engine calls it as the method: at the first
    declared field, before any validator is invoked, when the schema
    declares one; in the strict check when it declares none and is strict.
    The callback is then never invoked.  Only a schema that declares no
    field and is not strict lets such an input through. *)
Theorem own_hasOwnProperty_makes_the_call_throw
    (s : schedule) (opts : schema) (arg : value) (params : object) :
  hasOwnProperty params "hasOwnProperty" = true ->
  (opt_list (required opts) ++ opt_list (optional opts) <> [] ->
   trace (validateParams s opts arg (VObj params)) = [Throws])
  /\ (opt_list (required opts) ++ opt_list (optional opts) = [] ->
      strict opts = Some true ->
      trace (validateParams s opts arg (VObj params)) = [Unknowns; Throws])
  /\ (opt_list (required opts) ++ opt_list (optional opts) = [] ->
      strict opts <> Some true ->
      ~ In Throws (trace (validateParams s opts arg (VObj params)))
      /\ exists err res,
           callbacks (trace (validateParams s opts arg (VObj params)))
           = [(err, res)]).
Proof.
  intros Hp. pose proof (gather_shadowed opts params Hp) as Hg.
  split; [|split].
  - intros Hne. unfold validateParams. rewrite object_is_object. cbn [props_of].
    rewrite Hg. destruct (opt_list (required opts) ++ opt_list (optional opts));
      [now elim Hne|reflexivity].
  - intros Hnil Hs. rewrite Hnil in Hg.
    unfold validateParams. rewrite object_is_object. cbn [props_of].
    rewrite Hg. cbn [thrown_at trace map app].
    now rewrite (after_all_throws opts arg (VObj params) _ Hs
                   (validateUnknowns_shadowed _ _ _ Hp)).
  - intros Hnil Hs. rewrite Hnil in Hg.
    assert (Hr : runs opts arg params).
    { pose proof (gather_some _ _ _ Hg) as Hc.
      split; [congruence|]. split; [now rewrite <- Hc|]. intros H. congruence. }
    destruct (call_reports s opts arg params Hr)
      as (pre & errs' & Htr & Hcb & _ & Hth & _).
    rewrite Htr.
    destruct (errResult_is_one_callback errs'
                (validatedParams (field_stage s opts arg params)))
      as (e & r & He & _).
    rewrite He. split.
    + intros H. apply in_app_or in H. destruct H as [H|[H|[]]];
        [now apply Hth|discriminate].
    + exists e, r. now rewrite callbacks_app, Hcb.
Qed.

Lemma own_hasOwnProperty_makes_the_call_throw_witness :
  hasOwnProperty [("hasOwnProperty", VStr "x"); ("ip", VStr "8.8.8.8")]
    "hasOwnProperty" = true
  /\ trace (validateParams in_order (Sample.ip_schema Sample.isIP) VNull
              Sample.shadowing)
     = [Throws].
Proof.
  assert (H : hasOwnProperty [("hasOwnProperty", VStr "x"); ("ip", VStr "8.8.8.8")]
                "hasOwnProperty" = true) by reflexivity.
  split; [exact H|].
  apply (proj1 (own_hasOwnProperty_makes_the_call_throw in_order
                  (Sample.ip_schema Sample.isIP) VNull _ H)).
  discriminate.
Defined.

(** * lib/common.js *)

Section Arrayify.

Lemma append_snoc (a b : string) (c : ascii) :
  ((a ++ String c "") ++ b = a ++ String c b)%string.
Proof. induction a as [|x a IH]; simpl; [reflexivity|now rewrite IH]. Qed.

Lemma append_empty (a : string) : (a ++ "")%string = a.
Proof. induction a as [|x a IH]; simpl; [reflexivity|now rewrite IH]. Qed.

Lemma split_from_nonempty (sep : ascii) (cur s : string) :
  split_from sep cur s <> [].
Proof.
  revert cur. induction s as [|c s IH]; intros cur; simpl; [discriminate|].
  destruct (Ascii.eqb c sep); [discriminate|apply IH].
Qed.

Lemma join_cons (sep x : string) (l : list string) :
  l <> [] -> join sep (x :: l) = (x ++ sep ++ join sep l)%string.
Proof. destruct l; [congruence|reflexivity]. Qed.

Lemma split_from_join (cur s : string) :
  join "," (split_from "," cur s) = (cur ++ s)%string.
Proof.
  revert cur. induction s as [|c s IH]; intros cur; simpl.
  - now rewrite append_empty.
  - destruct (Ascii.eqb_spec c ",") as [->|Hne].
    + rewrite join_cons by apply split_from_nonempty.
      now rewrite IH.
    + rewrite IH. apply append_snoc.
Qed.

Lemma contains_snoc (sep c : ascii) (a : string) :
  contains sep a = false -> Ascii.eqb c sep = false ->
  contains sep (a ++ String c "") = false.
Proof.
  intros Ha Hc. induction a as [|x a IH]; simpl in *.
  - now rewrite Hc.
  - apply orb_false_iff in Ha. destruct Ha as [Hx Ha].
    rewrite Hx. simpl. now apply IH.
Qed.

Lemma split_from_pieces (sep : ascii) (cur s : string) :
  contains sep cur = false ->
  Forall (fun p => contains sep p = false) (split_from sep cur s).
Proof.
  revert cur. induction s as [|c s IH]; intros cur Hcur; simpl.
  - now constructor.
  - destruct (Ascii.eqb c sep) eqn:Hc.
    + constructor; [exact Hcur|]. now apply IH.
    + apply IH. now apply contains_snoc.
Qed.

End Arrayify.

(** X8: [arrayify] loses nothing of a string: it yields an array of
    strings that hold no comma and that, joined by commas, give the string
    back; the array is empty for the empty string only; and an array is
    returned as it is. *)
Theorem arrayify_round_trip (s : string) (items : list value) :
  Common.arrayify (VArr items) = Some (VArr items)
  /\ exists pieces,
       Common.arrayify (VStr s) = Some (VArr (map VStr pieces))
       /\ join "," pieces = s
       /\ Forall (fun p => contains "," p = false) pieces
       /\ (pieces = [] <-> s = "").
Proof.
  split; [reflexivity|]. unfold Common.arrayify.
  change (typeof (VStr s) =? "object")%string with false. cbv iota.
  destruct (String.eqb_spec s "") as [->|Hne].
  - exists []. repeat split; constructor.
  - exists (split "," s). unfold split. repeat split.
    + apply split_from_join.
    + now apply split_from_pieces.
    + intros H. now apply split_from_nonempty in H.
    + intros H. congruence.
Qed.

(** * lib/validators.js, the other stock validators *)

Section SortedStrings.

Lemma default_compare_keyed (l : list string) :
  keyed default_compare (fun x => x) l.
Proof.
  intros a b _ _. unfold default_compare, str_gt, String.ltb.
  destruct (String.eqb_spec a b) as [->|Hne].
  - now rewrite string_compare_refl.
  - rewrite (String.compare_antisym b a).
    destruct (String.compare a b) eqn:Hc; simpl; try reflexivity.
    apply String.compare_eq_iff in Hc. congruence.
Qed.

Lemma sort_strings_sorted (l : list string) :
  StronglySorted (ascending (fun x => x)) (sort default_compare l).
Proof. apply sort_sorted, default_compare_keyed. Qed.

Lemma leb_neq_ltb (a b : string) :
  String.leb a b = true -> a <> b -> String.ltb a b = true.
Proof.
  unfold String.leb, String.ltb. intros Hle Hne.
  destruct (String.compare a b) eqn:Hc; try congruence.
  apply String.compare_eq_iff in Hc. congruence.
Qed.

Lemma ascending_strict (l : list string) :
  StronglySorted (ascending (fun x => x)) l -> NoDup l ->
  StronglySorted (fun a b => String.ltb a b = true) l.
Proof.
  induction 1 as [|a l Hs IH Hall]; intros Hnd; constructor.
  - apply IH. now inversion Hnd.
  - inversion Hnd as [|? ? Hnot _]; subst.
    rewrite Forall_forall in *. intros b Hb.
    apply leb_neq_ltb; [now apply Hall|]. intros ->. now apply Hnot.
Qed.

Lemma sorted_same_members (l1 l2 : list string) :
  StronglySorted (ascending (fun x => x)) l1 ->
  StronglySorted (ascending (fun x => x)) l2 ->
  NoDup l1 -> NoDup l2 ->
  (forall u, In u l1 <-> In u l2) ->
  l1 = l2.
Proof.
  intros H1 H2 N1 N2 Hm.
  apply (sorted_perm_eq (fun x => x)); try assumption.
  - now apply NoDup_Permutation.
  - now rewrite map_id.
Qed.

(** The sorted keys of a set of strings. *)
Lemma sort_keys (l : list string) :
  NoDup l ->
  StronglySorted (fun a b => String.ltb a b = true) (sort default_compare l)
  /\ NoDup (sort default_compare l)
  /\ (forall u, In u (sort default_compare l) <-> In u l).
Proof.
  intros Hnd.
  assert (Hnd' : NoDup (sort default_compare l)).
  { eapply Permutation_NoDup; [symmetry; apply sort_perm|exact Hnd]. }
  split; [|split; [exact Hnd'|]].
  - apply ascending_strict; [apply sort_strings_sorted|exact Hnd'].
  - intros u. split; apply Permutation_in;
      [apply sort_perm|symmetry; apply sort_perm].
Qed.

End SortedStrings.

Section Hashes.

Lemma hasOwnProperty_true {A : Type} (o : list (string * A)) (k : string) :
  hasOwnProperty o k = true -> In k (map fst o).
Proof.
  unfold hasOwnProperty. induction o as [|[k' v] o IH]; simpl; [discriminate|].
  destruct (String.eqb_spec k' k) as [->|Hne]; [now left|].
  intros H. right. now apply IH.
Qed.

Lemma keys_set (o : object) (k : string) (v : value) :
  keys (set o k v) = if hasOwnProperty o k then keys o else keys o ++ [k].
Proof.
  unfold keys, hasOwnProperty. induction o as [|[k' v'] o IH]; simpl.
  - reflexivity.
  - destruct (k' =? k)%string; simpl; [reflexivity|].
    rewrite IH. now destruct (get o k).
Qed.

Lemma keys_mark_in (o : object) (k u : string) :
  In u (keys (Stock.mark o k))
  <-> In u (keys o) \/ (u = k /\ k <> "__proto__").
Proof.
  unfold Stock.mark. destruct (String.eqb_spec k "__proto__") as [->|Hne].
  - split; [now left|]. intros [H|[_ H]]; [exact H|congruence].
  - rewrite keys_set. destruct (hasOwnProperty o k) eqn:Hk.
    + split; [now left|]. intros [H|[-> _]]; [exact H|].
      now apply hasOwnProperty_true.
    + rewrite in_app_iff. simpl. split.
      * intros [H|[<-|[]]]; [now left|now right].
      * intros [H|[-> _]]; [now left|right; now left].
Qed.

Lemma keys_mark_nodup (o : object) (k : string) :
  NoDup (keys o) -> NoDup (keys (Stock.mark o k)).
Proof.
  intros Hnd. unfold Stock.mark. destruct (k =? "__proto__")%string; [exact Hnd|].
  rewrite keys_set. destruct (hasOwnProperty o k) eqn:Hk; [exact Hnd|].
  apply NoDup_app; [exact Hnd|repeat constructor; intros []|].
  intros u Hu [<-|[]].
  apply (hasOwnProperty_keys o) in Hu. unfold keys in Hk. congruence.
Qed.

End Hashes.

Section UUIDArray.

Variable NumberToString : number -> string.

Lemma proto_is_no_uuid : Stock.UUID_RE "__proto__" = false.
Proof. reflexivity. Qed.

Lemma sort_uuid_fold (arr : list value) (inv val : object) :
  (NoDup (keys inv) ->
   NoDup (keys (fst (fold_left (Stock.sort_uuid NumberToString) arr (inv, val)))))
  /\ (NoDup (keys val) ->
      NoDup (keys (snd (fold_left (Stock.sort_uuid NumberToString) arr (inv, val)))))
  /\ (forall u,
        In u (keys (snd (fold_left (Stock.sort_uuid NumberToString) arr (inv, val))))
        <-> In u (keys val)
            \/ (In u (map (Validators.ToString NumberToString) arr)
                /\ Stock.UUID_RE u = true))
  /\ (forall u,
        In u (keys (fst (fold_left (Stock.sort_uuid NumberToString) arr (inv, val))))
        <-> In u (keys inv)
            \/ (In u (map (Validators.ToString NumberToString) arr)
                /\ Stock.UUID_RE u = false /\ u <> "__proto__")).
Proof.
  revert inv val. induction arr as [|x arr IH]; intros inv val.
  - simpl. repeat split; try tauto.
  - cbn [fold_left map]. unfold Stock.sort_uuid at 2 4 6 8, Stock.test.
    set (sx := Validators.ToString NumberToString x).
    destruct (Stock.UUID_RE sx) eqn:Hx.
    + destruct (IH inv (Stock.mark val sx)) as (I1 & I2 & I3 & I4).
      split; [exact I1|]. split; [intros H; now apply I2, keys_mark_nodup|].
      split; intros u.
      * rewrite I3, keys_mark_in. simpl. split.
        -- intros [[H|[-> _]]|[H1 H2]]; auto.
        -- intros [H|[[<-|H1] H2]]; auto.
           left. right. split; [reflexivity|].
           intros Heq. rewrite Heq, proto_is_no_uuid in Hx. discriminate.
      * rewrite I4. simpl. split.
        -- intros [H|(H1 & H2 & H3)]; auto.
        -- intros [H|([<-|H1] & H2 & H3)]; auto. congruence.
    + destruct (IH (Stock.mark inv sx) val) as (I1 & I2 & I3 & I4).
      split; [intros H; now apply I1, keys_mark_nodup|]. split; [exact I2|].
      split; intros u.
      * rewrite I3. simpl. split.
        -- intros [H|[H1 H2]]; auto.
        -- intros [H|[[<-|H1] H2]]; auto. congruence.
      * rewrite I4, keys_mark_in. simpl. split.
        -- intros [[H|[-> Hp]]|(H1 & H2 & H3)]; auto.
        -- intros [H|([<-|H1] & H2 & H3)]; auto.
Qed.

Lemma no_member_nil {X : Type} (l : list X) :
  (forall u, ~ In u l) -> l = [].
Proof. destruct l as [|x l]; [reflexivity|]. intros H. elim (H x). now left. Qed.

Lemma hashEmpty_keys (hash : object) :
  Common.hashEmpty hash = true <-> keys hash = [].
Proof. destruct hash; simpl; split; congruence. Qed.

(** [validateUUIDarray] on an array. *)
Lemma UUIDarray_on_items (arg : value) (name : string) (val : value)
    (elems : list value) :
  Common.arrayify val = Some (VArr elems) ->
  Stock.validateUUIDarray NumberToString arg name val
  = if negb (Common.hashEmpty
               (fst (fold_left (Stock.sort_uuid NumberToString) elems ([], []))))
    then Some (fail (mkError (Some (FStr name)) (Some "InvalidParameter")
                       (Some "invalid UUID")
                       (Some (sort default_compare
                                (keys (fst (fold_left (Stock.sort_uuid NumberToString)
                                              elems ([], []))))))
                       []))
    else Some (ok (VArr (map VStr
                           (sort default_compare
                              (keys (snd (fold_left (Stock.sort_uuid NumberToString)
                                            elems ([], [])))))))).
Proof.
  intros Ha. unfold Stock.validateUUIDarray.
  assert (Hg : negb (isArray val) && negb (typeof val =? "string")%string = false).
  { unfold Common.arrayify in Ha.
    destruct val; simpl in *; try discriminate; reflexivity. }
  rewrite Hg, Ha.
  destruct (fold_left (Stock.sort_uuid NumberToString) elems ([], [])) as [inv val'].
  reflexivity.
Qed.

Lemma strings_read_back (l : list string) :
  map (Validators.ToString NumberToString) (map VStr l) = l.
Proof. rewrite map_map. simpl. apply map_id. Qed.

End UUIDArray.

(** X9: when the UUID-array validator succeeds, its value is the array of
    the distinct UUIDs among the elements, each read as a string, in
    strictly ascending order; and validating that value again gives the
    same reply. *)
Theorem UUIDarray_sorts_and_dedups
    (NumberToString : number -> string) (arg : value) (name : string)
    (val : value) (elems : list value) (r : reply) :
  Common.arrayify val = Some (VArr elems) ->
  Stock.validateUUIDarray NumberToString arg name val = Some r ->
  err r = None ->
  exists out,
    validated r = VArr (map VStr out)
    /\ StronglySorted (fun a b => String.ltb a b = true) out
    /\ (forall u, In u out
                  <-> Stock.UUID_RE u = true
                      /\ In u (map (Validators.ToString NumberToString) elems))
    /\ Stock.validateUUIDarray NumberToString arg name (validated r) = Some r.
Proof.
  intros Ha Hr He. rewrite (UUIDarray_on_items _ _ _ _ _ Ha) in Hr.
  destruct (sort_uuid_fold NumberToString elems [] []) as (_ & Hnd & Hval & _).
  specialize (Hnd (NoDup_nil _)).
  destruct (Common.hashEmpty
              (fst (fold_left (Stock.sort_uuid NumberToString) elems ([], []))))
    eqn:Hempty;
    simpl in Hr; injection Hr as <-; [|discriminate He].
  set (valid := keys (snd (fold_left (Stock.sort_uuid NumberToString) elems ([], [])))) in *.
  destruct (sort_keys valid Hnd) as (Hsorted & Hnd' & Hmem).
  exists (sort default_compare valid). split; [reflexivity|].
  split; [exact Hsorted|]. split.
  - intros u. rewrite Hmem. unfold valid. rewrite Hval. simpl. tauto.
  - simpl validated.
    rewrite (UUIDarray_on_items _ arg name _ (map VStr (sort default_compare valid)))
      by reflexivity.
    destruct (sort_uuid_fold NumberToString (map VStr (sort default_compare valid)) [] [])
      as (_ & Hnd2 & Hval2 & Hinv2).
    specialize (Hnd2 (NoDup_nil _)).
    assert (Hnone : keys (fst (fold_left (Stock.sort_uuid NumberToString)
                                 (map VStr (sort default_compare valid)) ([], []))) = []).
    { apply no_member_nil. intros u Hu. apply Hinv2 in Hu. simpl in Hu.
      destruct Hu as [[]|(Hu & Hbad & _)].
      rewrite strings_read_back in Hu. apply Hmem in Hu.
      unfold valid in Hu. apply Hval in Hu. simpl in Hu.
      destruct Hu as [[]|[_ Hu]]. congruence. }
    apply hashEmpty_keys in Hnone. rewrite Hnone. simpl.
    do 4 f_equal.
    destruct (sort_keys _ Hnd2) as (Hs2 & Hn2 & Hm2).
    apply sorted_same_members; try assumption; try apply sort_strings_sorted.
    intros u. rewrite Hm2, Hval2, strings_read_back. simpl. split.
    + intros [[]|[Hu _]]. exact Hu.
    + intros Hu. right. split; [exact Hu|].
      apply Hmem in Hu. unfold valid in Hu. apply Hval in Hu. simpl in Hu.
      now destruct Hu as [[]|[_ Hu]].
Qed.

Lemma UUIDarray_sorts_and_dedups_witness :
  Common.arrayify
    (VArr [VStr "ee985c08-aadb-11e6-a317-bb60373c8455";
           VStr "1719a244-ab78-11e6-bd7e-c71f1a793a36";
           VStr "ee985c08-aadb-11e6-a317-bb60373c8455"])
  = Some (VArr [VStr "ee985c08-aadb-11e6-a317-bb60373c8455";
                VStr "1719a244-ab78-11e6-bd7e-c71f1a793a36";
                VStr "ee985c08-aadb-11e6-a317-bb60373c8455"])
  /\ Stock.validateUUIDarray (fun _ => "0") VNull "uuid"
       (VArr [VStr "ee985c08-aadb-11e6-a317-bb60373c8455";
              VStr "1719a244-ab78-11e6-bd7e-c71f1a793a36";
              VStr "ee985c08-aadb-11e6-a317-bb60373c8455"])
     = Some (ok (VArr [VStr "1719a244-ab78-11e6-bd7e-c71f1a793a36";
                       VStr "ee985c08-aadb-11e6-a317-bb60373c8455"]))
  /\ exists out,
       VArr [VStr "1719a244-ab78-11e6-bd7e-c71f1a793a36";
             VStr "ee985c08-aadb-11e6-a317-bb60373c8455"] = VArr (map VStr out)
       /\ StronglySorted (fun a b => String.ltb a b = true) out.
Proof.
  assert (H1 : Common.arrayify
    (VArr [VStr "ee985c08-aadb-11e6-a317-bb60373c8455";
           VStr "1719a244-ab78-11e6-bd7e-c71f1a793a36";
           VStr "ee985c08-aadb-11e6-a317-bb60373c8455"])
  = Some (VArr [VStr "ee985c08-aadb-11e6-a317-bb60373c8455";
                VStr "1719a244-ab78-11e6-bd7e-c71f1a793a36";
                VStr "ee985c08-aadb-11e6-a317-bb60373c8455"])) by reflexivity.
  assert (H2 : Stock.validateUUIDarray (fun _ => "0") VNull "uuid"
       (VArr [VStr "ee985c08-aadb-11e6-a317-bb60373c8455";
              VStr "1719a244-ab78-11e6-bd7e-c71f1a793a36";
              VStr "ee985c08-aadb-11e6-a317-bb60373c8455"])
     = Some (ok (VArr [VStr "1719a244-ab78-11e6-bd7e-c71f1a793a36";
                       VStr "ee985c08-aadb-11e6-a317-bb60373c8455"])))
    by reflexivity.
  split; [exact H1|]. split; [exact H2|].
  destruct (UUIDarray_sorts_and_dedups _ _ _ _ _ _ H1 H2 eq_refl)
    as (out & Hout & Hs & _).
  exists out. split; [exact Hout|exact Hs].
Defined.



Section Patterns.

Lemma hex_or_dash_facts (c : ascii) :
  is_hex_or_dash c = true ->
  Ascii.eqb c "*" = false /\ is_space c = false /\ Stock.is_prefix_char c = true.
Proof.
  destruct c as [[] [] [] [] [] [] [] []]; intros H; try discriminate H;
    repeat split.
Qed.

Lemma prefix_char_cases (c : ascii) :
  Stock.is_prefix_char c = true -> Ascii.eqb c "*" = false ->
  is_hex_or_dash c = true.
Proof.
  unfold Stock.is_prefix_char, is_hex_or_dash. intros H Hs. rewrite Hs in H.
  now rewrite orb_false_r in H.
Qed.

Lemma hex_is_hex_or_dash (c : ascii) :
  Stock.is_hex c = true -> is_hex_or_dash c = true.
Proof. unfold is_hex_or_dash. now intros ->. Qed.

Lemma all_chars_app (p : ascii -> bool) (a b : string) :
  Stock.all_chars p (a ++ b) = Stock.all_chars p a && Stock.all_chars p b.
Proof.
  induction a as [|c a IH]; simpl; [reflexivity|].
  now rewrite IH, andb_assoc.
Qed.

Lemma count_app (c : ascii) (a b : string) :
  Stock.count c (a ++ b) = (Stock.count c a + Stock.count c b)%nat.
Proof.
  induction a as [|x a IH]; simpl; [reflexivity|]. rewrite IH. lia.
Qed.

Lemma length_app (a b : string) :
  String.length (a ++ b) = (String.length a + String.length b)%nat.
Proof. induction a as [|x a IH]; simpl; [reflexivity|now rewrite IH]. Qed.

Lemma remove_spaces_app (a b : string) :
  remove_spaces (a ++ b) = (remove_spaces a ++ remove_spaces b)%string.
Proof.
  induction a as [|x a IH]; simpl; [reflexivity|].
  destruct (is_space x); simpl; now rewrite IH.
Qed.

Lemma ends_with_split (c : ascii) (s : string) :
  Stock.ends_with c s = true -> exists p, s = (p ++ String c "")%string.
Proof.
  induction s as [|x s IH]; simpl; [discriminate|].
  destruct s as [|y s].
  - intros H. apply Ascii.eqb_eq in H. subst x. now exists ""%string.
  - intros H. destruct (IH H) as [p Hp]. exists (String x p).
    simpl. now rewrite <- Hp.
Qed.

Lemma ends_with_snoc (c : ascii) (p : string) :
  Stock.ends_with c (p ++ String c "") = true.
Proof.
  induction p as [|x p IH]; simpl; [apply Ascii.eqb_refl|].
  destruct (p ++ String c "")%string eqn:Hp; [|exact IH].
  destruct p; discriminate.
Qed.

Lemma hex_or_dash_string (s : string) :
  Stock.all_chars is_hex_or_dash s = true ->
  Stock.count "*" s = 0%nat
  /\ remove_spaces s = s
  /\ Stock.all_chars Stock.is_prefix_char s = true.
Proof.
  induction s as [|c s IH]; simpl; [now repeat split|].
  intros H. apply andb_prop in H. destruct H as [Hc Hs].
  destruct (hex_or_dash_facts c Hc) as (H1 & H2 & H3).
  destruct (IH Hs) as (I1 & I2 & I3).
  rewrite H1, H2, H3, I1, I2, I3. now repeat split.
Qed.

Lemma starless_prefix (s : string) :
  Stock.all_chars Stock.is_prefix_char s = true ->
  Stock.count "*" s = 0%nat ->
  Stock.all_chars is_hex_or_dash s = true.
Proof.
  induction s as [|c s IH]; simpl; [reflexivity|].
  intros H Hc. apply andb_prop in H. destruct H as [Hp Hs].
  destruct (Ascii.eqb c "*") eqn:Hstar; [discriminate Hc|].
  rewrite (prefix_char_cases c Hp Hstar). simpl. now apply IH.
Qed.

Lemma hex_run_consumes (n : nat) (s : string) :
  consumes n (Stock.hex_run n s) s.
Proof.
  revert s. induction n as [|n IH]; intros s rest; simpl.
  - intros [= <-]. now exists ""%string.
  - destruct s as [|c s]; [discriminate|].
    destruct (Stock.is_hex c) eqn:Hc; [|discriminate].
    intros H. destruct (IH s rest H) as (pre & -> & Hall & Hlen).
    exists (String c pre). simpl.
    rewrite (hex_is_hex_or_dash c Hc), Hall, Hlen. now repeat split.
Qed.

Lemma dash_consumes (s : string) : consumes 1 (Stock.dash s) s.
Proof.
  intros rest. destruct s as [|c s]; simpl; [discriminate|].
  destruct (Ascii.eqb_spec c "-") as [->|Hne]; [|discriminate].
  intros [= <-]. exists "-"%string. now repeat split.
Qed.

Lemma consumes_then (n m : nat) (o : option string) (f : string -> option string)
    (s : string) :
  consumes n o s -> (forall mid, consumes m (f mid) mid) ->
  consumes (n + m) (Stock.and_then o f) s.
Proof.
  intros Ho Hf rest. destruct o as [mid|]; simpl; [|discriminate].
  intros H. destruct (Ho mid eq_refl) as (pre & -> & Hall & Hlen).
  destruct (Hf mid rest H) as (pre' & -> & Hall' & Hlen').
  exists (pre ++ pre')%string.
  rewrite all_chars_app, length_app, Hall, Hall', Hlen, Hlen'.
  repeat split. clear. induction pre as [|c pre IH]; simpl; [reflexivity|now rewrite IH].
Qed.

(** A string that matches [UUID_RE] has 36 characters, hex digits and
    dashes. *)
Lemma UUID_RE_shape (s : string) :
  Stock.UUID_RE s = true ->
  Stock.all_chars is_hex_or_dash s = true /\ String.length s = 36%nat.
Proof.
  unfold Stock.UUID_RE.
  pose proof (consumes_then _ _ _ _ s
               (consumes_then _ _ _ _ s
                 (consumes_then _ _ _ _ s
                   (consumes_then _ _ _ _ s
                     (consumes_then _ _ _ _ s
                       (consumes_then _ _ _ _ s
                         (consumes_then _ _ _ _ s
                           (consumes_then _ _ _ _ s (hex_run_consumes 8 s) dash_consumes)
                           (hex_run_consumes 4))
                         dash_consumes)
                       (hex_run_consumes 4))
                     dash_consumes)
                   (hex_run_consumes 4))
                 dash_consumes)
               (hex_run_consumes 12)) as Hc.
  destruct (Stock.and_then _ (Stock.hex_run 12)) as [rest|]; [|discriminate].
  intros Hrest. apply String.eqb_eq in Hrest. subst rest.
  destruct (Hc ""%string eq_refl) as (pre & -> & Hall & Hlen).
  rewrite append_empty. split; [exact Hall|exact Hlen].
Qed.

End Patterns.

Section UUIDPrefix.

Variable NumberToString : number -> string.

Lemma isValidUUID_string (s : string) :
  Stock.isValidUUID NumberToString (VStr s) = Stock.UUID_RE s.
Proof.
  unfold Stock.isValidUUID, Stock.test. simpl.
  now destruct (Stock.UUID_RE s).
Qed.

Lemma nonempty_snoc (p : string) (c : ascii) : (p ++ String c "")%string <> ""%string.
Proof. destruct p; discriminate. Qed.

(** The prefix validator accepts a string with a star. *)
Lemma uuidPrefix_takes_prefix (arg : value) (name p : string) :
  Stock.all_chars is_hex_or_dash p = true ->
  (String.length p <= 63)%nat ->
  Stock.validateUUIDPrefix NumberToString arg name (VStr (p ++ "*"))
  = ok (VStr (p ++ "*")).
Proof.
  intros Hp Hlen. destruct (hex_or_dash_string p Hp) as (Hc & Hr & Hpre).
  unfold Stock.validateUUIDPrefix.
  rewrite length_app, remove_spaces_app, count_app, Hc, Hr. simpl.
  assert (H1 : (Constants.MAX_STR_LEN <? Z.of_nat (String.length p + 1))%Z = false).
  { apply Z.ltb_ge. unfold Constants.MAX_STR_LEN. lia. }
  rewrite H1.
  assert (H2 : ((p ++ "*") =? "")%string = false).
  { apply String.eqb_neq. apply nonempty_snoc. }
  rewrite H2. simpl.
  rewrite ends_with_snoc. simpl.
  unfold Stock.PREFIX_RE. rewrite H2, all_chars_app, Hpre. simpl. reflexivity.
Qed.

(** The prefix validator accepts a UUID. *)
Lemma uuidPrefix_takes_uuid (arg : value) (name s : string) :
  Stock.UUID_RE s = true ->
  Stock.validateUUIDPrefix NumberToString arg name (VStr s) = ok (VStr s).
Proof.
  intros Hu. destruct (UUID_RE_shape s Hu) as [Hall Hlen].
  destruct (hex_or_dash_string s Hall) as (Hc & Hr & _).
  unfold Stock.validateUUIDPrefix.
  rewrite Hlen, Hr, Hc, isValidUUID_string, Hu. simpl.
  assert (H2 : (s =? "")%string = false).
  { apply String.eqb_neq. intros ->. discriminate Hlen. }
  now rewrite H2.
Qed.

(** What the prefix validator accepts. *)
Lemma uuidPrefix_accepted (arg : value) (name s : string) :
  err (Stock.validateUUIDPrefix NumberToString arg name (VStr s)) = None ->
  Stock.UUID_RE s = true
  \/ exists p, s = (p ++ "*")%string
               /\ Stock.all_chars is_hex_or_dash p = true
               /\ (String.length p <= 63)%nat.
Proof.
  unfold Stock.validateUUIDPrefix. rewrite isValidUUID_string.
  destruct (Constants.MAX_STR_LEN <? Z.of_nat (String.length s))%Z eqn:H1;
    [discriminate|].
  destruct (remove_spaces s =? "")%string; [discriminate|].
  destruct (1 <? Stock.count "*" s)%nat eqn:H3; [discriminate|].
  apply Nat.ltb_ge in H3.
  destruct (0 <? Stock.count "*" s)%nat eqn:H0; simpl.
  - apply Nat.ltb_lt in H0.
    destruct (Stock.ends_with "*" s) eqn:He; [|discriminate]. simpl.
    destruct (Stock.PREFIX_RE s) eqn:Hp; [|discriminate]. simpl.
    intros _. right.
    destruct (ends_with_split _ _ He) as [p ->]. exists p.
    rewrite count_app in H0, H3. simpl in H0, H3.
    unfold Stock.PREFIX_RE in Hp. apply andb_prop in Hp. destruct Hp as [_ Hp].
    rewrite all_chars_app in Hp. apply andb_prop in Hp. destruct Hp as [Hp _].
    split; [reflexivity|]. split.
    + apply starless_prefix; [exact Hp|lia].
    + apply Z.ltb_ge in H1. rewrite length_app in H1.
      unfold Constants.MAX_STR_LEN in H1. simpl in H1. lia.
  - apply Nat.ltb_ge in H0.
    assert (Hz : (Stock.count "*" s =? 0)%nat = true) by (apply Nat.eqb_eq; lia).
    rewrite Hz. simpl.
    destruct (Stock.UUID_RE s); [now left|discriminate].
Qed.

End UUIDPrefix.

(** X11: the UUID-prefix validator accepts exactly the strings that are a
    UUID, or that are made of at most 63 hex digits and dashes followed by
    one star (the star alone included); what it accepts it reports
    unchanged, and it accepts nothing that is not a string. *)
Theorem uuidPrefix_accepts_uuids_and_prefixes
    (NumberToString : number -> string) (arg : value) (name : string)
    (str : value) :
  err (Stock.validateUUIDPrefix NumberToString arg name str) = None
  <-> exists s,
        str = VStr s
        /\ validated (Stock.validateUUIDPrefix NumberToString arg name str) = str
        /\ (Stock.UUID_RE s = true
            \/ exists p, s = (p ++ "*")%string
                         /\ Stock.all_chars is_hex_or_dash p = true
                         /\ (String.length p <= 63)%nat).
Proof.
  split.
  - intros He. destruct str as [| | | |s| |]; try discriminate He.
    exists s. split; [reflexivity|].
    pose proof (uuidPrefix_accepted NumberToString arg name s He) as Hs.
    split; [|exact Hs].
    destruct Hs as [Hu|(p & -> & Hp & Hlen)].
    + now rewrite uuidPrefix_takes_uuid.
    + now rewrite uuidPrefix_takes_prefix.
  - intros (s & -> & _ & [Hu|(p & -> & Hp & Hlen)]).
    + now rewrite uuidPrefix_takes_uuid.
    + now rewrite uuidPrefix_takes_prefix.
Qed.

(** X12: a string without a star that is not a UUID is reported by the
    UUID-prefix validator against the field [Invalid UUID], with the
    default message, whatever the parameter is called; a call of the engine
    on such a parameter, under any name but [hasOwnProperty], fails with
    that one error. *)
Theorem uuidPrefix_names_the_wrong_field
    (NumberToString : number -> string) (sch : schedule) (arg : value)
    (name s : string) :
  (Z.of_nat (String.length s) <= Constants.MAX_STR_LEN)%Z ->
  remove_spaces s <> "" ->
  Stock.count "*" s = 0%nat ->
  Stock.UUID_RE s = false ->
  name <> "hasOwnProperty" ->
  Stock.validateUUIDPrefix NumberToString arg name (VStr s)
  = fail (mkError (Some (FStr "Invalid UUID")) (Some "InvalidParameter")
            (Some "Invalid parameters") None [])
  /\ trace (validateParams sch
              {| strict := None;
                 required :=
                   Some [(name, calls_back (Stock.validateUUIDPrefix NumberToString))];
                 optional := None;
                 after := None |}
              arg (VObj [(name, VStr s)]))
     = [Validate name;
        Callback
          (Some (InvalidParamsError "Invalid parameters"
                   [mkError (Some (FStr "Invalid UUID")) (Some "InvalidParameter")
                      (Some "Invalid parameters") None []]))
          None].
Proof.
  intros Hlen Hblank Hstars Hre Hname.
  assert (Hv : Stock.validateUUIDPrefix NumberToString arg name (VStr s)
               = fail (mkError (Some (FStr "Invalid UUID")) (Some "InvalidParameter")
                         (Some "Invalid parameters") None [])).
  { unfold Stock.validateUUIDPrefix.
    rewrite isValidUUID_string, Hstars, Hre.
    apply Z.ltb_ge in Hlen. rewrite Hlen.
    apply String.eqb_neq in Hblank. rewrite Hblank. reflexivity. }
  split; [exact Hv|].
  apply String.eqb_neq in Hname.
  unfold validateParams. rewrite object_is_object.
  unfold gather.
  cbn [required optional after strict props_of fold_left scan_required].
  unfold own, hasOwnProperty, prop. cbn [get].
  rewrite Hname, !String.eqb_refl. cbn [app thrown_at Task.fn Task.field Task.val].
  unfold calls_back at 1.
  assert (Ho : order sch
                 [Task.mk name (calls_back (Stock.validateUUIDPrefix NumberToString))
                    (VStr s)]
               = [Task.mk name (calls_back (Stock.validateUUIDPrefix NumberToString))
                    (VStr s)]).
  { apply Permutation_length_1_inv. symmetry. apply order_perm. }
  rewrite Ho. cbn [fold_left]. unfold _callValidateFn, calls_back.
  cbn [Task.fn Task.field Task.val]. rewrite Hv. reflexivity.
Qed.

Lemma uuidPrefix_names_the_wrong_field_witness :
  (Z.of_nat (String.length "deadbeef") <= Constants.MAX_STR_LEN)%Z
  /\ remove_spaces "deadbeef" <> ""
  /\ Stock.count "*" "deadbeef" = 0%nat
  /\ Stock.UUID_RE "deadbeef" = false
  /\ "uuid" <> "hasOwnProperty"
  /\ Stock.validateUUIDPrefix (fun _ => "0") VNull "uuid" (VStr "deadbeef")
     = fail (mkError (Some (FStr "Invalid UUID")) (Some "InvalidParameter")
               (Some "Invalid parameters") None []).
Proof.
  assert (H1 : (Z.of_nat (String.length "deadbeef") <= Constants.MAX_STR_LEN)%Z)
    by (vm_compute; discriminate).
  assert (H2 : remove_spaces "deadbeef" <> "") by discriminate.
  assert (H3 : Stock.count "*" "deadbeef" = 0%nat) by reflexivity.
  assert (H4 : Stock.UUID_RE "deadbeef" = false) by reflexivity.
  assert (H5 : "uuid" <> "hasOwnProperty") by discriminate.
  split; [exact H1|]. split; [exact H2|]. split; [exact H3|]. split; [exact H4|].
  split; [exact H5|].
  exact (proj1 (uuidPrefix_names_the_wrong_field (fun _ => "0") in_order VNull
                  "uuid" "deadbeef" H1 H2 H3 H4 H5)).
Defined.

Section Strings.

Lemma first_bad_string_none (name : string) (items : list value) :
  Stock.first_bad_string name items = None <-> forallb nonblank items = true.
Proof.
  induction items as [|v items IH]; simpl; [tauto|].
  destruct v; simpl; try (split; discriminate).
  destruct (remove_spaces s =? "")%string; simpl; [split; discriminate|exact IH].
Qed.

Lemma first_bad_string_found (name : string) (good : list value) (bad : value)
    (rest : list value) :
  forallb nonblank good = true ->
  nonblank bad = false ->
  Stock.first_bad_string name (good ++ bad :: rest)
  = Some (invalidParam name
            match bad with
            | VStr _ => Stock.STR_EMPTY
            | _ => Some Constants.msg.ARRAY_OF_STR
            end).
Proof.
  intros Hgood Hbad. induction good as [|v good IH]; simpl in *.
  - destruct bad; try reflexivity. simpl in Hbad.
    apply negb_false_iff in Hbad. now rewrite Hbad.
  - apply andb_prop in Hgood. destruct Hgood as [Hv Hgood].
    destruct v; try discriminate Hv. simpl in Hv.
    apply negb_true_iff in Hv. rewrite Hv. now apply IH.
Qed.

Lemma first_bad_field_none (fields : list string) (name : string)
    (items : list value) :
  Stock.first_bad_field fields name items = None
  <-> forallb (among fields) items = true.
Proof.
  induction items as [|v items IH]; simpl; [tauto|].
  destruct v; simpl; try (split; discriminate).
  unfold Stock.not_among.
  destruct (existsb (String.eqb s) fields); simpl; [exact IH|split; discriminate].
Qed.

Lemma validateString_accepts (arg : value) (name : string) (val : value) :
  err (Stock.validateString arg name val) = None
  <-> exists s, val = VStr s /\ nonblank val = true
                /\ (String.length s <= 64)%nat.
Proof.
  unfold Stock.validateString. destruct val as [| | | |s| |];
    try (split; [discriminate|intros (s' & H & _); discriminate H]).
  destruct (Constants.MAX_STR_LEN <? Z.of_nat (String.length s))%Z eqn:Hlen.
  - split; [discriminate|]. intros (s' & [= <-] & _ & H).
    apply Z.ltb_lt in Hlen. unfold Constants.MAX_STR_LEN in Hlen. lia.
  - apply Z.ltb_ge in Hlen. unfold Constants.MAX_STR_LEN in Hlen. simpl.
    destruct (remove_spaces s =? "")%string; simpl.
    + split; [discriminate|]. intros (s' & _ & H & _). discriminate H.
    + split; [|reflexivity]. intros _. exists s. repeat split. lia.
Qed.

Lemma validateStringArray_accepts (arg : value) (name : string) (val : value) :
  err (Stock.validateStringArray arg name val) = None
  <-> exists items, val = VArr items /\ items <> []
                    /\ forallb nonblank items = true.
Proof.
  unfold Stock.validateStringArray. destruct val as [| | | | |items|];
    try (split; [discriminate|intros (i & H & _); discriminate H]).
  destruct items as [|v items].
  - simpl. split; [discriminate|]. intros (i & [= <-] & H & _). congruence.
  - cbn [List.length Nat.eqb].
    destruct (Stock.first_bad_string name (v :: items)) eqn:Hf; simpl.
    + split; [discriminate|]. intros (i & [= <-] & _ & H).
      apply (first_bad_string_none name) in H. congruence.
    + split; [|reflexivity]. intros _. exists (v :: items).
      split; [reflexivity|]. split; [discriminate|].
      now apply (first_bad_string_none name).
Qed.

Lemma accepted_value_is_kept (arg : value) (name : string) (val : value) :
  (err (Stock.validateString arg name val) = None ->
   validated (Stock.validateString arg name val) = val)
  /\ (err (Stock.validateStringArray arg name val) = None ->
      validated (Stock.validateStringArray arg name val) = val).
Proof.
  unfold Stock.validateString, Stock.validateStringArray. split.
  - destruct val; try discriminate.
    destruct (Constants.MAX_STR_LEN <? _)%Z; [discriminate|].
    now destruct (remove_spaces s =? "")%string.
  - destruct val; try discriminate.
    destruct (List.length items =? 0)%nat; [discriminate|].
    now destruct (Stock.first_bad_string name items).
Qed.

End Strings.

(** X13: the string-or-array validator accepts exactly a string of at most
    64 characters that holds more than white space, or a non-empty array of
    strings that each hold more than white space, and reports the value
    unchanged; a string it rejects, too long or blank, is always reported
    with the message of the array check, 'must be an array of strings'. *)
Theorem stringOrArray_accepts_either
    (arg : value) (name : string) (val : value) :
  (err (Stock.validateStringOrArray arg name val) = None
   <-> (exists s, val = VStr s /\ nonblank val = true
                  /\ (String.length s <= 64)%nat)
       \/ (exists items, val = VArr items /\ items <> []
                         /\ forallb nonblank items = true))
  /\ (err (Stock.validateStringOrArray arg name val) = None ->
      validated (Stock.validateStringOrArray arg name val) = val)
  /\ (forall s, val = VStr s ->
        err (Stock.validateStringOrArray arg name val) <> None ->
        Stock.validateStringOrArray arg name val
        = fail (invalidParam name (Some "must be an array of strings"))).
Proof.
  pose proof (validateString_accepts VNull name val) as Hs.
  pose proof (validateStringArray_accepts VNull name val) as Ha.
  destruct (accepted_value_is_kept VNull name val) as [Ks Ka].
  unfold Stock.validateStringOrArray.
  destruct (err (Stock.validateString VNull name val)) as [e|] eqn:He.
  - split; [|split].
    + rewrite Ha. split; [now right|]. intros [H|H]; [|exact H].
      apply Hs in H. discriminate H.
    + exact Ka.
    + intros s -> _. reflexivity.
  - split; [|split].
    + simpl. split; [intros _; left; now apply Hs|reflexivity].
    + intros _. simpl. now apply Ks.
    + intros s _ H. now elim H.
Qed.

(** X14: the string-array validator stops at the first element that is not
    a string holding more than white space, and what follows it has no
    effect: an element that is no string is reported with 'must be an array
    of strings', a blank string with the default message 'Invalid
    parameters', the constants having no message for it. *)
Theorem stringArray_reports_the_first_offender
    (arg : value) (name : string) (good : list value) (bad : value)
    (rest : list value) :
  forallb nonblank good = true ->
  nonblank bad = false ->
  Stock.validateStringArray arg name (VArr (good ++ bad :: rest))
  = fail (mkError (Some (FStr name)) (Some "InvalidParameter")
            (Some match bad with
                  | VStr _ => "Invalid parameters"
                  | _ => "must be an array of strings"
                  end)
            None []).
Proof.
  intros Hgood Hbad. unfold Stock.validateStringArray.
  assert (Hlen : (List.length (good ++ bad :: rest) =? 0)%nat = false).
  { rewrite List.length_app. simpl. apply Nat.eqb_neq. lia. }
  rewrite Hlen, (first_bad_string_found name good bad rest Hgood Hbad).
  now destruct bad.
Qed.

Lemma stringArray_reports_the_first_offender_witness :
  forallb nonblank [VStr "a"] = true
  /\ nonblank (VStr "  ") = false
  /\ Stock.validateStringArray VNull "strs" (VArr ([VStr "a"] ++ VStr "  " :: [VNull]))
     = fail (mkError (Some (FStr "strs")) (Some "InvalidParameter")
               (Some "Invalid parameters") None []).
Proof.
  assert (H1 : forallb nonblank [VStr "a"] = true) by reflexivity.
  assert (H2 : nonblank (VStr "  ") = false) by reflexivity.
  split; [exact H1|]. split; [exact H2|].
  exact (stringArray_reports_the_first_offender VNull "strs" [VStr "a"]
           (VStr "  ") [VNull] H1 H2).
Defined.

(** X15: the fields-array validator built from an allow-list accepts
    exactly a non-empty array, no longer than the allow-list, of strings of
    the allow-list, repeated or not, and reports the array unchanged. *)
Theorem fieldsArray_accepts_allowed_names
    (fields : list string) (arg : value) (name : string) (arr : value) :
  (err (Stock.validateFieldsArray fields arg name arr) = None
   <-> exists items, arr = VArr items /\ items <> []
                     /\ (List.length items <= List.length fields)%nat
                     /\ forallb (among fields) items = true)
  /\ (err (Stock.validateFieldsArray fields arg name arr) = None ->
      validated (Stock.validateFieldsArray fields arg name arr) = arr).
Proof.
  unfold Stock.validateFieldsArray. destruct arr as [| | | | |items|];
    try (split; [split; [discriminate|intros (i & H & _); discriminate H]
                |discriminate]).
  destruct items as [|v items].
  - simpl. split; [|discriminate].
    split; [discriminate|]. intros (i & [= <-] & H & _). congruence.
  - cbn [List.length Nat.eqb].
    destruct (List.length fields <? S (List.length items))%nat eqn:Hlen.
    + split; [|discriminate]. split; [discriminate|].
      intros (i & [= <-] & _ & H & _). apply Nat.ltb_lt in Hlen. simpl in H. lia.
    + apply Nat.ltb_ge in Hlen.
      destruct (Stock.first_bad_field fields name (v :: items)) eqn:Hf; simpl.
      * split; [|discriminate]. split; [discriminate|].
        intros (i & [= <-] & _ & _ & H).
        apply (first_bad_field_none fields name) in H. congruence.
      * split; [|reflexivity]. split; [|reflexivity]. intros _.
        exists (v :: items). split; [reflexivity|]. split; [discriminate|].
        split; [exact Hlen|]. now apply (first_bad_field_none fields name).
Qed.

Section Ranges.

Variable StringToNumber : string -> number.
Variable NumberToString : number -> string.

Lemma not_lt_fin (q : Q) (z : Z) :
  num_lt (Fin q) (of_Z z) = false -> inject_Z z <= q.
Proof.
  unfold num_lt, of_Z. intros H. apply negb_false_iff in H.
  now apply Qle_bool_iff.
Qed.

Lemma not_gt_fin (q : Q) (z : Z) :
  num_lt (of_Z z) (Fin q) = false -> q <= inject_Z z.
Proof.
  unfold num_lt, of_Z. intros H. apply negb_false_iff in H.
  now apply Qle_bool_iff.
Qed.

Lemma whole_fin (n : number) :
  isNaN n = false -> num_eq (floor n) n = true ->
  n = PosInf \/ n = NegInf \/ integral n.
Proof.
  destruct n as [| | |q]; simpl; intros Hn He; try discriminate; auto.
  right. right. now apply Qeq_bool_iff.
Qed.

(** What the limit validator does, by the type of its value. *)
Lemma validateLimit_cases (arg : value) (name : string) (val : value) (r : reply) :
  Validators.validateLimit StringToNumber NumberToString arg name val = Some r ->
  err r = None ->
  r = ok (VNum (Validators.Number StringToNumber NumberToString val))
  /\ isNaN (Validators.Number StringToNumber NumberToString val) = false
  /\ num_lt (Validators.Number StringToNumber NumberToString val)
       (of_Z Constants.MIN_LIMIT) = false
  /\ num_lt (of_Z Constants.MAX_LIMIT)
       (Validators.Number StringToNumber NumberToString val) = false
  /\ (typeof val = "string" ->
      num_eq (floor (Validators.Number StringToNumber NumberToString val))
        (Validators.Number StringToNumber NumberToString val) = true).
Proof.
  unfold Validators.validateLimit.
  set (id := Validators.Number StringToNumber NumberToString val).
  assert (Hrange : forall r,
    (if isNaN id || num_lt id (of_Z Constants.MIN_LIMIT)
        || num_lt (of_Z Constants.MAX_LIMIT) id
     then fail (invalidParam name (Some Constants.msg.LIMIT))
     else ok (VNum id)) = r ->
    err r = None ->
    r = ok (VNum id) /\ isNaN id = false
    /\ num_lt id (of_Z Constants.MIN_LIMIT) = false
    /\ num_lt (of_Z Constants.MAX_LIMIT) id = false).
  { intros r0.
    destruct (isNaN id); cbn [orb]; [intros <- H; simpl in H; discriminate H|].
    destruct (num_lt id (of_Z Constants.MIN_LIMIT)); cbn [orb]; [intros <- H; simpl in H; discriminate H|].
    destruct (num_lt (of_Z Constants.MAX_LIMIT) id); cbn [orb]; [intros <- H; simpl in H; discriminate H|].
    intros <- _. now repeat split. }
  destruct val; simpl; try discriminate.
  - intros [= H] He. destruct (Hrange r H He) as (H1 & H2 & H3 & H4).
    repeat split; try assumption. discriminate.
  - destruct ((s =? "")%string || negb (trim s =? s)%string || isNaN id
              || negb (num_eq (floor id) id)) eqn:Hint.
    + intros [= <-] H. simpl in H. discriminate H.
    + intros [= H] He. destruct (Hrange r H He) as (H1 & H2 & H3 & H4).
      repeat split; try assumption. intros _.
      apply orb_false_iff in Hint. destruct Hint as [_ Hint].
      now apply negb_false_iff in Hint.
Qed.

Lemma validateOffset_cases (arg : value) (name : string) (val : value) (r : reply) :
  Validators.validateOffset StringToNumber NumberToString arg name val = Some r ->
  err r = None ->
  r = ok (VNum (Validators.Number StringToNumber NumberToString val))
  /\ isNaN (Validators.Number StringToNumber NumberToString val) = false
  /\ num_lt (Validators.Number StringToNumber NumberToString val)
       (of_Z Constants.MIN_OFFSET) = false
  /\ (typeof val = "string" ->
      num_eq (floor (Validators.Number StringToNumber NumberToString val))
        (Validators.Number StringToNumber NumberToString val) = true).
Proof.
  unfold Validators.validateOffset.
  set (id := Validators.Number StringToNumber NumberToString val).
  assert (Hrange : forall r,
    (if isNaN id || num_lt id (of_Z Constants.MIN_OFFSET)
     then fail (invalidParam name (Some Constants.msg.OFFSET))
     else ok (VNum id)) = r ->
    err r = None ->
    r = ok (VNum id) /\ isNaN id = false
    /\ num_lt id (of_Z Constants.MIN_OFFSET) = false).
  { intros r0.
    destruct (isNaN id); cbn [orb]; [intros <- H; simpl in H; discriminate H|].
    destruct (num_lt id (of_Z Constants.MIN_OFFSET)); cbn [orb]; [intros <- H; simpl in H; discriminate H|].
    intros <- _. now repeat split. }
  destruct val; simpl; try discriminate.
  - intros [= H] He. destruct (Hrange r H He) as (H1 & H2 & H3).
    repeat split; try assumption. discriminate.
  - destruct ((s =? "")%string || negb (trim s =? s)%string || isNaN id
              || negb (num_eq (floor id) id)) eqn:Hint.
    + intros [= <-] H. simpl in H. discriminate H.
    + intros [= H] He. destruct (Hrange r H He) as (H1 & H2 & H3).
      repeat split; try assumption. intros _.
      apply orb_false_iff in Hint. destruct Hint as [_ Hint].
      now apply negb_false_iff in Hint.
Qed.

End Ranges.

(** X16: whatever it is given, a number or a string, the limit validator
    never lets a value through outside the bounds: what it accepts is
    reported as a number, a rational between 1 and 1000; and on a string
    that number is a whole number. *)
Theorem limit_stays_within_bounds
    (StringToNumber : string -> number) (NumberToString : number -> string)
    (arg : value) (name : string) (val : value) (r : reply) :
  Validators.validateLimit StringToNumber NumberToString arg name val = Some r ->
  err r = None ->
  exists n,
    validated r = VNum n
    /\ between 1 1000 n
    /\ (typeof val = "string" -> integral n).
Proof.
  intros Hr He.
  destruct (validateLimit_cases _ _ _ _ _ _ Hr He) as (-> & Hnan & Hlo & Hhi & Hint).
  exists (Validators.Number StringToNumber NumberToString val).
  split; [reflexivity|].
  destruct (Validators.Number StringToNumber NumberToString val) as [| | |q];
    try discriminate.
  split.
  - split; [now apply not_lt_fin|now apply not_gt_fin].
  - intros Hs. specialize (Hint Hs). simpl in Hint. now apply Qeq_bool_iff.
Qed.

Lemma limit_stays_within_bounds_witness :
  Validators.validateLimit Sample.to_number (fun _ => "0") VNull "limit" (VStr "5")
  = Some (ok (VNum (of_Z 5)))
  /\ err (ok (VNum (of_Z 5))) = None
  /\ exists n, validated (ok (VNum (of_Z 5))) = VNum n /\ between 1 1000 n.
Proof.
  assert (H1 : Validators.validateLimit Sample.to_number (fun _ => "0") VNull
                 "limit" (VStr "5") = Some (ok (VNum (of_Z 5)))) by reflexivity.
  assert (H2 : err (ok (VNum (of_Z 5))) = None) by reflexivity.
  split; [exact H1|]. split; [exact H2|].
  destruct (limit_stays_within_bounds _ _ _ _ _ _ H1 H2) as (n & Hn & Hb & _).
  exists n. split; [exact Hn|exact Hb].
Defined.

(** X17: what the offset validator accepts is reported as a number that is
    at least 0; it has no upper bound, so that +Infinity is let through,
    and on a string the number is a whole number or +Infinity. *)
Theorem offset_is_never_negative
    (StringToNumber : string -> number) (NumberToString : number -> string)
    (arg : value) (name : string) (val : value) (r : reply) :
  Validators.validateOffset StringToNumber NumberToString arg name val = Some r ->
  err r = None ->
  (exists n,
     validated r = VNum n
     /\ at_least 0 n
     /\ (typeof val = "string" -> n = PosInf \/ integral n))
  /\ Validators.validateOffset StringToNumber NumberToString arg name (VNum PosInf)
     = Some (ok (VNum PosInf)).
Proof.
  intros Hr He. split; [|reflexivity].
  destruct (validateOffset_cases _ _ _ _ _ _ Hr He) as (-> & Hnan & Hlo & Hint).
  exists (Validators.Number StringToNumber NumberToString val).
  split; [reflexivity|].
  destruct (Validators.Number StringToNumber NumberToString val) as [| | |q] eqn:Hn;
    try discriminate.
  - split; [exact I|]. intros _. now left.
  - split; [now apply not_lt_fin|].
    intros Hs. right. specialize (Hint Hs). simpl in Hint. now apply Qeq_bool_iff.
Qed.

Lemma offset_is_never_negative_witness :
  Validators.validateOffset Sample.to_number (fun _ => "0") VNull "offset" (VStr "8")
  = Some (ok (VNum (of_Z 8)))
  /\ err (ok (VNum (of_Z 8))) = None
  /\ exists n, validated (ok (VNum (of_Z 8))) = VNum n /\ at_least 0 n.
Proof.
  assert (H1 : Validators.validateOffset Sample.to_number (fun _ => "0") VNull
                 "offset" (VStr "8") = Some (ok (VNum (of_Z 8)))) by reflexivity.
  assert (H2 : err (ok (VNum (of_Z 8))) = None) by reflexivity.
  split; [exact H1|]. split; [exact H2|].
  destruct (proj1 (offset_is_never_negative _ _ _ _ _ _ H1 H2)) as (n & Hn & Hb & _).
  exists n. split; [exact Hn|exact Hb].
Defined.

(** X18: the UUID validator tests the string form of its value, not the
    value: it accepts exactly the values whose string form is a UUID (36
    characters, hexadecimal digits and dashes) and returns them unchanged,
    so a one-element array holding a UUID string is accepted and returned
    as an array, although isValidUUID rejects it; on strings the two agree. *)
Theorem UUID_is_tested_by_its_string_form
    (NumberToString : number -> string) (arg : value) (name : string)
    (uuid : value) :
  (err (Stock.validateUUID NumberToString arg name uuid) = None
   <-> Stock.UUID_RE (Validators.ToString NumberToString uuid) = true)
  /\ (err (Stock.validateUUID NumberToString arg name uuid) = None ->
      validated (Stock.validateUUID NumberToString arg name uuid) = uuid
      /\ String.length (Validators.ToString NumberToString uuid) = 36%nat
      /\ Stock.all_chars is_hex_or_dash (Validators.ToString NumberToString uuid)
         = true)
  /\ (Stock.isValidUUID NumberToString uuid = true
      <-> exists s, uuid = VStr s /\ Stock.UUID_RE s = true)
  /\ (forall s,
        Stock.UUID_RE s = true ->
        Stock.validateUUID NumberToString arg name (VArr [VStr s])
        = ok (VArr [VStr s])
        /\ Stock.isValidUUID NumberToString (VArr [VStr s]) = false).
Proof.
  assert (Hacc : err (Stock.validateUUID NumberToString arg name uuid) = None
                 <-> Stock.UUID_RE (Validators.ToString NumberToString uuid) = true).
  { unfold Stock.validateUUID, Stock._validateUUID, Stock.test.
    destruct (Stock.UUID_RE (Validators.ToString NumberToString uuid));
      simpl; split; intros H; try reflexivity; discriminate H. }
  split; [exact Hacc|]. split; [|split].
  - intros H. pose proof (proj1 Hacc H) as Hre.
    destruct (UUID_RE_shape _ Hre) as [Hall Hlen].
    split; [|split; assumption].
    unfold Stock.validateUUID, Stock._validateUUID, Stock.test.
    rewrite Hre. reflexivity.
  - split.
    + destruct uuid as [| | | |s| |]; try discriminate.
      rewrite isValidUUID_string. intros H. now exists s.
    + intros (s & -> & H). now rewrite isValidUUID_string.
  - intros s Hs. split.
    + unfold Stock.validateUUID, Stock._validateUUID, Stock.test.
      change (Validators.ToString NumberToString (VArr [VStr s])) with s.
      rewrite Hs. reflexivity.
    + reflexivity.
Qed.

Section Subnets.

Variable addr : Type.
Variable parse : value -> option addr.
Variable kind : addr -> string.
Variable network : addr -> number -> option addr.
Variable compare : addr -> addr -> Z.
Variable StringToNumber : string -> number.

Local Abbreviation scan :=
  (Stock.scan_subnet addr parse kind network compare StringToNumber).
Local Abbreviation is_subnet :=
  (fun i => Stock._validateSubnet addr parse kind network compare StringToNumber
              (VStr (replace_first_spaces i)) = Some false).

Lemma scan_subnet_thrown (l : list value) : fold_left scan l None = None.
Proof. induction l as [|x l IH]; simpl; [reflexivity|exact IH]. Qed.

Lemma scan_subnet_fold (l : list value) (errs0 : list string) (sns0 : list value)
    (errs : list string) (sns : list value) :
  fold_left scan l (Some (errs0, sns0)) = Some (errs, sns) ->
  exists elems bad,
    l = map VStr elems
    /\ errs = errs0 ++ bad
    /\ (bad = [] ->
        sns = sns0 ++ map (fun i => VStr (replace_first_spaces i)) elems
        /\ Forall is_subnet elems).
Proof.
  revert errs0 sns0. induction l as [|x l IH]; intros errs0 sns0; cbn [fold_left].
  - intros [= <- <-]. exists [], []. rewrite !app_nil_r. repeat split. constructor.
  - destruct x as [| | | |s| |];
      try (cbn [Stock.scan_subnet]; rewrite scan_subnet_thrown; discriminate).
    cbn [Stock.scan_subnet]. cbv zeta.
    destruct (Stock._validateSubnet addr parse kind network compare StringToNumber
                (VStr (replace_first_spaces s))) as [[|]|] eqn:Hs.
    + intros H. destruct (IH _ _ H) as (elems & bad & -> & -> & _).
      exists (s :: elems), (replace_first_spaces s :: bad).
      split; [reflexivity|]. split; [now rewrite <- app_assoc|discriminate].
    + intros H. destruct (IH _ _ H) as (elems & bad & -> & -> & Hok).
      exists (s :: elems), bad. split; [reflexivity|]. split; [reflexivity|].
      intros Hb. destruct (Hok Hb) as [-> Hall].
      split; [now rewrite <- app_assoc|]. now constructor.
    + rewrite scan_subnet_thrown. discriminate.
Qed.

End Subnets.

(** X19: when the subnet-array validator succeeds, on an array of strings
    or on a comma-separated string, its value is the array of the subnet
    texts themselves, each with its first run of white space removed, in
    the order given; every one of them passed the subnet check. *)
Theorem subnetArray_keeps_the_texts
    (addr : Type) (parse : value -> option addr) (kind : addr -> string)
    (network : addr -> number -> option addr) (compare : addr -> addr -> Z)
    (StringToNumber : string -> number)
    (arg : value) (name : string) (arr : value) (r : reply) :
  Stock.validateSubnetArray addr parse kind network compare StringToNumber
    arg name arr = Some r ->
  err r = None ->
  exists elems,
    Common.arrayify arr = Some (VArr (map VStr elems))
    /\ elems <> []
    /\ validated r = VArr (map (fun i => VStr (replace_first_spaces i)) elems)
    /\ Forall (fun i =>
                 Stock._validateSubnet addr parse kind network compare
                   StringToNumber (VStr (replace_first_spaces i)) = Some false)
         elems.
Proof.
  unfold Stock.validateSubnetArray.
  destruct (negb (isArray arr) && negb (typeof arr =? "string")%string).
  { intros [= <-] H. discriminate H. }
  destruct (Common.arrayify arr) as [[| | | | |sn_array|]|]; try discriminate.
  destruct sn_array as [|x l].
  { simpl. intros [= <-] H. discriminate H. }
  cbn [List.length Nat.eqb].
  destruct (fold_left
              (Stock.scan_subnet addr parse kind network compare StringToNumber)
              (x :: l) (Some ([], []))) as [[errs sns]|] eqn:Hf;
    [|discriminate].
  destruct (scan_subnet_fold _ _ _ _ _ _ _ _ _ _ _ Hf)
    as (elems & bad & Hl & Hb & Hok).
  simpl in Hb. subst bad.
  destruct errs as [|e errs]; simpl.
  - intros [= <-] _. destruct (Hok eq_refl) as [-> Hall].
    exists elems. rewrite Hl. repeat split; try assumption.
    intros ->. discriminate Hl.
  - intros [= <-] H. discriminate H.
Qed.

Lemma subnetArray_keeps_the_texts_witness :
  Stock.validateSubnetArray string Sample.parse Sample.kind Sample.network
    Sample.compare Sample.to_number VNull "subnets" (VStr "10.0.0.0/8, 10.0.0.0/8")
  = Some (ok (VArr [VStr "10.0.0.0/8"; VStr "10.0.0.0/8"]))
  /\ err (ok (VArr [VStr "10.0.0.0/8"; VStr "10.0.0.0/8"])) = None
  /\ exists elems,
       Common.arrayify (VStr "10.0.0.0/8, 10.0.0.0/8") = Some (VArr (map VStr elems))
       /\ elems <> [].
Proof.
  assert (H1 : Stock.validateSubnetArray string Sample.parse Sample.kind
                 Sample.network Sample.compare Sample.to_number VNull "subnets"
                 (VStr "10.0.0.0/8, 10.0.0.0/8")
               = Some (ok (VArr [VStr "10.0.0.0/8"; VStr "10.0.0.0/8"])))
    by reflexivity.
  assert (H2 : err (ok (VArr [VStr "10.0.0.0/8"; VStr "10.0.0.0/8"])) = None)
    by reflexivity.
  split; [exact H1|]. split; [exact H2|].
  destruct (subnetArray_keeps_the_texts _ _ _ _ _ _ _ _ _ _ H1 H2)
    as (elems & Ha & Hne & _).
  exists elems. split; [exact Ha|exact Hne].
Defined.
